(** * web-bindraw: a shared 2D drawing surface

    A shallow embedding of the core of the editor (geometry kernel, shapes,
    quadtree, scene, commands and command log, view), of the collaboration
    hook and of the relay server, followed by the properties checked against
    the prose design and by further properties of the same code.

    Conventions of the embedding.
    - A JavaScript [number] is a rational [Q]; [a <= b] and [a >= b] are
      [Qle_bool a b] and [Qle_bool b a].  NaN and the infinities are outside
      the model.
    - [Math.cos] and [Math.sin] are host functions; they are taken as a
      [MathLib] argument by the functions that call them.
    - Shapes are heap objects: a [ref] names one, a [heap] gives its current
      fields.  The scene, the quadtree and the commands hold [ref]s, so a
      mutation through one alias is seen through all of them.
    - A thrown exception is the [None] of an [option]; where the state has to
      survive it, the state is returned next to it.
    - The properties compare, copy and restore numbers, or name the
      expression the code evaluates; none of them leans on an identity of
      exact arithmetic that rounding would break. *)

From Stdlib Require Import QArith Qminmax Lqa Lia Bool.
From stdpp Require Import base option list gmap strings.

Local Open Scope Q_scope.

Notation "a <=? b" := (Qle_bool a b) (at level 70, no associativity) : Q_scope.
Notation "a >=? b" := (Qle_bool b a) (at level 70, no associativity) : Q_scope.

(** The part of the JavaScript [Math] object the geometry kernel calls. *)
Record MathLib := { Math_cos : Q -> Q; Math_sin : Q -> Q }.

(** ** Geometry kernel *)

Module Vector.
Record t := mk { x : Q; y : Q }.

Definition add (u v : t) : t := mk (x u + x v) (y u + y v).

Definition sub (u v : t) : t := mk (x u - x v) (y u - y v).

Definition mul (u : t) (scalar : Q) : t := mk (x u * scalar) (y u * scalar).

(** [divide] throws on a zero scalar. *)
Definition divide (u : t) (scalar : Q) : option t :=
  if Qeq_bool scalar 0 then None else Some (mk (x u / scalar) (y u / scalar)).

Definition dot (u v : t) : Q := x u * x v + y u * y v.

Definition cross (u v : t) : Q := x u * y v - y u * x v.

Definition midpoint (a b : t) : t := mk ((x a + x b) / 2) ((y a + y b) / 2).

(** The same point, up to the representation of its coordinates. *)
Definition equiv (u v : t) : Prop := x u == x v /\ y u == y v.
End Vector.

Module Matrix.
(** | a c e |
    | b d f | *)
Record t := mk { a : Q; b : Q; c : Q; d : Q; e : Q; f : Q }.

Definition identity : t := mk 1 0 0 1 0 0.

Definition translation (tx ty : Q) : t := mk 1 0 0 1 tx ty.

Definition scaling (sx sy : Q) : t := mk sx 0 0 sy 0 0.

Definition rotation (M : MathLib) (angle : Q) : t :=
  let cos := Math_cos M angle in
  let sin := Math_sin M angle in
  mk cos sin (- sin) cos 0 0.

Definition multiply (this m : t) : t :=
  mk (a this * a m + c this * b m)
     (b this * a m + d this * b m)
     (a this * c m + c this * d m)
     (b this * c m + d this * d m)
     (a this * e m + c this * f m + e this)
     (b this * e m + d this * f m + f this).

(** [invert] throws when the determinant is [0]. *)
Definition invert (this : t) : option t :=
  let det := a this * d this - b this * c this in
  if Qeq_bool det 0 then None
  else
    let invDet := 1 / det in
    Some (mk (d this * invDet)
             (- b this * invDet)
             (- c this * invDet)
             (a this * invDet)
             ((c this * f this - d this * e this) * invDet)
             ((b this * e this - a this * f this) * invDet)).

Definition transformPoint (this : t) (p : Vector.t) : Vector.t :=
  Vector.mk (a this * Vector.x p + c this * Vector.y p + e this)
            (b this * Vector.x p + d this * Vector.y p + f this).

Definition translate (this : t) (tx ty : Q) : t := multiply this (translation tx ty).
Definition scale (this : t) (sx sy : Q) : t := multiply this (scaling sx sy).
Definition rotate (M : MathLib) (this : t) (angle : Q) : t :=
  multiply this (rotation M angle).

(** The determinant [invert] tests. *)
Definition determinant (this : t) : Q := a this * d this - b this * c this.
End Matrix.

Module AABB.
Record t := mk { minX : Q; minY : Q; maxX : Q; maxY : Q }.

Definition fromTopLeft (x y width height : Q) : t :=
  mk x y (x + width) (y + height).

Definition width (this : t) : Q := maxX this - minX this.
Definition height (this : t) : Q := maxY this - minY this.

Definition containsPoint (this : t) (point : Vector.t) : bool :=
  (Vector.x point >=? minX this) && (Vector.x point <=? maxX this) &&
  (Vector.y point >=? minY this) && (Vector.y point <=? maxY this).

Definition intersects (this other : t) : bool :=
  (minX this <=? maxX other) && (maxX this >=? minX other) &&
  (minY this <=? maxY other) && (maxY this >=? minY other).

Definition contains (this other : t) : bool :=
  (minX this <=? minX other) && (maxX this >=? maxX other) &&
  (minY this <=? minY other) && (maxY this >=? maxY other).

(** A box is inverted when a minimum exceeds the matching maximum. *)
Definition ordered (this : t) : Prop :=
  minX this <= maxX this /\ minY this <= maxY this.

Definition fromCenter (cx cy width height : Q) : t :=
  let halfW := width / 2 in
  let halfH := height / 2 in
  mk (cx - halfW) (cy - halfH) (cx + halfW) (cy + halfH).

(** [fromPoints]: the empty list gives [new AABB()].  The loop starts from
    (+Infinity, -Infinity), so its first step leaves the first point's own
    coordinates; the fold below starts there. *)
Definition fromPoints (points : list Vector.t) : t :=
  match points with
  | [] => mk 0 0 0 0
  | first :: rest =>
      fold_left
        (fun b p => mk (Qmin (minX b) (Vector.x p)) (Qmin (minY b) (Vector.y p))
                       (Qmax (maxX b) (Vector.x p)) (Qmax (maxY b) (Vector.y p)))
        rest
        (mk (Vector.x first) (Vector.y first) (Vector.x first) (Vector.y first))
  end.

Definition center (this : t) : Vector.t :=
  Vector.mk ((minX this + maxX this) / 2) ((minY this + maxY this) / 2).

Definition merge (this other : t) : t :=
  mk (Qmin (minX this) (minX other)) (Qmin (minY this) (minY other))
     (Qmax (maxX this) (maxX other)) (Qmax (maxY this) (maxY other)).

Definition expandToInclude (this : t) (point : Vector.t) : t :=
  mk (Qmin (minX this) (Vector.x point)) (Qmin (minY this) (Vector.y point))
     (Qmax (maxX this) (Vector.x point)) (Qmax (maxY this) (Vector.y point)).

Definition expand (this : t) (margin : Q) : t :=
  mk (minX this - margin) (minY this - margin) (maxX this + margin) (maxY this + margin).

Definition translate (this : t) (dx dy : Q) : t :=
  mk (minX this + dx) (minY this + dy) (maxX this + dx) (maxY this + dy).

Definition getCorners (this : t) : list Vector.t :=
  [Vector.mk (minX this) (minY this); Vector.mk (maxX this) (minY this);
   Vector.mk (maxX this) (maxY this); Vector.mk (minX this) (maxY this)].

(** [width > 0 && height > 0] *)
Definition isValid (this : t) : bool :=
  negb (width this <=? 0) && negb (height this <=? 0).

(** The same box, up to the representation of its coordinates. *)
Definition equiv (a b : t) : Prop :=
  minX a == minX b /\ minY a == minY b /\ maxX a == maxX b /\ maxY a == maxY b.
End AABB.

(** ** Wire values

    What [JSON.stringify] / [JSON.parse] carry.  A property whose value is
    [undefined] is dropped by [JSON.stringify]; [field_opt] builds it. *)

#[warnings="-register-all"]
Inductive JSON :=
| JNull
| JBool (b : bool)
| JNum (n : Q)
| JStr (s : string)
| JArr (items : list JSON)
| JObj (fields : list (string * JSON)).

Module Json.
Fixpoint assoc (k : string) (fields : list (string * JSON)) : option JSON :=
  match fields with
  | [] => None
  | (k', v) :: rest => if String.eqb k k' then Some v else assoc k rest
  end.

(** [j.k]; [None] is [undefined]. *)
Definition get (j : JSON) (k : string) : option JSON :=
  match j with
  | JObj fields => assoc k fields
  | _ => None
  end.

(** [j.k1.k2...] *)
Fixpoint path (j : JSON) (keys : list string) : option JSON :=
  match keys with
  | [] => Some j
  | k :: rest =>
      match get j k with
      | Some j' => path j' rest
      | None => None
      end
  end.

Definition field_opt (k : string) (v : option JSON) : list (string * JSON) :=
  match v with
  | Some j => [(k, j)]
  | None => []
  end.

(** [typeof v === 'number' ? v : dflt] *)
Definition num_or (v : option JSON) (dflt : Q) : Q :=
  match v with
  | Some (JNum n) => n
  | _ => dflt
  end.

(** [typeof v === 'string' ? v : undefined] *)
Definition str_opt (v : option JSON) : option string :=
  match v with
  | Some (JStr s) => Some s
  | _ => None
  end.

(** [obj[k] = v] on the field list: overwrite in place, or append. *)
Fixpoint set (k : string) (v : JSON) (fields : list (string * JSON))
    : list (string * JSON) :=
  match fields with
  | [] => [(k, v)]
  | (k', v') :: rest =>
      if String.eqb k k' then (k, v) :: rest else (k', v') :: set k v rest
  end.

(** [{...base, ...extra}] *)
Definition spread (base extra : list (string * JSON)) : list (string * JSON) :=
  fold_left (fun acc kv => set kv.1 kv.2 acc) extra base.

(** JavaScript truthiness of a possibly [undefined] value. *)
Definition truthy (v : option JSON) : bool :=
  match v with
  | None | Some JNull => false
  | Some (JBool b) => b
  | Some (JNum n) => negb (Qeq_bool n 0)
  | Some (JStr s) => negb (String.eqb s "")
  | Some (JArr _) | Some (JObj _) => true
  end.
End Json.

(** ** Shapes

    The rectangle and the circle are modelled; a shape is top-level
    ([parent] is [null]), so its world matrix is its local matrix.  The style
    record plays no part in geometry, commands or synchronisation and is left
    out. *)

Inductive Geometry :=
| RectGeom (width height cornerRadius : Q)
| CircleGeom (radius : Q).

Module Shape.
Record t := mk {
  id : string;
  name : string;
  x : Q;
  y : Q;
  rotation : Q;
  scaleX : Q;
  scaleY : Q;
  visible : bool;
  locked : bool;
  zIndex : Q;
  geom : Geometry
}.

Definition set_x (v : Q) (s : t) : t :=
  mk (id s) (name s) v (y s) (rotation s) (scaleX s) (scaleY s)
     (visible s) (locked s) (zIndex s) (geom s).

Definition set_y (v : Q) (s : t) : t :=
  mk (id s) (name s) (x s) v (rotation s) (scaleX s) (scaleY s)
     (visible s) (locked s) (zIndex s) (geom s).

(** [a || b] on strings: the empty string is falsy. *)
Definition str_or (a : option string) (b : string) : string :=
  match a with
  | Some s => if String.eqb s "" then b else s
  | None => b
  end.

Definition getLocalMatrix (M : MathLib) (s : t) : Matrix.t :=
  Matrix.scale
    (Matrix.rotate M (Matrix.translate Matrix.identity (x s) (y s)) (rotation s))
    (scaleX s) (scaleY s).

Definition getWorldMatrix (M : MathLib) (s : t) : Matrix.t := getLocalMatrix M s.

Definition getInverseWorldMatrix (M : MathLib) (s : t) : option Matrix.t :=
  Matrix.invert (getWorldMatrix M s).

Definition worldToLocal (M : MathLib) (s : t) (point : Vector.t) : option Vector.t :=
  m ← getInverseWorldMatrix M s; Some (Matrix.transformPoint m point).

(** The exact hit test.  For the circle, [localPoint.length() <= radius]
    is [sqrt (x*x + y*y) <= radius], stated here without the square root. *)
Definition hitTest (M : MathLib) (s : t) (worldPoint : Vector.t) : option bool :=
  localPoint ← worldToLocal M s worldPoint;
  match geom s with
  | RectGeom width height _ =>
      let halfW := width / 2 in
      let halfH := height / 2 in
      Some ((Vector.x localPoint >=? - halfW) && (Vector.x localPoint <=? halfW) &&
            (Vector.y localPoint >=? - halfH) && (Vector.y localPoint <=? halfH))
  | CircleGeom radius =>
      Some ((0 <=? radius) &&
            (Vector.x localPoint * Vector.x localPoint +
             Vector.y localPoint * Vector.y localPoint <=? radius * radius))
  end.

(** The box in the shape's own (local) coordinate system. *)
Definition getBoundingBox (s : t) : AABB.t :=
  match geom s with
  | RectGeom width height _ =>
      let halfW := width / 2 in
      let halfH := height / 2 in
      AABB.mk (- halfW) (- halfH) halfW halfH
  | CircleGeom radius => AABB.mk (- radius) (- radius) radius radius
  end.

Definition toJSON (s : t) : JSON :=
  match geom s with
  | RectGeom width height cornerRadius =>
      JObj [("type", JStr "Rect"); ("id", JStr (id s)); ("name", JStr (name s));
            ("x", JNum (x s)); ("y", JNum (y s));
            ("width", JNum width); ("height", JNum height);
            ("rotation", JNum (rotation s));
            ("scaleX", JNum (scaleX s)); ("scaleY", JNum (scaleY s));
            ("cornerRadius", JNum cornerRadius);
            ("visible", JBool (visible s)); ("locked", JBool (locked s));
            ("zIndex", JNum (zIndex s))]%string
  | CircleGeom radius =>
      JObj [("type", JStr "Circle"); ("id", JStr (id s)); ("name", JStr (name s));
            ("x", JNum (x s)); ("y", JNum (y s));
            ("radius", JNum radius);
            ("rotation", JNum (rotation s));
            ("scaleX", JNum (scaleX s)); ("scaleY", JNum (scaleY s));
            ("visible", JBool (visible s)); ("locked", JBool (locked s));
            ("zIndex", JNum (zIndex s))]%string
  end.

(** The constructor chain run by [Rect.fromJSON] and [Circle.fromJSON]:
    the options object built from the data carries no [visible], [locked]
    or [zIndex], so the base constructor falls back to its defaults.
    [uuid] is what [uuidv4()] would return. *)
Definition fromJSON (uuid : string) (dfltName : string)
    (g : Geometry) (data : JSON) : t :=
  mk (str_or (Json.str_opt (Json.get data "id")) uuid)
     (str_or (Json.str_opt (Json.get data "name")) dfltName)
     (Json.num_or (Json.get data "x") 0)
     (Json.num_or (Json.get data "y") 0)
     (Json.num_or (Json.get data "rotation") 0)
     (Json.num_or (Json.get data "scaleX") 1)
     (Json.num_or (Json.get data "scaleY") 1)
     true false 0 g.

Definition Rect_fromJSON (uuid : string) (data : JSON) : t :=
  fromJSON uuid "Rectangle"
    (RectGeom (Json.num_or (Json.get data "width") 100)
              (Json.num_or (Json.get data "height") 100)
              (Json.num_or (Json.get data "cornerRadius") 0))
    data.

Definition Circle_fromJSON (uuid : string) (data : JSON) : t :=
  fromJSON uuid "Circle" (CircleGeom (Json.num_or (Json.get data "radius") 50)) data.

Definition set_rotation (v : Q) (s : t) : t :=
  mk (id s) (name s) (x s) (y s) v (scaleX s) (scaleY s)
     (visible s) (locked s) (zIndex s) (geom s).

Definition set_zIndex (v : Q) (s : t) : t :=
  mk (id s) (name s) (x s) (y s) (rotation s) (scaleX s) (scaleY s)
     (visible s) (locked s) v (geom s).

Definition set_geom (g : Geometry) (s : t) : t :=
  mk (id s) (name s) (x s) (y s) (rotation s) (scaleX s) (scaleY s)
     (visible s) (locked s) (zIndex s) g.

Definition set_name (v : string) (s : t) : t :=
  mk (id s) v (x s) (y s) (rotation s) (scaleX s) (scaleY s)
     (visible s) (locked s) (zIndex s) (geom s).

Definition set_id (v : string) (s : t) : t :=
  mk v (name s) (x s) (y s) (rotation s) (scaleX s) (scaleY s)
     (visible s) (locked s) (zIndex s) (geom s).

Definition set_scaleX (v : Q) (s : t) : t :=
  mk (id s) (name s) (x s) (y s) (rotation s) v (scaleY s)
     (visible s) (locked s) (zIndex s) (geom s).

Definition set_scaleY (v : Q) (s : t) : t :=
  mk (id s) (name s) (x s) (y s) (rotation s) (scaleX s) v
     (visible s) (locked s) (zIndex s) (geom s).

Definition set_visible (v : bool) (s : t) : t :=
  mk (id s) (name s) (x s) (y s) (rotation s) (scaleX s) (scaleY s)
     v (locked s) (zIndex s) (geom s).

Definition set_locked (v : bool) (s : t) : t :=
  mk (id s) (name s) (x s) (y s) (rotation s) (scaleX s) (scaleY s)
     (visible s) v (zIndex s) (geom s).

(** [shape.width = v] and [shape.height = v] where the shape has the
    property, that is on a rectangle. *)
Definition set_width (v : Q) (s : t) : t :=
  match geom s with
  | RectGeom _ height cornerRadius => set_geom (RectGeom v height cornerRadius) s
  | CircleGeom _ => s
  end.

Definition set_height (v : Q) (s : t) : t :=
  match geom s with
  | RectGeom width _ cornerRadius => set_geom (RectGeom width v cornerRadius) s
  | CircleGeom _ => s
  end.

Definition set_cornerRadius (v : Q) (s : t) : t :=
  match geom s with
  | RectGeom width height _ => set_geom (RectGeom width height v) s
  | CircleGeom _ => s
  end.

Definition set_radius (v : Q) (s : t) : t :=
  match geom s with
  | RectGeom _ _ _ => s
  | CircleGeom _ => set_geom (CircleGeom v) s
  end.

(** The own properties of a shape object that the record keeps. *)
Inductive Property :=
| p_id | p_name | p_x | p_y | p_rotation | p_scaleX | p_scaleY
| p_visible | p_locked | p_zIndex | p_width | p_height | p_cornerRadius | p_radius.

Definition properties : list (string * Property) :=
  [("id", p_id); ("name", p_name); ("x", p_x); ("y", p_y); ("rotation", p_rotation);
   ("scaleX", p_scaleX); ("scaleY", p_scaleY); ("visible", p_visible);
   ("locked", p_locked); ("zIndex", p_zIndex); ("width", p_width); ("height", p_height);
   ("cornerRadius", p_cornerRadius); ("radius", p_radius)]%string.

Definition property_of (property : string) : option Property :=
  option_map snd (find (fun entry => String.eqb property (fst entry)) properties).

(** [shape[property]], read dynamically; [None] is [undefined]. *)
Definition getProperty (property : string) (s : t) : option JSON :=
  match property_of property with
  | Some p_id => Some (JStr (id s))
  | Some p_name => Some (JStr (name s))
  | Some p_x => Some (JNum (x s))
  | Some p_y => Some (JNum (y s))
  | Some p_rotation => Some (JNum (rotation s))
  | Some p_scaleX => Some (JNum (scaleX s))
  | Some p_scaleY => Some (JNum (scaleY s))
  | Some p_visible => Some (JBool (visible s))
  | Some p_locked => Some (JBool (locked s))
  | Some p_zIndex => Some (JNum (zIndex s))
  | Some p_width =>
      match geom s with RectGeom width _ _ => Some (JNum width) | CircleGeom _ => None end
  | Some p_height =>
      match geom s with RectGeom _ height _ => Some (JNum height) | CircleGeom _ => None end
  | Some p_cornerRadius =>
      match geom s with
      | RectGeom _ _ cornerRadius => Some (JNum cornerRadius)
      | CircleGeom _ => None
      end
  | Some p_radius =>
      match geom s with RectGeom _ _ _ => None | CircleGeom radius => Some (JNum radius) end
  | None => None
  end.

(** [shape[property] = value], written dynamically.  The record keeps the
    typed fields of a shape only: a value of another type than the field's,
    a property the shape does not have and the properties left out of the
    record are outside the model, and such a write leaves the record as it
    is. *)
Definition setProperty (property : string) (value : option JSON) (s : t) : t :=
  match property_of property, value with
  | Some p_id, Some (JStr v) => set_id v s
  | Some p_name, Some (JStr v) => set_name v s
  | Some p_x, Some (JNum v) => set_x v s
  | Some p_y, Some (JNum v) => set_y v s
  | Some p_rotation, Some (JNum v) => set_rotation v s
  | Some p_scaleX, Some (JNum v) => set_scaleX v s
  | Some p_scaleY, Some (JNum v) => set_scaleY v s
  | Some p_visible, Some (JBool v) => set_visible v s
  | Some p_locked, Some (JBool v) => set_locked v s
  | Some p_zIndex, Some (JNum v) => set_zIndex v s
  | Some p_width, Some (JNum v) => set_width v s
  | Some p_height, Some (JNum v) => set_height v s
  | Some p_cornerRadius, Some (JNum v) => set_cornerRadius v s
  | Some p_radius, Some (JNum v) => set_radius v s
  | _, _ => s
  end.
End Shape.

(** The shape factory.  [None] is a thrown error: a value that is not an
    object with a [type], or an unknown tag.  The tags of the variants that
    are not modelled (Line, Text, Group) are unknown here. *)
Definition createShapeFromJSON (uuid : string) (json : JSON) : option Shape.t :=
  match json with
  | JObj _ =>
      match Json.get json "type" with
      | Some (JStr "Rect") => Some (Shape.Rect_fromJSON uuid json)
      | Some (JStr "Circle") => Some (Shape.Circle_fromJSON uuid json)
      | _ => None
      end
  | _ => None
  end.

(** ** The shape heap *)

Definition ref := nat.
Definition heap := ref -> Shape.t.

Definition upd (h : heap) (r : ref) (s : Shape.t) : heap :=
  fun r' => if Nat.eqb r' r then s else h r'.

(** ** Quadtree

    A node's [children] are either [null] ([Unsplit]) or the four quadrants
    ([Split]).  [capacity] and [maxDepth] are the same in every node of a
    tree, and a node's [depth] only serves the test [depth >= maxDepth]; the
    functions below carry [levels = maxDepth - depth], so that test reads
    [levels = 0]. *)

Inductive QuadTreeNode :=
| Unsplit (bounds : AABB.t) (shapes : list ref)
| Split (bounds : AABB.t) (shapes : list ref) (c0 c1 c2 c3 : QuadTreeNode).

Module QuadTreeNode.
Definition bounds (n : QuadTreeNode) : AABB.t :=
  match n with
  | Unsplit b _ | Split b _ _ _ _ _ => b
  end.

Definition shapes (n : QuadTreeNode) : list ref :=
  match n with
  | Unsplit _ l | Split _ l _ _ _ _ => l
  end.

Definition isSubdivided (n : QuadTreeNode) : bool :=
  match n with
  | Unsplit _ _ => false
  | Split _ _ _ _ _ _ => true
  end.

(** [this.shapes.push(shape)] *)
Definition push (n : QuadTreeNode) (shape : ref) : QuadTreeNode :=
  match n with
  | Unsplit b l => Unsplit b (l ++ [shape])
  | Split b l c0 c1 c2 c3 => Split b (l ++ [shape]) c0 c1 c2 c3
  end.

(** The four fresh quadrants of [subdivide], in the order the source
    lists them. *)
Definition quadrants (b : AABB.t) : QuadTreeNode :=
  let midX := (AABB.minX b + AABB.maxX b) / 2 in
  let midY := (AABB.minY b + AABB.maxY b) / 2 in
  Split b []
    (Unsplit (AABB.mk (AABB.minX b) (AABB.minY b) midX midY) [])
    (Unsplit (AABB.mk midX (AABB.minY b) (AABB.maxX b) midY) [])
    (Unsplit (AABB.mk (AABB.minX b) midY midX (AABB.maxY b)) [])
    (Unsplit (AABB.mk midX midY (AABB.maxX b) (AABB.maxY b)) []).

Section Insert.
Variable h : heap.

Definition bbox (shape : ref) : AABB.t := Shape.getBoundingBox (h shape).

Section Level.
(** [child.insert], one level down. *)
Variable child_insert : QuadTreeNode -> ref -> QuadTreeNode * bool.

(** The loop over [this.children] at the end of [insert], with the
    fall-back push when no child took the shape. *)
Definition insertIntoChildren (n : QuadTreeNode) (shape : ref) : QuadTreeNode :=
  match n with
  | Unsplit _ _ => n
  | Split b l c0 c1 c2 c3 =>
      let '(c0', i0) := child_insert c0 shape in
      let '(c1', i1) := child_insert c1 shape in
      let '(c2', i2) := child_insert c2 shape in
      let '(c3', i3) := child_insert c3 shape in
      let inserted := i0 || i1 || i2 || i3 in
      Split b (if inserted then l else l ++ [shape]) c0' c1' c2' c3'
  end.

(** [this.insert(shape)] as [subdivide] calls it: the node is split
    and below [maxDepth], so after the bounds test the call goes
    straight to the children. *)
Definition reinsert (n : QuadTreeNode) (shape : ref) : QuadTreeNode :=
  if negb (AABB.intersects (bounds n) (bbox shape)) then n
  else insertIntoChildren n shape.

Definition subdivide (n : QuadTreeNode) : QuadTreeNode :=
  if isSubdivided n then n
  else fold_left reinsert (shapes n) (quadrants (bounds n)).
End Level.

Fixpoint insert (capacity levels : nat) (n : QuadTreeNode) (shape : ref)
    : QuadTreeNode * bool :=
  if negb (AABB.intersects (bounds n) (bbox shape)) then (n, false)
  else if (length (shapes n) <? capacity)%nat && negb (isSubdivided n)
  then (push n shape, true)
  else
    match levels with
    | O => (push n shape, true)
    | S levels' =>
        let n' := subdivide (insert capacity levels') n in
        (insertIntoChildren (insert capacity levels') n' shape, true)
    end.

Fixpoint query (range : AABB.t) (n : QuadTreeNode) (result : list ref) : list ref :=
  if negb (AABB.intersects (bounds n) range) then result
  else
    let result :=
      result ++ filter (fun shape => AABB.intersects range (bbox shape) = true) (shapes n) in
    match n with
    | Unsplit _ _ => result
    | Split _ _ c0 c1 c2 c3 =>
        query range c3 (query range c2 (query range c1 (query range c0 result)))
    end.

Fixpoint queryPoint (point : Vector.t) (n : QuadTreeNode) (result : list ref) : list ref :=
  if negb (AABB.containsPoint (bounds n) point) then result
  else
    let result :=
      result ++ filter (fun shape => AABB.containsPoint (bbox shape) point = true) (shapes n) in
    match n with
    | Unsplit _ _ => result
    | Split _ _ c0 c1 c2 c3 =>
        queryPoint point c3 (queryPoint point c2 (queryPoint point c1 (queryPoint point c0 result)))
    end.
End Insert.

Definition clear (n : QuadTreeNode) : QuadTreeNode := Unsplit (bounds n) [].
End QuadTreeNode.

Module QuadTree.
Record t := mk { root : QuadTreeNode; capacity : nat; maxDepth : nat }.

(** [new QuadTree(bounds)] with the default capacity 4 and depth 8. *)
Definition new (bounds : AABB.t) : t := mk (Unsplit bounds []) 4 8.

Definition insert (h : heap) (q : t) (shape : ref) : t :=
  mk (QuadTreeNode.insert h (capacity q) (maxDepth q) (root q) shape).1
     (capacity q) (maxDepth q).

Definition insertAll (h : heap) (q : t) (shapes : list ref) : t :=
  fold_left (insert h) shapes q.

Definition query (h : heap) (q : t) (range : AABB.t) : list ref :=
  QuadTreeNode.query h range (root q) [].

Definition queryPoint (h : heap) (q : t) (point : Vector.t) : list ref :=
  QuadTreeNode.queryPoint h point (root q) [].

Definition clear (q : t) : t := mk (QuadTreeNode.clear (root q)) (capacity q) (maxDepth q).

Definition rebuild (h : heap) (q : t) (shapes : list ref) : t :=
  insertAll h (clear q) shapes.
End QuadTree.

(** Every split node's quadrants cover the node's own region. *)
Fixpoint covered (n : QuadTreeNode) : Prop :=
  match n with
  | Unsplit _ _ => True
  | Split b _ c0 c1 c2 c3 =>
      (forall p, AABB.containsPoint b p = true ->
                 AABB.containsPoint (QuadTreeNode.bounds c0) p = true \/
                 AABB.containsPoint (QuadTreeNode.bounds c1) p = true \/
                 AABB.containsPoint (QuadTreeNode.bounds c2) p = true \/
                 AABB.containsPoint (QuadTreeNode.bounds c3) p = true) /\
      covered c0 /\ covered c1 /\ covered c2 /\ covered c3
  end.

(** Every shape held by a node or below it. *)
Fixpoint stored (n : QuadTreeNode) : list ref :=
  match n with
  | Unsplit _ l => l
  | Split _ l c0 c1 c2 c3 => l ++ stored c0 ++ stored c1 ++ stored c2 ++ stored c3
  end.

(** What one level of [insert] guarantees, as needed one level up. *)
Definition insert_ok (h : heap)
    (ins : QuadTreeNode -> ref -> QuadTreeNode * bool) : Prop :=
  forall n s,
    covered n ->
    covered (ins n s).1 /\
    QuadTreeNode.bounds (ins n s).1 = QuadTreeNode.bounds n /\
    ((ins n s).2 = false -> AABB.intersects (QuadTreeNode.bounds n) (QuadTreeNode.bbox h s) = false) /\
    (forall p r, r ∈ QuadTreeNode.queryPoint h p n [] ->
                 r ∈ QuadTreeNode.queryPoint h p (ins n s).1 []) /\
    (forall p, AABB.containsPoint (QuadTreeNode.bounds n) p = true ->
               AABB.containsPoint (QuadTreeNode.bbox h s) p = true ->
               s ∈ QuadTreeNode.queryPoint h p (ins n s).1 []).

(** One level of [insert] stores nothing but the shape it is given. *)
Definition insert_sound (ins : QuadTreeNode -> ref -> QuadTreeNode * bool) : Prop :=
  forall n s r, r ∈ stored (ins n s).1 -> r ∈ stored n \/ r = s.

(** ** Scene

    The change callbacks belong to the embedding application and are not
    part of the state. *)

Module Scene.
Record t := mk {
  shapes : list ref;
  autoSort : bool;
  quadTree : option QuadTree.t;
  useQuadTree : bool;
  quadTreeDirty : bool
}.

Definition defaultBounds : AABB.t :=
  AABB.mk (- (10000)) (- (10000)) 10000 10000.

(** [new Scene(options)]: [autoSort ?? true], [useQuadTree ?? false]. *)
Definition new (optAutoSort optUseQuadTree : option bool)
    (quadTreeBounds : option AABB.t) : t :=
  let useQT := default false optUseQuadTree in
  mk [] (default true optAutoSort)
     (if useQT then Some (QuadTree.new (default defaultBounds quadTreeBounds)) else None)
     useQT true.

Definition with_shapes (l : list ref) (s : t) : t :=
  mk l (autoSort s) (quadTree s) (useQuadTree s) (quadTreeDirty s).

Definition with_dirty (b : bool) (s : t) : t :=
  mk (shapes s) (autoSort s) (quadTree s) (useQuadTree s) b.

Section WithHeap.
Variable h : heap.

(** [Array.prototype.sort] is stable; with the comparator
    [a.zIndex - b.zIndex] it is the stable sort by [zIndex]. *)
Fixpoint sort_insert (a : ref) (l : list ref) : list ref :=
  match l with
  | [] => [a]
  | b :: rest =>
      if Shape.zIndex (h a) <=? Shape.zIndex (h b) then a :: b :: rest
      else b :: sort_insert a rest
  end.

Definition sorted_list (l : list ref) : list ref := foldr sort_insert [] l.

Definition sort (s : t) : t := with_shapes (sorted_list (shapes s)) s.

Definition add (s : t) (shape : ref) : t :=
  let s := with_shapes (shapes s ++ [shape]) s in
  let s := if autoSort s then sort s else s in
  with_dirty true s.

Definition addMany (s : t) (l : list ref) : t :=
  let s := with_shapes (shapes s ++ l) s in
  if autoSort s then sort s else s.

(** [indexOf] followed by [splice(index, 1)]: drop the first occurrence. *)
Fixpoint remove_first (shape : ref) (l : list ref) : option (list ref) :=
  match l with
  | [] => None
  | r :: rest =>
      if Nat.eqb r shape then Some rest
      else option_map (cons r) (remove_first shape rest)
  end.

Definition remove (s : t) (shape : ref) : t * bool :=
  match remove_first shape (shapes s) with
  | Some l => (with_dirty true (with_shapes l s), true)
  | None => (s, false)
  end.

Definition removeMany (s : t) (l : list ref) : t :=
  fold_left
    (fun s shape =>
       match remove_first shape (shapes s) with
       | Some l' => with_shapes l' s
       | None => s
       end)
    l s.

Definition clear (s : t) : t := with_shapes [] s.

Definition findById (s : t) (id : string) : option ref :=
  find (fun r => String.eqb (Shape.id (h r)) id) (shapes s).

Definition rebuildQuadTreeIfNeeded (s : t) : t :=
  match quadTree s with
  | Some q =>
      if quadTreeDirty s
      then mk (shapes s) (autoSort s) (Some (QuadTree.rebuild h q (shapes s)))
              (useQuadTree s) false
      else s
  | None => s
  end.

(** The downward loops of [hitTest], over the list already reversed.
    The outer [None] is an exception thrown by a shape's [hitTest]. *)
Fixpoint firstHit (M : MathLib) (point : Vector.t) (l : list ref)
    : option (option ref) :=
  match l with
  | [] => Some None
  | shape :: rest =>
      if Shape.visible (h shape) && negb (Shape.locked (h shape)) then
        hit ← Shape.hitTest M (h shape) point;
        if (hit : bool) then Some (Some shape) else firstHit M point rest
      else firstHit M point rest
  end.

Definition hitTest (M : MathLib) (s : t) (point : Vector.t)
    : option (t * option ref) :=
  match useQuadTree s, quadTree s with
  | true, Some _ =>
      let s := rebuildQuadTreeIfNeeded s in
      let candidates :=
        match quadTree s with
        | Some q => QuadTree.queryPoint h q point
        | None => []
        end in
      r ← firstHit M point (rev candidates); Some (s, r)
  | _, _ =>
      r ← firstHit M point (rev (shapes s)); Some (s, r)
  end.

Definition findInBounds (s : t) (bounds : AABB.t) : t * list ref :=
  match useQuadTree s, quadTree s with
  | true, Some _ =>
      let s := rebuildQuadTreeIfNeeded s in
      let found :=
        match quadTree s with
        | Some q => QuadTree.query h q bounds
        | None => []
        end in
      (s, filter (fun shape => Shape.visible (h shape) = true) found)
  | _, _ =>
      (s, filter (fun shape =>
                    Shape.visible (h shape) = true /\
                    AABB.intersects bounds (Shape.getBoundingBox (h shape)) = true)
                 (shapes s))
  end.
End WithHeap.

(** [Math.max(...this.shapes.map(s => s.zIndex), 0)] and its [Math.min]
    twin. *)
Definition maxZIndex (h : heap) (s : t) : Q :=
  foldr Qmax 0 (map (fun r => Shape.zIndex (h r)) (shapes s)).

Definition minZIndex (h : heap) (s : t) : Q :=
  foldr Qmin 0 (map (fun r => Shape.zIndex (h r)) (shapes s)).

(** [bringToFront] and [sendToBack] write the shape's [zIndex] and then
    sort, when the scene sorts itself. *)
Definition bringToFront (h : heap) (s : t) (shape : ref) : heap * t :=
  let h := upd h shape (Shape.set_zIndex (maxZIndex h s + 1) (h shape)) in
  (h, if autoSort s then sort h s else s).

Definition sendToBack (h : heap) (s : t) (shape : ref) : heap * t :=
  let h := upd h shape (Shape.set_zIndex (minZIndex h s - 1) (h shape)) in
  (h, if autoSort s then sort h s else s).
End Scene.

(** ** Editor state and commands

    One editor owns one heap of shapes and one scene; [nextRef] is the next
    unused object identity. *)

Record World := mkWorld { wheap : heap; wscene : Scene.t; nextRef : ref }.

(** The rotate and the scale command snapshot the shapes when they are
    constructed and compute from the snapshot, not from the shape's current
    fields. *)

(** [Math.PI], the double nearest to pi. *)
Definition Math_PI : Q := 884279719003555 # 281474976710656.

Module RotateCommand.
Record state := mkState { shape : ref; x : Q; y : Q; rotation : Q }.

Record t := mk {
  shapes : list ref;
  angle : Q;
  pivot : Vector.t;
  originalStates : list state
}.

Definition new (h : heap) (shapes : list ref) (angle : Q) (pivot : Vector.t) : t :=
  mk shapes angle pivot
     (map (fun shape => mkState shape (Shape.x (h shape)) (Shape.y (h shape))
                                (Shape.rotation (h shape)))
          shapes).

Definition rotate (M : MathLib) (this : t) (angle : Q) (h : heap) : heap :=
  let radians := angle * (Math_PI / 180) in
  let cos := Math_cos M radians in
  let sin := Math_sin M radians in
  fold_left
    (fun h st =>
       let relX := x st - Vector.x (pivot this) in
       let relY := y st - Vector.y (pivot this) in
       let s := h (shape st) in
       let s := Shape.set_x (Vector.x (pivot this) + relX * cos - relY * sin) s in
       let s := Shape.set_y (Vector.y (pivot this) + relX * sin + relY * cos) s in
       let s := Shape.set_rotation (rotation st + angle) s in
       upd h (shape st) s)
    (originalStates this) h.

Definition execute (M : MathLib) (this : t) (h : heap) : heap :=
  rotate M this (angle this) h.

Definition undo (this : t) (h : heap) : heap :=
  fold_left
    (fun h st =>
       let s := h (shape st) in
       let s := Shape.set_x (x st) s in
       let s := Shape.set_y (y st) s in
       let s := Shape.set_rotation (rotation st) s in
       upd h (shape st) s)
    (originalStates this) h.
End RotateCommand.

Module ScaleCommand.
Record state := mkState { shape : ref; x : Q; y : Q; width : Q; height : Q }.

Record t := mk {
  shapes : list ref;
  scaleX : Q;
  scaleY : Q;
  pivot : Vector.t;
  originalStates : list state
}.

(** [(shape as any).width || 0]: a circle has no [width]. *)
Definition width_or_0 (s : Shape.t) : Q :=
  match Shape.geom s with
  | RectGeom width _ _ => width
  | CircleGeom _ => 0
  end.

Definition height_or_0 (s : Shape.t) : Q :=
  match Shape.geom s with
  | RectGeom _ height _ => height
  | CircleGeom _ => 0
  end.

(** The two assignments guarded by ['width' in shape] and
    ['height' in shape]. *)
Definition set_size (width height : Q) (s : Shape.t) : Shape.t :=
  match Shape.geom s with
  | RectGeom _ _ cornerRadius => Shape.set_geom (RectGeom width height cornerRadius) s
  | CircleGeom _ => s
  end.

Definition new (h : heap) (shapes : list ref) (scaleX scaleY : Q) (pivot : Vector.t) : t :=
  mk shapes scaleX scaleY pivot
     (map (fun shape => mkState shape (Shape.x (h shape)) (Shape.y (h shape))
                                (width_or_0 (h shape)) (height_or_0 (h shape)))
          shapes).

Definition scale (this : t) (scaleX scaleY : Q) (h : heap) : heap :=
  fold_left
    (fun h st =>
       let relX := x st - Vector.x (pivot this) in
       let relY := y st - Vector.y (pivot this) in
       let s := h (shape st) in
       let s := Shape.set_x (Vector.x (pivot this) + relX * scaleX) s in
       let s := Shape.set_y (Vector.y (pivot this) + relY * scaleY) s in
       let s := set_size (width st * scaleX) (height st * scaleY) s in
       upd h (shape st) s)
    (originalStates this) h.

Definition execute (this : t) (h : heap) : heap :=
  scale this (scaleX this) (scaleY this) h.

Definition undo (this : t) (h : heap) : heap :=
  fold_left
    (fun h st =>
       let s := h (shape st) in
       let s := Shape.set_x (x st) s in
       let s := Shape.set_y (y st) s in
       let s := set_size (width st) (height st) s in
       upd h (shape st) s)
    (originalStates this) h.
End ScaleCommand.

(** The transform command is handed the states before and after by its
    caller. *)
Module TransformCommand.
(** [ShapeState]: [None] is a field the snapshot leaves out. *)
Record ShapeState := mkState {
  x : Q;
  y : Q;
  width : option Q;
  height : option Q;
  rotation : option Q;
  scaleX : option Q;
  scaleY : option Q
}.

(** [if (state.f !== undefined && 'f' in shape) shape.f = state.f] *)
Definition set_defined (set : Q -> Shape.t -> Shape.t) (v : option Q) (s : Shape.t) : Shape.t :=
  match v with
  | Some v => set v s
  | None => s
  end.

Definition applyState (state : ShapeState) (s : Shape.t) : Shape.t :=
  let s := Shape.set_x (x state) s in
  let s := Shape.set_y (y state) s in
  let s := set_defined Shape.set_width (width state) s in
  let s := set_defined Shape.set_height (height state) s in
  let s := set_defined Shape.set_rotation (rotation state) s in
  let s := set_defined Shape.set_scaleX (scaleX state) s in
  let s := set_defined Shape.set_scaleY (scaleY state) s in
  s.

Definition applyStates (shapes : list ref) (states : gmap ref ShapeState) (h : heap) : heap :=
  fold_left
    (fun h shape =>
       match states !! shape with
       | Some state => upd h shape (applyState state (h shape))
       | None => h
       end)
    shapes h.
End TransformCommand.

(** The command classes, each with the fields its constructor leaves. *)
Inductive Command :=
| AddShapeCommand (shape : ref)
| RemoveShapeCommand (shapesToRemove : list ref)
| MoveShapeCommand (shapes : list ref) (dx dy : Q) (oldPositions : gmap ref Vector.t)
| ModifyShapeCommand (shapes : list ref) (property : string) (newValue : option JSON)
                     (oldValues : gmap ref (option JSON))
| TransformCommand (shapes : list ref)
                   (beforeStates afterStates : gmap ref TransformCommand.ShapeState)
| RotateCommand (this : RotateCommand.t)
| ScaleCommand (this : ScaleCommand.t).

Module Command.
(** [new MoveShapeCommand(shapes, dx, dy)] records where each shape is. *)
Definition newMoveShapeCommand (h : heap) (shapes : list ref) (dx dy : Q) : Command :=
  MoveShapeCommand shapes dx dy
    (fold_left
       (fun m shape => <[shape := Vector.mk (Shape.x (h shape)) (Shape.y (h shape))]> m)
       shapes ∅).

Definition move_by (dx dy : Q) (h : heap) (shape : ref) : heap :=
  let s := h shape in
  let s := Shape.set_x (Shape.x s + dx) s in
  let s := Shape.set_y (Shape.y s + dy) s in
  upd h shape s.

Definition move_back (oldPositions : gmap ref Vector.t) (h : heap) (shape : ref) : heap :=
  match oldPositions !! shape with
  | Some oldPos =>
      upd h shape (Shape.set_y (Vector.y oldPos) (Shape.set_x (Vector.x oldPos) (h shape)))
  | None => h
  end.

(** [new ModifyShapeCommand(shapes, property, newValue)] records what each
    shape holds under [property]. *)
Definition newModifyShapeCommand (h : heap) (shapes : list ref) (property : string)
    (newValue : option JSON) : Command :=
  ModifyShapeCommand shapes property newValue
    (fold_left (fun m shape => <[shape := Shape.getProperty property (h shape)]> m) shapes ∅).

Definition modify (property : string) (newValue : option JSON) (h : heap) (shape : ref)
    : heap :=
  upd h shape (Shape.setProperty property newValue (h shape)).

Definition modify_back (property : string) (oldValues : gmap ref (option JSON))
    (h : heap) (shape : ref) : heap :=
  match oldValues !! shape with
  | Some oldValue => upd h shape (Shape.setProperty property oldValue (h shape))
  | None => h
  end.

Definition execute (M : MathLib) (c : Command) (w : World) : World :=
  match c with
  | AddShapeCommand shape =>
      mkWorld (wheap w) (Scene.add (wheap w) (wscene w) shape) (nextRef w)
  | RemoveShapeCommand shapesToRemove =>
      mkWorld (wheap w) (Scene.removeMany (wscene w) shapesToRemove) (nextRef w)
  | MoveShapeCommand shapes dx dy _ =>
      mkWorld (fold_left (move_by dx dy) shapes (wheap w)) (wscene w) (nextRef w)
  | ModifyShapeCommand shapes property newValue _ =>
      mkWorld (fold_left (modify property newValue) shapes (wheap w)) (wscene w) (nextRef w)
  | TransformCommand shapes _ afterStates =>
      mkWorld (TransformCommand.applyStates shapes afterStates (wheap w))
              (wscene w) (nextRef w)
  | RotateCommand this =>
      mkWorld (RotateCommand.execute M this (wheap w)) (wscene w) (nextRef w)
  | ScaleCommand this =>
      mkWorld (ScaleCommand.execute this (wheap w)) (wscene w) (nextRef w)
  end.

Definition undo (c : Command) (w : World) : World :=
  match c with
  | AddShapeCommand shape =>
      mkWorld (wheap w) (Scene.remove (wscene w) shape).1 (nextRef w)
  | RemoveShapeCommand shapesToRemove =>
      mkWorld (wheap w) (Scene.addMany (wheap w) (wscene w) shapesToRemove) (nextRef w)
  | MoveShapeCommand shapes _ _ oldPositions =>
      mkWorld (fold_left (move_back oldPositions) shapes (wheap w)) (wscene w) (nextRef w)
  | ModifyShapeCommand shapes property _ oldValues =>
      mkWorld (fold_left (modify_back property oldValues) shapes (wheap w))
              (wscene w) (nextRef w)
  | TransformCommand shapes beforeStates _ =>
      mkWorld (TransformCommand.applyStates shapes beforeStates (wheap w))
              (wscene w) (nextRef w)
  | RotateCommand this =>
      mkWorld (RotateCommand.undo this (wheap w)) (wscene w) (nextRef w)
  | ScaleCommand this =>
      mkWorld (ScaleCommand.undo this (wheap w)) (wscene w) (nextRef w)
  end.

(** [this.canMerge(other)]: only the move command overrides the base
    method, which answers [false]. *)
Definition canMerge (this other : Command) : bool :=
  match this, other with
  | MoveShapeCommand shapes _ _ _, MoveShapeCommand oshapes _ _ _ =>
      Nat.eqb (length oshapes) (length shapes) &&
      forallb (fun s => existsb (Nat.eqb s) shapes) oshapes
  | _, _ => false
  end.

(** [this.merge(other)]; the base method throws. *)
Definition merge (this other : Command) : option Command :=
  match this with
  | MoveShapeCommand shapes dx dy oldPositions =>
      match other with
      | MoveShapeCommand _ odx ody _ =>
          Some (MoveShapeCommand shapes (dx + odx) (dy + ody) oldPositions)
      | _ => Some this
      end
  | _ => None
  end.
End Command.

(** ** Command manager

    The stacks are arrays: the top is the last element. *)

Module CommandManager.
Record t := mk { undoStack : list Command; redoStack : list Command; maxHistory : Q }.

(** [options.maxHistory ?? 100] *)
Definition new (optMaxHistory : option Q) : t := mk [] [] (default 100 optMaxHistory).

Definition stack_length (l : list Command) : Q := inject_Z (Z.of_nat (length l)).

(** [push] then, when the stack is over [maxHistory], [shift]. *)
Definition push_bounded (maxHistory : Q) (l : list Command) (c : Command) : list Command :=
  let l := l ++ [c] in
  if negb (stack_length l <=? maxHistory) then tail l else l.

Definition execute (M : MathLib) (m : t) (command : Command) (w : World)
    : option (t * World) :=
  let w := Command.execute M command w in
  undoStack' ←
    match last (undoStack m) with
    | Some lastCommand =>
        if Command.canMerge command lastCommand then
          merged ← Command.merge lastCommand command;
          Some (removelast (undoStack m) ++ [merged])
        else Some (push_bounded (maxHistory m) (undoStack m) command)
    | None => Some (push_bounded (maxHistory m) (undoStack m) command)
    end;
  Some (mk undoStack' [] (maxHistory m), w).

Definition undo (m : t) (w : World) : t * World :=
  match last (undoStack m) with
  | Some command =>
      (mk (removelast (undoStack m)) (redoStack m ++ [command]) (maxHistory m),
       Command.undo command w)
  | None => (m, w)
  end.

Definition redo (M : MathLib) (m : t) (w : World) : t * World :=
  match last (redoStack m) with
  | Some command =>
      (mk (undoStack m ++ [command]) (removelast (redoStack m)) (maxHistory m),
       Command.execute M command w)
  | None => (m, w)
  end.

Definition canUndo (m : t) : bool := (0 <? length (undoStack m))%nat.
Definition canRedo (m : t) : bool := (0 <? length (redoStack m))%nat.
End CommandManager.

(** ** Editor view

    The part of the editor that maps between screen and world coordinates.
    [None] is the exception [invert] throws inside [updateViewMatrix]. *)

Module CONFIG.
Definition minZoom : Q := 1 # 10.
Definition maxZoom : Q := 10.
End CONFIG.

Module Editor.
Record t := mk {
  zoom : Q;
  pan : Vector.t;
  viewMatrix : Matrix.t;
  viewMatrixInverse : Matrix.t
}.

(** The fields as the constructor leaves them. *)
Definition new : t := mk 1 (Vector.mk 0 0) Matrix.identity Matrix.identity.

Definition updateViewMatrix (this : t) : option t :=
  let viewMatrix :=
    Matrix.scale
      (Matrix.translate Matrix.identity (Vector.x (pan this)) (Vector.y (pan this)))
      (zoom this) (zoom this) in
  inverse ← Matrix.invert viewMatrix;
  Some (mk (zoom this) (pan this) viewMatrix inverse).

Definition screenToWorld (this : t) (screenPoint : Vector.t) : Vector.t :=
  Matrix.transformPoint (viewMatrixInverse this) screenPoint.

Definition worldToScreen (this : t) (worldPoint : Vector.t) : Vector.t :=
  Matrix.transformPoint (viewMatrix this) worldPoint.

Definition zoomAt (this : t) (point : Vector.t) (scale : Q) : option t :=
  let newZoom := zoom this * scale in
  if negb (CONFIG.minZoom <=? newZoom) || negb (newZoom <=? CONFIG.maxZoom) then Some this
  else
    let dx := Vector.x point * (1 - scale) in
    let dy := Vector.y point * (1 - scale) in
    updateViewMatrix
      (mk newZoom (Vector.add (pan this) (Vector.mk dx dy))
          (viewMatrix this) (viewMatrixInverse this)).

Definition setZoom (this : t) (zoom : Q) : option t :=
  updateViewMatrix
    (mk (Qmax CONFIG.minZoom (Qmin CONFIG.maxZoom zoom)) (pan this)
        (viewMatrix this) (viewMatrixInverse this)).

Definition setPan (this : t) (x y : Q) : option t :=
  updateViewMatrix
    (mk (zoom this) (Vector.mk x y) (viewMatrix this) (viewMatrixInverse this)).
End Editor.

(** ** Collaboration hook (client side)

    [command.constructor.name] and the dynamic property reads the hook makes
    on a command object.  [RemoveShapeCommand] keeps its shapes in
    [shapesToRemove]; the other commands but [AddShapeCommand] keep them in
    [shapes], and [MoveShapeCommand] keeps [dx] and [dy]; no command has a
    [delta] property. *)

Module Collab.
Definition constructor_name (c : Command) : string :=
  match c with
  | AddShapeCommand _ => "AddShapeCommand"
  | RemoveShapeCommand _ => "RemoveShapeCommand"
  | MoveShapeCommand _ _ _ _ => "MoveShapeCommand"
  | ModifyShapeCommand _ _ _ _ => "ModifyShapeCommand"
  | TransformCommand _ _ _ => "TransformCommand"
  | RotateCommand _ => "RotateCommand"
  | ScaleCommand _ => "ScaleCommand"
  end.

(** [command.shape] *)
Definition prop_shape (c : Command) : option ref :=
  match c with
  | AddShapeCommand shape => Some shape
  | _ => None
  end.

(** [command.shapes] *)
Definition prop_shapes (c : Command) : option (list ref) :=
  match c with
  | MoveShapeCommand shapes _ _ _ => Some shapes
  | ModifyShapeCommand shapes _ _ _ => Some shapes
  | TransformCommand shapes _ _ => Some shapes
  | RotateCommand this => Some (RotateCommand.shapes this)
  | ScaleCommand this => Some (ScaleCommand.shapes this)
  | _ => None
  end.

(** [command.delta] *)
Definition prop_delta (c : Command) : option JSON := None.

Record Client := mk {
  manager : CommandManager.t;
  world : World;
  isReceivingRemoteChange : bool;
  wsOpen : bool;
  roomId : string;
  userId : string
}.

Definition with_world (w : World) (c : Client) : Client :=
  mk (manager c) w (isReceivingRemoteChange c) (wsOpen c) (roomId c) (userId c).

(** The payload built in [setupLocalChangeListener]. *)
Definition commandData (h : heap) (command : Command) : JSON :=
  let name := constructor_name command in
  match (if String.eqb name "AddShapeCommand" then prop_shape command else None) with
  | Some shape =>
      JObj [("type", JStr "add-shape"); ("shape", Shape.toJSON (h shape))]%string
  | None =>
      match (if String.eqb name "RemoveShapeCommand" then prop_shapes command else None) with
      | Some shapes =>
          JObj [("type", JStr "remove-shape");
                ("shapeIds", JArr (map (fun s => JStr (Shape.id (h s))) shapes))]%string
      | None =>
          if String.eqb name "MoveShapeCommand" then
            JObj ([("type", JStr "move-shape")]%string ++
                  Json.field_opt "shapeId"
                    (option_map (fun s => JStr (Shape.id (h s))) (prop_shape command)) ++
                  Json.field_opt "delta" (prop_delta command))
          else JObj [("type", JStr name)]%string
      end
  end.

Definition commandMessage (c : Client) (timestamp : Q) (payload : JSON) : JSON :=
  JObj [("type", JStr "command"); ("roomId", JStr (roomId c));
        ("userId", JStr (userId c)); ("timestamp", JNum timestamp);
        ("data", JObj [("operation", JObj [("command", payload)])])]%string.

(** The wrapped [commandManager.execute]: run the command, then send it
    unless a remote change is being applied or the socket is closed.
    The second component is what goes out on the socket. *)
Definition localExecute (M : MathLib) (timestamp : Q) (c : Client) (command : Command)
    : option (Client * list JSON) :=
  '(m, w) ← CommandManager.execute M (manager c) command (world c);
  let c' := mk m w (isReceivingRemoteChange c) (wsOpen c) (roomId c) (userId c) in
  if negb (isReceivingRemoteChange c) && wsOpen c
  then Some (c', [commandMessage c timestamp (commandData (wheap w) command)])
  else Some (c', []).

Definition findByJsonId (w : World) (id : JSON) : option ref :=
  match id with
  | JStr s => Scene.findById (wheap w) (wscene w) s
  | _ => None
  end.

Definition removeById (w : World) (id : JSON) : World :=
  match findByJsonId w id with
  | Some shape => mkWorld (wheap w) (Scene.remove (wscene w) shape).1 (nextRef w)
  | None => w
  end.

(** The body of the [switch] in [handleRemoteCommand].  An exception
    raised inside is caught and logged by the handler, leaving the editor
    as it was at that point.  A delta whose [x] or [y] is not a number is
    outside the number model and is left unapplied. *)
Definition applyRemote (uuid : string) (w : World) (cmd : JSON) : World :=
  match Json.get cmd "type" with
  | Some (JStr "add-shape") =>
      match Json.get cmd "shape" with
      | Some shapeJson =>
          if Json.truthy (Some shapeJson) then
            match createShapeFromJSON uuid shapeJson with
            | Some shape =>
                let r := nextRef w in
                let h := upd (wheap w) r shape in
                mkWorld h (Scene.add h (wscene w) r) (S r)
            | None => w
            end
          else w
      | None => w
      end
  | Some (JStr "remove-shape") | Some (JStr "delete-shape") =>
      if Json.truthy (Json.get cmd "shapeIds") then
        match Json.get cmd "shapeIds" with
        | Some (JArr ids) => fold_left removeById ids w
        | _ => w
        end
      else if Json.truthy (Json.get cmd "shapeId") then
        match Json.get cmd "shapeId" with
        | Some id => removeById w id
        | None => w
        end
      else w
  | Some (JStr "move-shape") =>
      if Json.truthy (Json.get cmd "shapeId") && Json.truthy (Json.get cmd "delta") then
        match Json.get cmd "shapeId", Json.get cmd "delta" with
        | Some id, Some delta =>
            match findByJsonId w id, Json.get delta "x", Json.get delta "y" with
            | Some shape, Some (JNum dx), Some (JNum dy) =>
                mkWorld (Command.move_by dx dy (wheap w) shape) (wscene w) (nextRef w)
            | _, _, _ => w
            end
        | _, _ => w
        end
      else w
  | _ => w
  end.

Definition handleRemoteCommand (uuid : string) (c : Client) (data : JSON) : Client :=
  if isReceivingRemoteChange c then c
  else
    match Json.get data "operation" with
    | Some operation =>
        match Json.get operation "command" with
        | Some cmd =>
            if Json.truthy (Some cmd) then with_world (applyRemote uuid (world c) cmd) c
            else c
        | None => c
        end
    | None => c
    end.

(** Delivery of a relayed [command] envelope: [handleRemoteCommand(message.data)]. *)
Definition onCommandMessage (uuid : string) (c : Client) (message : JSON) : Client :=
  match Json.get message "data" with
  | Some data => handleRemoteCommand uuid c data
  | None => c
  end.

(** One step of the [forEach] of the [init_sync] case: build the shape
    from [shapeData.data] and add it; an entry that cannot be built is
    logged and skipped.  [uuid r] is what [uuidv4()] returns for the object
    allocated at [r]. *)
Definition addFromData (uuid : ref -> string) (w : World) (shapeData : JSON) : World :=
  match Json.get shapeData "data" with
  | Some data =>
      match createShapeFromJSON (uuid (nextRef w)) data with
      | Some shape =>
          let r := nextRef w in
          let h := upd (wheap w) r shape in
          mkWorld h (Scene.add h (wscene w) r) (S r)
      | None => w
      end
  | None => w
  end.

(** The [init_sync] case of [onmessage].  A [shapes] value that is truthy
    but no array throws at [forEach], after the flag has been raised and
    before it is lowered; the handler's [catch] only logs. *)
Definition onInitSync (uuid : ref -> string) (c : Client) (message : JSON) : Client :=
  match Json.path message ["data"; "canvas"; "shapes"]%string with
  | Some shapes =>
      if Json.truthy (Some shapes) then
        match shapes with
        | JArr items =>
            mk (manager c) (fold_left (addFromData uuid) items (world c))
               false (wsOpen c) (roomId c) (userId c)
        | _ => mk (manager c) (world c) true (wsOpen c) (roomId c) (userId c)
        end
      else c
  | None => c
  end.

(** [ws.onmessage]: the [switch] on [message.type].  The [join] and
    [leave] cases only log, and whatever throws is caught and logged. *)
Definition onMessage (uuid : ref -> string) (c : Client) (message : JSON) : Client :=
  match Json.get message "type" with
  | Some (JStr "init_sync") => onInitSync uuid c message
  | Some (JStr "command") => onCommandMessage (uuid (nextRef (world c))) c message
  | _ => c
  end.
End Collab.

(** ** Persistence façade (server side)

    The room store and the operation log behind [RoomService].  Room
    timestamps are left out.  A call may fail at the store; [DbFaults] says
    which calls do while one message is handled. *)

Module Room.
Record t := mk {
  roomId : string;
  name : string;
  shapes : list JSON;
  users : list JSON;
  version : Q
}.

Definition create (roomId : string) : t := mk roomId "Untitled Room" [] [] 0.
End Room.

Module Operation.
Record t := mk { roomId : string; userId : string; type : option JSON; data : JSON }.

(** The [enum] of the operation schema. *)
Definition allowed_types : list string :=
  ["add-shape"; "update-shape"; "delete-shape"; "move-shape"; "resize-shape"; "rotate-shape"]%string.

(** Schema validation run by [save]: [type] is required and in the enum,
    and [roomId] is required, which a string meets unless it is empty. *)
Definition valid_type (type : option JSON) : bool :=
  match type with
  | Some (JStr s) => existsb (String.eqb s) allowed_types
  | _ => false
  end.

Definition valid_roomId (roomId : string) : bool := negb (String.eqb roomId "").
End Operation.

Record DB := mkDB { db_rooms : gmap string Room.t; db_operations : list Operation.t }.

Record DbFaults := mkFaults {
  addUser_throws : bool;
  getRoom_throws : bool;
  mutation_throws : bool;
  saveOperation_throws : bool
}.

Definition no_faults : DbFaults := mkFaults false false false false.

Definition is_Some_b {A : Type} (o : option A) : bool :=
  match o with
  | Some _ => true
  | None => false
  end.

Module RoomService.
Definition room_or_new (db : DB) (roomId : string) : Room.t :=
  default (Room.create roomId) (db_rooms db !! roomId).

Definition put (db : DB) (room : Room.t) : DB :=
  mkDB (<[Room.roomId room := room]> (db_rooms db)) (db_operations db).

(** [findOne], then [createRoom] when there is none. *)
Definition getRoom (db : DB) (roomId : string) : DB * Room.t :=
  match db_rooms db !! roomId with
  | Some room => (db, room)
  | None => (put db (Room.create roomId), Room.create roomId)
  end.

(** [$push] on [shapes], [$inc] on [version], with [upsert]. *)
Definition addShape (db : DB) (roomId : string) (entry : JSON) : DB :=
  let room := room_or_new db roomId in
  put db (Room.mk roomId (Room.name room) (Room.shapes room ++ [entry])
                  (Room.users room) (Room.version room + 1)).

Definition entry_has_id (shapeId : option JSON) (entry : JSON) : bool :=
  match shapeId, Json.get entry "id" with
  | Some (JStr a), Some (JStr b) => String.eqb a b
  | _, _ => false
  end.

Fixpoint set_first_data (shapeId : option JSON) (updates : JSON) (entries : list JSON)
    : list JSON :=
  match entries with
  | [] => []
  | entry :: rest =>
      if entry_has_id shapeId entry then
        JObj (Json.field_opt "id" (Json.get entry "id") ++
              Json.field_opt "type" (Json.get entry "type") ++
              [("data", updates)]%string) :: rest
      else entry :: set_first_data shapeId updates rest
  end.

(** [$set] on the first entry matching ['shapes.id'], no [upsert]. *)
Definition updateShape (db : DB) (roomId : string) (shapeId : option JSON) (updates : JSON)
    : DB :=
  match db_rooms db !! roomId with
  | Some room =>
      if existsb (entry_has_id shapeId) (Room.shapes room) then
        put db (Room.mk roomId (Room.name room)
                        (set_first_data shapeId updates (Room.shapes room))
                        (Room.users room) (Room.version room + 1))
      else db
  | None => db
  end.

(** [$pull] of the entries with that id, no [upsert]. *)
Definition deleteShape (db : DB) (roomId : string) (shapeId : option JSON) : DB :=
  match db_rooms db !! roomId with
  | Some room =>
      put db (Room.mk roomId (Room.name room)
                      (filter (fun entry => entry_has_id shapeId entry = false) (Room.shapes room))
                      (Room.users room) (Room.version room + 1))
  | None => db
  end.

(** [$addToSet] on [users] with [upsert]; the entry carries a fresh
    [joinedAt], so it is taken to differ from the stored ones. *)
Definition addUser (now : Q) (db : DB) (roomId : string) (user : JSON) : DB :=
  let room := room_or_new db roomId in
  let entry :=
    match user with
    | JObj fields => JObj (Json.set "joinedAt" (JNum now) fields)
    | _ => user
    end in
  put db (Room.mk roomId (Room.name room) (Room.shapes room)
                  (Room.users room ++ [entry]) (Room.version room)).

Definition entry_has_userId (userId : string) (entry : JSON) : bool :=
  match Json.get entry "userId" with
  | Some (JStr u) => String.eqb u userId
  | _ => false
  end.

(** [$pull] of the user entries with that [userId], no [upsert]. *)
Definition removeUser (db : DB) (roomId userId : string) : DB :=
  match db_rooms db !! roomId with
  | Some room =>
      put db (Room.mk roomId (Room.name room) (Room.shapes room)
                      (filter (fun entry => entry_has_userId userId entry = false)
                              (Room.users room))
                      (Room.version room))
  | None => db
  end.

(** [new Operation(..).save()]; [None] is the validation error. *)
Definition saveOperation (db : DB) (roomId userId : string) (type : option JSON) (data : JSON)
    : option DB :=
  if Operation.valid_roomId roomId && Operation.valid_type type
  then Some (mkDB (db_rooms db) (db_operations db ++ [Operation.mk roomId userId type data]))
  else None.
End RoomService.

(** ** Relay server *)

Definition conn := nat.

Module WebSocketService.
Record ClientInfo := mkInfo { userId : string; roomId : string; user : option JSON }.

(** [rooms] maps a room to its [Set] of sockets, kept in insertion order. *)
Record t := mk {
  clients : gmap conn ClientInfo;
  rooms : gmap string (list conn);
  db : DB;
  log : list string
}.

Definition set_add (ws : conn) (members : list conn) : list conn :=
  if existsb (Nat.eqb ws) members then members else members ++ [ws].

Definition members (st : t) (roomId : string) : list conn :=
  default [] (rooms st !! roomId).

Section WithSockets.
(** [ws.readyState] of every socket; [1] is OPEN. *)
Variable readyState : conn -> nat.

Definition send (ws : conn) (message : JSON) : list (conn * JSON) :=
  if Nat.eqb (readyState ws) 1 then [(ws, message)] else [].

Definition broadcast (st : t) (roomId : string) (message : JSON) (excludeWs : option conn)
    : list (conn * JSON) :=
  match rooms st !! roomId with
  | None => []
  | Some room =>
      map (fun client => (client, message))
          (filter (fun client => excludeWs ≠ Some client /\ readyState client = 1%nat) room)
  end.

(** [{ userId, ...userData }] *)
Definition user_entry (userId : string) (userData : option JSON) : JSON :=
  JObj (Json.spread [("userId", JStr userId)]%string
          match userData with
          | Some (JObj fields) => fields
          | _ => []
          end).

Definition other_users (st : t) (roomId : string) (ws : conn) : list JSON :=
  omap (fun client =>
          info ← clients st !! client;
          u ← user info;
          if Json.truthy (Some u) then Some u else None)
       (filter (fun client => client ≠ ws) (members st roomId)).

Definition init_sync (timestamp : Q) (users : list JSON) (room : Room.t) : JSON :=
  JObj [("type", JStr "init_sync"); ("timestamp", JNum timestamp);
        ("data", JObj [("users", JArr users);
                       ("canvas", JObj [("shapes", JArr (Room.shapes room));
                                        ("version", JNum (Room.version room))])])]%string.

Definition join_message (timestamp : Q) (userId : string) (userData : option JSON) : JSON :=
  JObj ([("type", JStr "join"); ("userId", JStr userId);
         ("timestamp", JNum timestamp)]%string ++ Json.field_opt "data" userData).

(** [handleJoin]: the registries are updated first; the sends are [None]
    when a persistence call throws, the handler being abandoned before
    anything is sent. *)
Definition handleJoin (f : DbFaults) (timestamp : Q) (st : t)
    (ws : conn) (roomId userId : string) (userData : option JSON)
    : t * option (list (conn * JSON)) :=
  let clients' := <[ws := mkInfo userId roomId userData]> (clients st) in
  let rooms' := <[roomId := set_add ws (members st roomId)]> (rooms st) in
  if addUser_throws f then (mk clients' rooms' (db st) (log st), None)
  else
    let db1 := RoomService.addUser timestamp (db st) roomId (user_entry userId userData) in
    if getRoom_throws f then (mk clients' rooms' db1 (log st), None)
    else
      let '(db2, room) := RoomService.getRoom db1 roomId in
      let st' := mk clients' rooms' db2 (log st) in
      let users := other_users st' roomId ws in
      (st',
       Some (send ws (init_sync timestamp users room) ++
             broadcast st' roomId (join_message timestamp userId userData) (Some ws))).

(** The [RoomService] call the [switch] of [handleCommand] makes, if any. *)
Definition mutation (roomId : string) (cmd : JSON) : option (DB -> DB) :=
  match Json.get cmd "type" with
  | Some (JStr "add-shape") =>
      match Json.get cmd "shape" with
      | Some shape =>
          if Json.truthy (Some shape) then
            Some (fun db =>
                    RoomService.addShape db roomId
                      (JObj (Json.field_opt "id" (Json.get shape "id") ++
                             Json.field_opt "type" (Json.get shape "type") ++
                             [("data", shape)]%string)))
          else None
      | None => None
      end
  | Some (JStr "delete-shape") | Some (JStr "remove-shape") =>
      Some (fun db => RoomService.deleteShape db roomId (Json.get cmd "shapeId"))
  | Some (JStr "update-shape") | Some (JStr "move-shape")
  | Some (JStr "resize-shape") | Some (JStr "rotate-shape") =>
      Some (fun db => RoomService.updateShape db roomId (Json.get cmd "shapeId") cmd)
  | _ => None
  end.

(** The [try] block of [handleCommand]: the store it leaves behind and
    whether it threw. *)
Definition persist (f : DbFaults) (db : DB) (roomId userId : string) (cmd : JSON)
    : DB * bool :=
  let call := mutation roomId cmd in
  if is_Some_b call && mutation_throws f then (db, true)
  else
    let db1 := match call with Some mutate => mutate db | None => db end in
    if saveOperation_throws f then (db1, true)
    else
      match RoomService.saveOperation db1 roomId userId (Json.get cmd "type") cmd with
      | Some db2 => (db2, false)
      | None => (db1, true)
      end.

Definition command_envelope (timestamp : Q) (userId : string) (commandData : JSON) : JSON :=
  JObj [("type", JStr "command"); ("userId", JStr userId);
        ("timestamp", JNum timestamp); ("data", commandData)]%string.

Definition handleCommand (f : DbFaults) (timestamp : Q) (st : t)
    (ws : conn) (roomId userId : string) (commandData : JSON)
    : t * list (conn * JSON) :=
  match Json.get commandData "operation" with
  | Some operation =>
      match Json.get operation "command" with
      | Some cmd =>
          if Json.truthy (Some cmd) then
            let '(db', threw) := persist f (db st) roomId userId cmd in
            let log' := if threw then log st ++ ["[WS] Command error"]%string else log st in
            (mk (clients st) (rooms st) db' log',
             broadcast st roomId (command_envelope timestamp userId commandData) None)
          else (mk (clients st) (rooms st) (db st) (log st ++ ["[WS] No command in operation"]%string), [])
      | None => (mk (clients st) (rooms st) (db st) (log st ++ ["[WS] No command in operation"]%string), [])
      end
  | None => (mk (clients st) (rooms st) (db st) (log st ++ ["[WS] No command in operation"]%string), [])
  end.

Definition leave_message (timestamp : Q) (userId : string) : JSON :=
  JObj [("type", JStr "leave"); ("userId", JStr userId);
        ("timestamp", JNum timestamp)]%string.

(** [this.rooms.get(roomId).delete(ws)], and the room with it once it is
    empty. *)
Definition leave_room (st : t) (ws : conn) (roomId : string) : gmap string (list conn) :=
  match rooms st !! roomId with
  | Some room =>
      let room := filter (fun client => client ≠ ws) room in
      if Nat.eqb (length room) 0 then delete roomId (rooms st)
      else <[roomId := room]> (rooms st)
  | None => rooms st
  end.

(** [handleLeave]: the room registry is updated first; when the store
    throws at [removeUser] the handler is abandoned there, before the notice
    is sent and before the client record is dropped. *)
Definition handleLeave (removeUser_throws : bool) (timestamp : Q) (st : t)
    (ws : conn) (roomId userId : string) : t * option (list (conn * JSON)) :=
  let rooms' := leave_room st ws roomId in
  if removeUser_throws then (mk (clients st) rooms' (db st) (log st), None)
  else
    let db' := RoomService.removeUser (db st) roomId userId in
    let st' := mk (clients st) rooms' db' (log st) in
    (mk (delete ws (clients st)) rooms' db' (log st),
     Some (broadcast st' roomId (leave_message timestamp userId) None)).

Definition handleDisconnect (removeUser_throws : bool) (timestamp : Q) (st : t) (ws : conn)
    : t * option (list (conn * JSON)) :=
  match clients st !! ws with
  | Some client => handleLeave removeUser_throws timestamp st ws (roomId client) (userId client)
  | None => (st, Some [])
  end.

(** The [cursor], [selection], [lock] and [unlock] cases of
    [handleMessage]: the message goes to the others as it came. *)
Definition passThrough (st : t) (ws : conn) (roomId : string) (message : JSON)
    : list (conn * JSON) :=
  broadcast st roomId message (Some ws).
End WithSockets.
End WebSocketService.

(** ** Scenarios

    The situations the properties below speak about. *)




(** Where a shape is, and the same shape put elsewhere. *)
Definition position (s : Shape.t) : Vector.t := Vector.mk (Shape.x s) (Shape.y s).

Definition placed_at (p : Vector.t) (s : Shape.t) : Shape.t :=
  Shape.set_y (Vector.y p) (Shape.set_x (Vector.x p) s).

(** [h'] differs from [h] at most in the positions of [shapes]. *)
Definition moved_only (shapes : list ref) (h h' : heap) : Prop :=
  forall r, h' r = placed_at (position (h' r)) (h r) /\ (r ∉ shapes -> h' r = h r).


(** The managers an editor can get to from [new CommandManager(options)]. *)
Inductive reachable (options : option Q) : CommandManager.t -> Prop :=
| reach_new : reachable options (CommandManager.new options)
| reach_execute M m command w m' w' :
    reachable options m ->
    CommandManager.execute M m command w = Some (m', w') ->
    reachable options m'
| reach_undo m w :
    reachable options m -> reachable options (CommandManager.undo m w).1
| reach_redo M m w :
    reachable options m -> reachable options (CommandManager.redo M m w).1.

(** Both stacks together hold no more than [maxHistory] commands. *)
Definition within_capacity (m : CommandManager.t) : Prop :=
  CommandManager.stack_length (CommandManager.undoStack m) +
  CommandManager.stack_length (CommandManager.redoStack m)
  <= CommandManager.maxHistory m.

(** [execute(cmd); undo()] *)
Definition execute_then_undo (M : MathLib) (m : CommandManager.t) (command : Command)
    (w : World) : option (CommandManager.t * World) :=
  '(m', w') ← CommandManager.execute M m command w;
  Some (CommandManager.undo m' w').

(** The shape list is in paint order already. *)
Fixpoint is_sorted (h : heap) (l : list ref) : bool :=
  match l with
  | a :: (b :: _) as rest => (Shape.zIndex (h a) <=? Shape.zIndex (h b)) && is_sorted h rest
  | _ => true
  end.

(** A snapshot that defines every optional field another one sets. *)
Definition state_covers (before after : TransformCommand.ShapeState) : Prop :=
  (is_Some (TransformCommand.width after) -> is_Some (TransformCommand.width before)) /\
  (is_Some (TransformCommand.height after) -> is_Some (TransformCommand.height before)) /\
  (is_Some (TransformCommand.rotation after) -> is_Some (TransformCommand.rotation before)) /\
  (is_Some (TransformCommand.scaleX after) -> is_Some (TransformCommand.scaleX before)) /\
  (is_Some (TransformCommand.scaleY after) -> is_Some (TransformCommand.scaleY before)).

(** What each command class takes for granted about the state it is built
    for: the shape to add is not in the scene, whose list is in paint order
    when the scene sorts itself; the shapes to remove are distinct members of
    the scene; a move, modify, rotate or scale command has been built in this
    very state; the before-states handed to a transform command hold what its
    shapes hold now and define every field the after-states set. *)
Definition well_built (command : Command) (w : World) : Prop :=
  match command with
  | AddShapeCommand shape =>
      (shape ∉ Scene.shapes (wscene w)) /\
      (Scene.autoSort (wscene w) = true ->
       is_sorted (wheap w) (Scene.shapes (wscene w)) = true)
  | RemoveShapeCommand shapesToRemove =>
      NoDup shapesToRemove /\
      (forall shape, shape ∈ shapesToRemove -> shape ∈ Scene.shapes (wscene w))
  | MoveShapeCommand shapes dx dy oldPositions =>
      command = Command.newMoveShapeCommand (wheap w) shapes dx dy
  | ModifyShapeCommand shapes property newValue oldValues =>
      command = Command.newModifyShapeCommand (wheap w) shapes property newValue
  | TransformCommand shapes beforeStates afterStates =>
      forall shape, shape ∈ shapes ->
        (forall before, beforeStates !! shape = Some before ->
           TransformCommand.applyState before (wheap w shape) = wheap w shape) /\
        (forall after, afterStates !! shape = Some after ->
           exists before, beforeStates !! shape = Some before /\ state_covers before after)
  | RotateCommand this =>
      this = RotateCommand.new (wheap w) (RotateCommand.shapes this)
                               (RotateCommand.angle this) (RotateCommand.pivot this)
  | ScaleCommand this =>
      this = ScaleCommand.new (wheap w) (ScaleCommand.shapes this)
                              (ScaleCommand.scaleX this) (ScaleCommand.scaleY this)
                              (ScaleCommand.pivot this)
  end.

Definition is_remove (command : Command) : bool :=
  match command with
  | RemoveShapeCommand _ => true
  | _ => false
  end.

Module Scenario.
(** Rational stand-ins for [Math.cos] and [Math.sin]: exact at the angle
    [0], the only rotation the scenarios use. *)
Definition trig : MathLib :=
  {| Math_cos := fun a => 1 - a * a / 2; Math_sin := fun a => a |}.


(** [new Rect({id, x, y, width, height})] *)
Definition rect (id : string) (x y width height : Q) : Shape.t :=
  Shape.mk id "Rectangle" x y 0 1 1 true false 0 (RectGeom width height 0).

(** Shape 0 is a 20 by 20 rectangle centred at (100, 100). *)
Definition far_heap : heap := fun _ => rect "r1" 100 100 20 20.

Definition indexed_scene : Scene.t :=
  Scene.add far_heap (Scene.new None (Some true) None) 0%nat.

Definition plain_scene : Scene.t :=
  Scene.add far_heap (Scene.new None None None) 0%nat.

(** Shapes 0 and 1 are 20 by 20 rectangles centred at the origin, where
    local and world coordinates agree. *)
Definition origin_heap : heap :=
  fun r => match r with
           | O => rect "r1" 0 0 20 20
           | _ => rect "r2" 0 0 20 20
           end.

(** What the quadtree of an indexed scene returns for a point, after the
    lazy rebuild. *)
Definition candidates (h : heap) (s : Scene.t) (p : Vector.t) : list ref :=
  match Scene.quadTree (Scene.rebuildQuadTreeIfNeeded h s) with
  | Some q => QuadTree.queryPoint h q p
  | None => []
  end.

(** An indexed scene holding shape 0, queried once: its index is built
    and clean. *)
Definition queried_scene : Scene.t :=
  (Scene.findInBounds origin_heap
     (Scene.add origin_heap (Scene.new None (Some true) None) 0%nat)
     (AABB.mk (- (1)) (- (1)) 1 1)).1.


(** Shape [r] is a rectangle at the origin with the z-index [r]. *)
Definition layered_heap : heap :=
  fun r => Shape.mk "r" "Rectangle" 0 0 0 1 1 true false (inject_Z (Z.of_nat r))
                    (RectGeom 20 20 0).

(** A scene that sorts itself and holds the shapes 1 and 3. *)
Definition layered_scene : Scene.t := Scene.mk [1%nat; 3%nat] true None false true.

(** Two shapes with the default z-index, in a scene that sorts itself. *)
Definition two_shapes : World :=
  mkWorld origin_heap
          (Scene.add origin_heap (Scene.add origin_heap (Scene.new None None None) 0%nat) 1%nat)
          2%nat.

(** Clients A and B of one room both hold the shape "s1" at (0, 0);
    A also owns a rectangle "s2", not yet in its scene. *)
Definition shared_heap : heap :=
  fun r => match r with
           | O => rect "s1" 0 0 20 20
           | _ => rect "s2" 100 100 200 150
           end.

Definition shared_world : World :=
  mkWorld shared_heap (Scene.add shared_heap (Scene.new None None None) 0%nat) 2%nat.

Definition clientA : Collab.Client :=
  Collab.mk (CommandManager.new None) shared_world false true "room" "A".

Definition clientB : Collab.Client :=
  Collab.mk (CommandManager.new None) shared_world false true "room" "B".

(** The relay: sockets 1 (A) and 2 (B) are open and joined to "room". *)
Definition all_open : conn -> nat := fun _ => 1%nat.

Definition relay : WebSocketService.t :=
  WebSocketService.mk
    (<[1%nat := WebSocketService.mkInfo "A" "room" None]>
       (<[2%nat := WebSocketService.mkInfo "B" "room" None]> ∅))
    (<["room"%string := [1%nat; 2%nat]]> ∅)
    (mkDB ∅ []) [].

(** The same relay over a store whose record of "room" holds one shape. *)
Definition stored_room : Room.t :=
  Room.mk "room" "Untitled Room"
    [JObj [("id", JStr "s1"); ("type", JStr "Rect");
           ("data", Shape.toJSON (rect "s1" 100 100 200 150))]%string]
    [] 1.

Definition relay_with_room : WebSocketService.t :=
  WebSocketService.mk (WebSocketService.clients relay) (WebSocketService.rooms relay)
    (mkDB (<["room"%string := stored_room]> ∅) []) [].

(** The user data a client sends when it joins. *)
Definition user_data (name color : string) : JSON :=
  JObj [("name", JStr name); ("color", JStr color)]%string.

(** The relay again, where A and B joined "room" with their user data and
    the store holds the record of "room". *)
Definition relay_with_users : WebSocketService.t :=
  WebSocketService.mk
    (<[1%nat := WebSocketService.mkInfo "A" "room" (Some (user_data "User-A" "#aa0000"))]>
       (<[2%nat := WebSocketService.mkInfo "B" "room" (Some (user_data "User-B" "#00bb00"))]> ∅))
    (<["room"%string := [1%nat; 2%nat]]> ∅)
    (mkDB (<["room"%string := stored_room]> ∅) []) [].

(** The [data] of a command message that adds the rectangle "s2". *)
Definition add_s2 : JSON :=
  JObj [("operation",
         JObj [("command",
                JObj [("type", JStr "add-shape");
                      ("shape", Shape.toJSON (rect "s2" 0 0 20 20))])])]%string.

(** The store refuses the mutation. *)
Definition store_down : DbFaults := mkFaults false false true false.

(** What B's socket receives when A's socket sends [message]. *)
Definition delivered_to_B (message : JSON) : list JSON :=
  match Json.get message "data" with
  | Some data =>
      omap (fun '(c, msg) => if Nat.eqb c 2 then Some msg else None)
           (WebSocketService.handleCommand all_open no_faults 0 relay 1%nat "room" "A" data).2
  | None => []
  end.

(** A executes [command] locally; B handles whatever the relay delivers. *)
Definition propagate (command : Command) : option (Collab.Client * Collab.Client) :=
  '(a, sent) ← Collab.localExecute trig 0 clientA command;
  Some (a, fold_left (Collab.onCommandMessage "fresh")
                     (concat (map delivered_to_B sent)) clientB).

Definition position_of (c : Collab.Client) (id : string) : option (Q * Q) :=
  option_map (fun r => (Shape.x (wheap (Collab.world c) r), Shape.y (wheap (Collab.world c) r)))
             (Scene.findById (wheap (Collab.world c)) (wscene (Collab.world c)) id).
End Scenario.

(** ** Auxiliary descriptions

    Shorthands for the statements of the second part.  First, what a rotate
    or scale command does to one shape, given the snapshot it took of it. *)

Definition rotated (M : MathLib) (angle : Q) (pivot : Vector.t)
    (st : RotateCommand.state) (s : Shape.t) : Shape.t :=
  let radians := angle * (Math_PI / 180) in
  let relX := RotateCommand.x st - Vector.x pivot in
  let relY := RotateCommand.y st - Vector.y pivot in
  Shape.set_rotation (RotateCommand.rotation st + angle)
    (Shape.set_y (Vector.y pivot + relX * Math_sin M radians + relY * Math_cos M radians)
       (Shape.set_x (Vector.x pivot + relX * Math_cos M radians - relY * Math_sin M radians)
          s)).

Definition unrotated (st : RotateCommand.state) (s : Shape.t) : Shape.t :=
  Shape.set_rotation (RotateCommand.rotation st)
    (Shape.set_y (RotateCommand.y st) (Shape.set_x (RotateCommand.x st) s)).

Definition rotate_snapshot (h : heap) (shape : ref) : RotateCommand.state :=
  RotateCommand.mkState shape (Shape.x (h shape)) (Shape.y (h shape))
                        (Shape.rotation (h shape)).

Definition scaled (scaleX scaleY : Q) (pivot : Vector.t)
    (st : ScaleCommand.state) (s : Shape.t) : Shape.t :=
  let relX := ScaleCommand.x st - Vector.x pivot in
  let relY := ScaleCommand.y st - Vector.y pivot in
  ScaleCommand.set_size (ScaleCommand.width st * scaleX) (ScaleCommand.height st * scaleY)
    (Shape.set_y (Vector.y pivot + relY * scaleY)
       (Shape.set_x (Vector.x pivot + relX * scaleX) s)).

Definition unscaled (st : ScaleCommand.state) (s : Shape.t) : Shape.t :=
  ScaleCommand.set_size (ScaleCommand.width st) (ScaleCommand.height st)
    (Shape.set_y (ScaleCommand.y st) (Shape.set_x (ScaleCommand.x st) s)).

Definition scale_snapshot (h : heap) (shape : ref) : ScaleCommand.state :=
  ScaleCommand.mkState shape (Shape.x (h shape)) (Shape.y (h shape))
                       (ScaleCommand.width_or_0 (h shape))
                       (ScaleCommand.height_or_0 (h shape)).

(** What a shape is once it has been through [toJSON] and the factory. *)
Definition rebuilt (uuid : string) (s : Shape.t) : Shape.t :=
  Shape.mk (if String.eqb (Shape.id s) "" then uuid else Shape.id s)
           (Shape.name s) (Shape.x s) (Shape.y s)
           (Shape.rotation s) (Shape.scaleX s) (Shape.scaleY s)
           true false 0 (Shape.geom s).

(** The world after [scene.add] of a freshly allocated shape. *)
Definition with_new_shape (w : World) (s : Shape.t) : World :=
  let r := nextRef w in
  let h := upd (wheap w) r s in
  mkWorld h (Scene.add h (wscene w) r) (S r).

(** The command data a client sends for [payload]. *)
Definition operation_of (payload : JSON) : JSON :=
  JObj [("operation", JObj [("command", payload)])]%string.

(** The payload of an add command for [s], and the room entry the relay
    stores for it. *)
Definition add_payload (s : Shape.t) : JSON :=
  JObj [("type", JStr "add-shape"); ("shape", Shape.toJSON s)]%string.

Definition stored_entry (s : Shape.t) : JSON :=
  JObj (Json.field_opt "id" (Json.get (Shape.toJSON s) "id") ++
        Json.field_opt "type" (Json.get (Shape.toJSON s) "type") ++
        [("data", Shape.toJSON s)]%string).

(** The command types the relay persists with [updateShape]. *)
Definition update_types : list string :=
  ["update-shape"; "move-shape"; "resize-shape"; "rotate-shape"]%string.

(** The zoom is within the configured bounds. *)
Definition zoom_in_range (e : Editor.t) : Prop :=
  CONFIG.minZoom <= Editor.zoom e <= CONFIG.maxZoom.

(** * Properties *)

(** ** Bounding boxes *)

Lemma Qle_bool_true (a b : Q) : (a <=? b) = true <-> a <= b.
Proof. apply Qle_bool_iff. Qed.

Lemma Qle_bool_false (a b : Q) : (a <=? b) = false <-> b < a.
Proof.
  rewrite <- not_true_iff_false, Qle_bool_iff. split; intro H.
  - apply Qnot_le_lt, H.
  - apply Qlt_not_le, H.
Qed.

Lemma intersects_spec (a b : AABB.t) :
  AABB.intersects a b = true <->
  AABB.minX a <= AABB.maxX b /\ AABB.minX b <= AABB.maxX a /\
  AABB.minY a <= AABB.maxY b /\ AABB.minY b <= AABB.maxY a.
Proof.
  unfold AABB.intersects. rewrite !andb_true_iff, !Qle_bool_true. tauto.
Qed.

Lemma containsPoint_spec (a : AABB.t) (p : Vector.t) :
  AABB.containsPoint a p = true <->
  AABB.minX a <= Vector.x p /\ Vector.x p <= AABB.maxX a /\
  AABB.minY a <= Vector.y p /\ Vector.y p <= AABB.maxY a.
Proof.
  unfold AABB.containsPoint. rewrite !andb_true_iff, !Qle_bool_true. tauto.
Qed.

Lemma intersects_sym (a b : AABB.t) : AABB.intersects a b = AABB.intersects b a.
Proof.
  apply eq_true_iff_eq. rewrite !intersects_spec. tauto.
Qed.

Lemma intersects_refl_iff (a : AABB.t) : AABB.intersects a a = true <-> AABB.ordered a.
Proof.
  rewrite intersects_spec. unfold AABB.ordered. tauto.
Qed.

(** C8, as stated, fails: an inverted box does not intersect itself. *)
Lemma C8_inverted_box_not_reflexive :
  AABB.intersects (AABB.mk 1 0 0 1) (AABB.mk 1 0 0 1) = false.
Proof. reflexivity. Qed.

(** C8 (amended): [intersects] is symmetric for every pair of boxes,
    degenerate and inverted ones included; a box intersects itself exactly
    when it is not inverted (a degenerate box does); and two non-inverted
    boxes that touch along a vertical or a horizontal edge, their extents
    along that edge overlapping, intersect. *)
Theorem C8_intersects_symmetric_reflexive_touching (a b : AABB.t) :
  AABB.intersects a b = AABB.intersects b a /\
  (AABB.intersects a a = true <-> AABB.ordered a) /\
  (AABB.ordered a -> AABB.ordered b ->
   (AABB.maxX a == AABB.minX b /\
    AABB.minY a <= AABB.maxY b /\ AABB.minY b <= AABB.maxY a) \/
   (AABB.maxY a == AABB.minY b /\
    AABB.minX a <= AABB.maxX b /\ AABB.minX b <= AABB.maxX a) ->
   AABB.intersects a b = true).
Proof.
  split; [apply intersects_sym|]. split; [apply intersects_refl_iff|].
  unfold AABB.ordered. intros [Hax Hay] [Hbx Hby] Htouch.
  apply intersects_spec. destruct Htouch as [[He [H1 H2]]|[He [H1 H2]]]; lra.
Qed.

(** The boxes of the unit test: [0,10]x[0,10] and [10,20]x[0,10] share
    the edge x = 10. *)
Lemma C8_touching_witness :
  AABB.intersects (AABB.mk 0 0 10 10) (AABB.mk 10 0 20 10) = true.
Proof.
  apply (C8_intersects_symmetric_reflexive_touching
           (AABB.mk 0 0 10 10) (AABB.mk 10 0 20 10)).
  - unfold AABB.ordered; simpl; lra.
  - unfold AABB.ordered; simpl; lra.
  - left; simpl; lra.
Defined.

(** ** Command manager *)

Lemma merge_defined_when_canMerge (command lastCommand : Command) :
  Command.canMerge command lastCommand = true ->
  exists merged, Command.merge lastCommand command = Some merged.
Proof.
  destruct command, lastCommand; simpl; try discriminate; eauto.
Qed.

Lemma stack_length_snoc_over (l : list Command) (c : Command) (maxHistory : Q) :
  CommandManager.stack_length l == maxHistory ->
  (CommandManager.stack_length (l ++ [c]) <=? maxHistory) = false.
Proof.
  unfold CommandManager.stack_length. intros H.
  apply Qle_bool_false. rewrite <- H, <- Zlt_Qlt, length_app. simpl. lia.
Qed.

Lemma stack_length_snoc_within (l : list Command) (c : Command) (maxHistory : Q) :
  CommandManager.stack_length l + 1 <= maxHistory ->
  (CommandManager.stack_length (l ++ [c]) <=? maxHistory) = true.
Proof.
  unfold CommandManager.stack_length. intros H.
  apply Qle_bool_true. eapply Qle_trans; [|exact H].
  rewrite length_app. simpl.
  replace (Z.of_nat (length l + 1)) with (Z.of_nat (length l) + 1)%Z by lia.
  rewrite inject_Z_plus. apply Qle_refl.
Qed.

Lemma push_bounded_full (l : list Command) (c : Command) (maxHistory : Q) :
  CommandManager.stack_length l == maxHistory ->
  CommandManager.push_bounded maxHistory l c = tail (l ++ [c]).
Proof.
  intros H. unfold CommandManager.push_bounded.
  now rewrite stack_length_snoc_over.
Qed.

(** When the incoming command does not merge, [execute] pushes it. *)
Lemma execute_push (M : MathLib) (m : CommandManager.t) (command : Command) (w : World) :
  (forall lastCommand, last (CommandManager.undoStack m) = Some lastCommand ->
                       Command.canMerge command lastCommand = false) ->
  CommandManager.execute M m command w =
  Some (CommandManager.mk
          (CommandManager.push_bounded (CommandManager.maxHistory m)
                                       (CommandManager.undoStack m) command)
          [] (CommandManager.maxHistory m),
        Command.execute M command w).
Proof.
  intros Hno. unfold CommandManager.execute.
  destruct (last (CommandManager.undoStack m)) as [lc|] eqn:Hlast; simpl.
  - rewrite (Hno lc eq_refl). reflexivity.
  - reflexivity.
Qed.

(** When it merges, the top entry is replaced by the merged command. *)
Lemma execute_merge (M : MathLib) (m : CommandManager.t)
    (command lastCommand merged : Command) (w : World) :
  last (CommandManager.undoStack m) = Some lastCommand ->
  Command.canMerge command lastCommand = true ->
  Command.merge lastCommand command = Some merged ->
  CommandManager.execute M m command w =
  Some (CommandManager.mk (removelast (CommandManager.undoStack m) ++ [merged])
                          [] (CommandManager.maxHistory m),
        Command.execute M command w).
Proof.
  intros Hlast Hcan Hmerge. unfold CommandManager.execute.
  rewrite Hlast. simpl. rewrite Hcan, Hmerge. reflexivity.
Qed.

Lemma last_Some_snoc {A : Type} (l : list A) (x : A) :
  last l = Some x -> l = removelast l ++ [x].
Proof.
  induction l as [|a l IH]; [discriminate|].
  destruct l as [|b l'].
  - simpl. now intros [= ->].
  - intros H. change (removelast (a :: b :: l')) with (a :: removelast (b :: l')).
    simpl. f_equal. apply IH, H.
Qed.

Lemma stack_length_snoc (l : list Command) (c : Command) :
  CommandManager.stack_length (l ++ [c]) == CommandManager.stack_length l + 1.
Proof.
  unfold CommandManager.stack_length. rewrite length_app. simpl.
  replace (Z.of_nat (length l + 1)) with (Z.of_nat (length l) + 1)%Z by lia.
  rewrite inject_Z_plus. reflexivity.
Qed.

Lemma stack_length_nonneg (l : list Command) : 0 <= CommandManager.stack_length l.
Proof.
  unfold CommandManager.stack_length. change 0 with (inject_Z 0).
  rewrite <- Zle_Qle. lia.
Qed.

Lemma stack_length_tail_snoc (l : list Command) (c : Command) :
  CommandManager.stack_length (tail (l ++ [c])) == CommandManager.stack_length l.
Proof.
  unfold CommandManager.stack_length. destruct l as [|a l]; simpl; [reflexivity|].
  rewrite length_app. simpl.
  replace (Z.of_nat (length l + 1)) with (Z.pos (Pos.of_succ_nat (length l))) by lia.
  reflexivity.
Qed.

Lemma stack_length_removelast (l : list Command) (c : Command) :
  last l = Some c ->
  CommandManager.stack_length l == CommandManager.stack_length (removelast l) + 1.
Proof.
  intros H. rewrite (last_Some_snoc _ _ H) at 1. apply stack_length_snoc.
Qed.

Lemma push_bounded_within (maxHistory : Q) (l : list Command) (c : Command) :
  CommandManager.stack_length l <= maxHistory ->
  CommandManager.stack_length (CommandManager.push_bounded maxHistory l c) <= maxHistory.
Proof.
  intros H. unfold CommandManager.push_bounded.
  destruct (CommandManager.stack_length (l ++ [c]) <=? maxHistory) eqn:Hle; simpl.
  - now apply Qle_bool_true.
  - now rewrite stack_length_tail_snoc.
Qed.

(** Starting from an empty history with a capacity that is not negative,
    the two stacks together never hold more than [maxHistory] commands. *)
Lemma reachable_within_capacity (options : option Q) (m : CommandManager.t) :
  0 <= default 100 options ->
  reachable options m ->
  CommandManager.maxHistory m = default 100 options /\ within_capacity m.
Proof.
  intros Hcap Hreach. unfold within_capacity.
  induction Hreach as [|M m command w m' w' _ [Hmax IH] Hrun|m w _ [Hmax IH]|M m w _ [Hmax IH]].
  - split; [reflexivity|]. simpl.
    change (CommandManager.stack_length []) with 0. lra.
  - pose proof (stack_length_nonneg (CommandManager.redoStack m)) as Hredo.
    assert (Hundo : CommandManager.stack_length (CommandManager.undoStack m)
                    <= CommandManager.maxHistory m) by lra.
    destruct (last (CommandManager.undoStack m)) as [lc|] eqn:Hlast;
      [destruct (Command.canMerge command lc) eqn:Hcan|].
    + destruct (merge_defined_when_canMerge _ _ Hcan) as [merged Hmerged].
      rewrite (execute_merge M m command lc merged w Hlast Hcan Hmerged) in Hrun.
      injection Hrun as <- _. simpl. split; [exact Hmax|].
      rewrite stack_length_snoc, <- (stack_length_removelast _ _ Hlast).
      change (CommandManager.stack_length []) with 0. lra.
    + rewrite execute_push in Hrun by congruence.
      injection Hrun as <- _. simpl. split; [exact Hmax|].
      pose proof (push_bounded_within _ _ command Hundo).
      change (CommandManager.stack_length []) with 0. lra.
    + rewrite execute_push in Hrun by congruence.
      injection Hrun as <- _. simpl. split; [exact Hmax|].
      pose proof (push_bounded_within _ _ command Hundo).
      change (CommandManager.stack_length []) with 0. lra.
  - unfold CommandManager.undo.
    destruct (last (CommandManager.undoStack m)) as [c|] eqn:Hlast; simpl; [|tauto].
    split; [exact Hmax|].
    rewrite stack_length_snoc. rewrite (stack_length_removelast _ _ Hlast) in IH. lra.
  - unfold CommandManager.redo.
    destruct (last (CommandManager.redoStack m)) as [c|] eqn:Hlast; simpl; [|tauto].
    split; [exact Hmax|].
    rewrite stack_length_snoc. rewrite (stack_length_removelast _ _ Hlast) in IH. lra.
Qed.

(** C6: the capacity is 100 unless configured, and the undo stack of a
    manager never holds more entries than it; when the stack holds exactly
    that many and the executed command does not merge with the top entry, the
    command is pushed and the oldest entry alone is evicted, the others
    keeping their order. *)
Theorem C6_full_stack_evicts_oldest (M : MathLib)
    (m : CommandManager.t) (command : Command) (w : World)
    (Hfull : CommandManager.stack_length (CommandManager.undoStack m)
             == CommandManager.maxHistory m)
    (Hnomerge : forall lastCommand,
        last (CommandManager.undoStack m) = Some lastCommand ->
        Command.canMerge command lastCommand = false) :
  CommandManager.maxHistory (CommandManager.new None) = 100 /\
  (forall options m0,
      0 <= default 100 options -> reachable options m0 ->
      CommandManager.stack_length (CommandManager.undoStack m0)
      <= CommandManager.maxHistory m0) /\
  exists m' w',
    CommandManager.execute M m command w = Some (m', w') /\
    CommandManager.undoStack m' = tail (CommandManager.undoStack m ++ [command]) /\
    (CommandManager.undoStack m <> [] ->
     CommandManager.undoStack m' = tail (CommandManager.undoStack m) ++ [command]) /\
    length (CommandManager.undoStack m') = length (CommandManager.undoStack m).
Proof.
  split; [reflexivity|]. split.
  { intros options m0 Hcap Hreach.
    destruct (reachable_within_capacity options m0 Hcap Hreach) as [_ Hwithin].
    unfold within_capacity in Hwithin.
    pose proof (stack_length_nonneg (CommandManager.redoStack m0)). lra. }
  eexists _, _. split; [apply execute_push, Hnomerge|]. simpl.
  rewrite (push_bounded_full _ _ _ Hfull).
  split; [reflexivity|]. split.
  - destruct (CommandManager.undoStack m); [congruence|reflexivity].
  - destruct (CommandManager.undoStack m); simpl; [reflexivity|].
    rewrite length_app. simpl. lia.
Qed.

(** A history of capacity 2 that holds two commands takes a third. *)
Lemma C6_capacity_two_witness :
  exists m' w',
    CommandManager.execute Scenario.trig
      (CommandManager.mk [AddShapeCommand 0%nat; AddShapeCommand 1%nat] [] 2)
      (AddShapeCommand 2%nat) Scenario.two_shapes = Some (m', w') /\
    CommandManager.undoStack m' = [AddShapeCommand 1%nat; AddShapeCommand 2%nat].
Proof.
  destruct (C6_full_stack_evicts_oldest Scenario.trig
              (CommandManager.mk [AddShapeCommand 0%nat; AddShapeCommand 1%nat] [] 2)
              (AddShapeCommand 2%nat) Scenario.two_shapes)
    as (_ & _ & m' & w' & Hrun & Hstack & _).
  - reflexivity.
  - intros lastCommand _. reflexivity.
  - exists m', w'. split; [exact Hrun|exact Hstack].
Defined.

(** C10: [execute] always returns, and always leaves the redo stack empty,
    so [canRedo] is false afterwards; this includes the call whose command
    merges into the top entry, which adds no history entry. *)
Theorem C10_execute_clears_redo (M : MathLib)
    (m : CommandManager.t) (command : Command) (w : World) :
  exists m' w',
    CommandManager.execute M m command w = Some (m', w') /\
    CommandManager.redoStack m' = [] /\
    CommandManager.canRedo m' = false /\
    (forall lastCommand,
        last (CommandManager.undoStack m) = Some lastCommand ->
        Command.canMerge command lastCommand = true ->
        length (CommandManager.undoStack m') = length (CommandManager.undoStack m)).
Proof.
  destruct (last (CommandManager.undoStack m)) as [lc|] eqn:Hlast.
  - destruct (Command.canMerge command lc) eqn:Hcan.
    + destruct (merge_defined_when_canMerge _ _ Hcan) as [merged Hmerged].
      eexists _, _. split; [eapply execute_merge; eauto|].
      simpl. repeat split. intros lc' [= <-] _.
      rewrite (last_Some_snoc _ _ Hlast) at 2. now rewrite !length_app.
    + eexists _, _. split; [apply execute_push; congruence|].
      simpl. repeat split. congruence.
  - eexists _, _. split; [apply execute_push; congruence|].
    simpl. repeat split. congruence.
Qed.

(** ** Spatial index *)

(** [addMany], [removeMany] and [clear] leave the dirty flag as it was. *)
Lemma removeMany_keeps_flag (s : Scene.t) (l : list ref) :
  Scene.quadTreeDirty (Scene.removeMany s l) = Scene.quadTreeDirty s /\
  Scene.quadTree (Scene.removeMany s l) = Scene.quadTree s /\
  Scene.useQuadTree (Scene.removeMany s l) = Scene.useQuadTree s /\
  Scene.autoSort (Scene.removeMany s l) = Scene.autoSort s.
Proof.
  unfold Scene.removeMany. revert s.
  induction l as [|a l IH]; intros s; simpl; [tauto|].
  destruct (Scene.remove_first a (Scene.shapes s)); simpl.
  - destruct (IH (Scene.with_shapes l0 s)) as (H1 & H2 & H3 & H4).
    rewrite H1, H2, H3, H4. tauto.
  - apply IH.
Qed.

Lemma addMany_keeps_flag (h : heap) (s : Scene.t) (l : list ref) :
  Scene.quadTreeDirty (Scene.addMany h s l) = Scene.quadTreeDirty s.
Proof.
  unfold Scene.addMany. simpl. now destruct (Scene.autoSort s).
Qed.

Lemma add_marks_dirty (h : heap) (s : Scene.t) (shape : ref) :
  Scene.quadTreeDirty (Scene.add h s shape) = true.
Proof. reflexivity. Qed.

Lemma remove_marks_dirty (s : Scene.t) (shape : ref) :
  (Scene.remove s shape).2 = true ->
  Scene.quadTreeDirty (Scene.remove s shape).1 = true.
Proof.
  unfold Scene.remove. now destruct (Scene.remove_first shape (Scene.shapes s)).
Qed.

(** The tree itself is sound: [insert] loses nothing and files a shape
    wherever its box can be asked for. *)

Section Index.
Variable h : heap.
Local Abbreviation bbox := (QuadTreeNode.bbox h).
Local Abbreviation found p n r := (r ∈ QuadTreeNode.queryPoint h p n []).

Lemma queryPoint_acc (p : Vector.t) (n : QuadTreeNode) :
  forall acc, QuadTreeNode.queryPoint h p n acc = acc ++ QuadTreeNode.queryPoint h p n [].
Proof.
  induction n as [b l|b l c0 IH0 c1 IH1 c2 IH2 c3 IH3]; intros acc; simpl.
  - destruct (AABB.containsPoint b p); simpl; [reflexivity|now rewrite app_nil_r].
  - destruct (AABB.containsPoint b p); simpl; [|now rewrite app_nil_r].
    rewrite IH3, IH2, IH1, IH0.
    rewrite (IH3 (QuadTreeNode.queryPoint h p c2 _)), (IH2 (QuadTreeNode.queryPoint h p c1 _)),
      (IH1 (QuadTreeNode.queryPoint h p c0 _)), (IH0 (filter _ l)).
    now rewrite !app_assoc.
Qed.

Lemma found_unsplit p b l r :
  found p (Unsplit b l) r <->
  AABB.containsPoint b p = true /\ r ∈ l /\ AABB.containsPoint (bbox r) p = true.
Proof.
  simpl. destruct (AABB.containsPoint b p); simpl.
  - rewrite list_elem_of_filter. tauto.
  - split; [intros H; inversion H|intros [H _]; discriminate].
Qed.

Lemma found_split p b l c0 c1 c2 c3 r :
  found p (Split b l c0 c1 c2 c3) r <->
  AABB.containsPoint b p = true /\
  ((r ∈ l /\ AABB.containsPoint (bbox r) p = true) \/
   found p c0 r \/ found p c1 r \/ found p c2 r \/ found p c3 r).
Proof.
  simpl. destruct (AABB.containsPoint b p); simpl.
  - rewrite (queryPoint_acc p c3), (queryPoint_acc p c2), (queryPoint_acc p c1),
      (queryPoint_acc p c0).
    rewrite !elem_of_app, list_elem_of_filter. tauto.
  - split; [intros H; inversion H|intros [H _]; discriminate].
Qed.

Lemma found_in_bounds p n r : found p n r -> AABB.containsPoint (QuadTreeNode.bounds n) p = true.
Proof.
  destruct n; [rewrite found_unsplit|rewrite found_split]; simpl; tauto.
Qed.

Lemma found_push p n s r : found p n r -> found p (QuadTreeNode.push n s) r.
Proof.
  destruct n; simpl QuadTreeNode.push; [rewrite !found_unsplit|rewrite !found_split];
    rewrite ?elem_of_app; tauto.
Qed.

Lemma found_pushed p n s :
  AABB.containsPoint (QuadTreeNode.bounds n) p = true ->
  AABB.containsPoint (bbox s) p = true ->
  found p (QuadTreeNode.push n s) s.
Proof.
  destruct n; simpl; intros Hb Hs; [apply found_unsplit|apply found_split];
    (split; [exact Hb|]); rewrite ?elem_of_app, ?list_elem_of_singleton; tauto.
Qed.

Lemma bounds_push n s : QuadTreeNode.bounds (QuadTreeNode.push n s) = QuadTreeNode.bounds n.
Proof. now destruct n. Qed.

Lemma covered_push n s : covered n -> covered (QuadTreeNode.push n s).
Proof. now destruct n. Qed.

Lemma contains_both_intersect (a b : AABB.t) (p : Vector.t) :
  AABB.containsPoint a p = true -> AABB.containsPoint b p = true ->
  AABB.intersects a b = true.
Proof.
  rewrite !containsPoint_spec, intersects_spec. intros (?&?&?&?) (?&?&?&?).
  repeat split; eapply Qle_trans; eauto.
Qed.

Lemma covered_quadrants (b : AABB.t) : covered (QuadTreeNode.quadrants b).
Proof.
  simpl. split; [|tauto]. intros p. rewrite !containsPoint_spec. simpl.
  intros (Hx1 & Hx2 & Hy1 & Hy2).
  set (mx := (AABB.minX b + AABB.maxX b) / 2).
  set (my := (AABB.minY b + AABB.maxY b) / 2).
  destruct (Qlt_le_dec mx (Vector.x p)) as [Hx|Hx];
    destruct (Qlt_le_dec my (Vector.y p)) as [Hy|Hy].
  - right; right; right. repeat split; auto using Qlt_le_weak.
  - right; left. repeat split; auto using Qlt_le_weak.
  - right; right; left. repeat split; auto using Qlt_le_weak.
  - left. repeat split; auto.
Qed.

Lemma insertIntoChildren_ok ins n s :
  insert_ok h ins -> covered n -> QuadTreeNode.isSubdivided n = true ->
  let n' := QuadTreeNode.insertIntoChildren ins n s in
  covered n' /\ QuadTreeNode.bounds n' = QuadTreeNode.bounds n /\
  QuadTreeNode.isSubdivided n' = true /\
  (forall p r, found p n r -> found p n' r) /\
  (forall p, AABB.containsPoint (QuadTreeNode.bounds n) p = true ->
             AABB.containsPoint (bbox s) p = true -> found p n' s).
Proof.
  intros Hins Hcov Hsub. destruct n as [|b l c0 c1 c2 c3]; [discriminate|].
  destruct Hcov as (Hcover & H0 & H1 & H2 & H3).
  destruct (Hins c0 s H0) as (K0 & B0 & F0 & M0 & A0).
  destruct (Hins c1 s H1) as (K1 & B1 & F1 & M1 & A1).
  destruct (Hins c2 s H2) as (K2 & B2 & F2 & M2 & A2).
  destruct (Hins c3 s H3) as (K3 & B3 & F3 & M3 & A3).
  unfold QuadTreeNode.insertIntoChildren.
  destruct (ins c0 s) as [c0' i0], (ins c1 s) as [c1' i1],
    (ins c2 s) as [c2' i2], (ins c3 s) as [c3' i3].
  cbn [fst snd] in *. cbv zeta.
  split; [|split; [reflexivity|split; [reflexivity|split]]].
  - split; [|tauto]. rewrite B0, B1, B2, B3. exact Hcover.
  - intros p r. rewrite !found_split.
    intros [Hb [Hl|[Hc|[Hc|[Hc|Hc]]]]]; (split; [exact Hb|]).
    + left. destruct Hl as [Hl Hr]. split; [|exact Hr].
      destruct (i0 || i1 || i2 || i3); [exact Hl|]. apply elem_of_app. now left.
    + right; left; auto.
    + right; right; left; auto.
    + right; right; right; left; auto.
    + right; right; right; right; auto.
  - intros p Hb Hs. apply found_split. split; [exact Hb|].
    destruct (Hcover p Hb) as [Hc|[Hc|[Hc|Hc]]].
    + right; left; auto.
    + right; right; left; auto.
    + right; right; right; left; auto.
    + right; right; right; right; auto.
Qed.

Lemma subdivide_ok ins n :
  insert_ok h ins -> covered n ->
  let n' := QuadTreeNode.subdivide h ins n in
  covered n' /\ QuadTreeNode.bounds n' = QuadTreeNode.bounds n /\
  QuadTreeNode.isSubdivided n' = true /\
  (forall p r, found p n r -> found p n' r).
Proof.
  intros Hins Hcov. unfold QuadTreeNode.subdivide.
  destruct n as [b l|b l c0 c1 c2 c3]; simpl QuadTreeNode.isSubdivided; cbv iota;
    [|split; [exact Hcov|split; [reflexivity|split; [reflexivity|auto]]]].
  simpl QuadTreeNode.shapes. simpl QuadTreeNode.bounds.
  assert (Hgen : forall l0 n0,
             covered n0 -> QuadTreeNode.isSubdivided n0 = true ->
             let n' := fold_left (QuadTreeNode.reinsert h ins) l0 n0 in
             covered n' /\ QuadTreeNode.bounds n' = QuadTreeNode.bounds n0 /\
             QuadTreeNode.isSubdivided n' = true /\
             (forall p r, found p n0 r -> found p n' r) /\
             (forall p r, r ∈ l0 -> AABB.containsPoint (QuadTreeNode.bounds n0) p = true ->
                          AABB.containsPoint (bbox r) p = true -> found p n' r)).
  { induction l0 as [|a l0 IH]; intros n0 Hc0 Hs0; simpl.
    - repeat split; auto. intros p r Hr. inversion Hr.
    - assert (Hstep : let n1 := QuadTreeNode.reinsert h ins n0 a in
                covered n1 /\ QuadTreeNode.bounds n1 = QuadTreeNode.bounds n0 /\
                QuadTreeNode.isSubdivided n1 = true /\
                (forall p r, found p n0 r -> found p n1 r) /\
                (forall p, AABB.containsPoint (QuadTreeNode.bounds n0) p = true ->
                           AABB.containsPoint (bbox a) p = true -> found p n1 a)).
      { unfold QuadTreeNode.reinsert.
        destruct (AABB.intersects (QuadTreeNode.bounds n0) (bbox a)) eqn:Hi; simpl.
        - apply insertIntoChildren_ok; assumption.
        - repeat split; auto. intros p Hb Ha.
          rewrite (contains_both_intersect _ _ p Hb Ha) in Hi. discriminate. }
      destruct Hstep as (C1 & B1 & S1 & M1 & A1).
      destruct (IH _ C1 S1) as (C2 & B2 & S2 & M2 & A2).
      split; [exact C2|]. split; [now rewrite B2|]. split; [exact S2|]. split.
      + intros p r Hr. apply M2, M1, Hr.
      + intros p r Hr Hb Hbox. apply elem_of_cons in Hr. destruct Hr as [->|Hr].
        * apply M2, A1; assumption.
        * apply A2; [exact Hr|now rewrite B1|exact Hbox]. }
  destruct (Hgen l (QuadTreeNode.quadrants b) (covered_quadrants b) eq_refl)
    as (C & B & S & _ & A).
  split; [exact C|]. split; [exact B|]. split; [exact S|].
  intros p r Hr. apply found_unsplit in Hr. destruct Hr as (Hb & Hl & Hbox).
  apply A; assumption.
Qed.

Lemma insert_insert_ok (capacity levels : nat) :
  insert_ok h (QuadTreeNode.insert h capacity levels).
Proof.
  induction levels as [|levels IH]; intros n s Hcov.
  - simpl. destruct (AABB.intersects (QuadTreeNode.bounds n) (bbox s)) eqn:Hi; simpl.
    + assert (Hpush : forall x : bool,
                (if x then (QuadTreeNode.push n s, true) else (QuadTreeNode.push n s, true))
                = (QuadTreeNode.push n s, true)) by (now intros []).
      rewrite Hpush. simpl. split; [now apply covered_push|].
      split; [apply bounds_push|]. split; [discriminate|].
      split; [intros p r; apply found_push|intros p; apply found_pushed].
    + repeat split; auto. intros p Hb Hs.
      rewrite (contains_both_intersect _ _ p Hb Hs) in Hi. discriminate.
  - simpl. destruct (AABB.intersects (QuadTreeNode.bounds n) (bbox s)) eqn:Hi; simpl.
    + destruct ((length (QuadTreeNode.shapes n) <? capacity)%nat
                && negb (QuadTreeNode.isSubdivided n)); simpl.
      * split; [now apply covered_push|].
        split; [apply bounds_push|]. split; [discriminate|].
        split; [intros p r; apply found_push|intros p; apply found_pushed].
      * destruct (subdivide_ok _ n IH Hcov) as (C1 & B1 & S1 & M1).
        destruct (insertIntoChildren_ok _ _ s IH C1 S1) as (C2 & B2 & _ & M2 & A2).
        split; [exact C2|]. split; [now rewrite B2|]. split; [discriminate|].
        split; [intros p r Hr; apply M2, M1, Hr|].
        intros p Hb Hs. apply A2; [now rewrite B1|exact Hs].
    + repeat split; auto. intros p Hb Hs.
      rewrite (contains_both_intersect _ _ p Hb Hs) in Hi. discriminate.
Qed.

(** What the rebuilt index does guarantee: it returns every shape of the
    scene whose local box contains the point, for points inside the indexed
    region.  The exact hit test works in world coordinates instead. *)
Theorem rebuilt_index_has_every_local_box (q : QuadTree.t) (shapes : list ref)
    (p : Vector.t) (r : ref) :
  r ∈ shapes ->
  AABB.containsPoint (QuadTreeNode.bounds (QuadTree.root q)) p = true ->
  AABB.containsPoint (Shape.getBoundingBox (h r)) p = true ->
  r ∈ QuadTree.queryPoint h (QuadTree.rebuild h q shapes) p.
Proof.
  intros Hr Hb Hbox. unfold QuadTree.rebuild, QuadTree.queryPoint, QuadTree.insertAll.
  assert (Hgen : forall l q0,
             covered (QuadTree.root q0) ->
             let q' := fold_left (QuadTree.insert h) l q0 in
             covered (QuadTree.root q') /\
             QuadTreeNode.bounds (QuadTree.root q') = QuadTreeNode.bounds (QuadTree.root q0) /\
             (forall r0, found p (QuadTree.root q0) r0 -> found p (QuadTree.root q') r0) /\
             (forall r0, r0 ∈ l ->
                         AABB.containsPoint (QuadTreeNode.bounds (QuadTree.root q0)) p = true ->
                         AABB.containsPoint (bbox r0) p = true ->
                         found p (QuadTree.root q') r0)).
  { induction l as [|a l IH]; intros q0 Hc; simpl.
    - repeat split; auto. intros r0 H0. inversion H0.
    - destruct (insert_insert_ok (QuadTree.capacity q0) (QuadTree.maxDepth q0)
                  (QuadTree.root q0) a Hc) as (C1 & B1 & _ & M1 & A1).
      destruct (IH (QuadTree.insert h q0 a) C1) as (C2 & B2 & M2 & A2).
      split; [exact C2|]. split; [simpl in B2; now rewrite B2|]. split.
      + intros r0 H0. apply M2. simpl. apply M1, H0.
      + intros r0 H0 Hb0 Hbox0. apply elem_of_cons in H0. destruct H0 as [->|H0].
        * apply M2. simpl. apply A1; assumption.
        * apply A2; [exact H0| simpl; now rewrite B1|exact Hbox0]. }
  destruct (Hgen shapes (QuadTree.clear q) I) as (_ & _ & _ & A).
  apply A; [exact Hr| |exact Hbox].
  simpl. exact Hb.
Qed.
End Index.

(** C1 fails on the code: the quadtree files and queries shapes by their
    local box, centred at the origin, against world points.  A rectangle
    centred at (100, 100) passes its exact hit test at that point, yet the
    freshly rebuilt index returns no candidate there, and the indexed scene
    reports no hit where the linear scan reports the rectangle. *)
Theorem C1_index_omits_hit_shape :
  let P := Vector.mk 100 100 in
  Shape.hitTest Scenario.trig (Scenario.far_heap 0%nat) P = Some true /\
  Scene.quadTreeDirty (Scene.rebuildQuadTreeIfNeeded Scenario.far_heap Scenario.indexed_scene)
    = false /\
  is_Some_b (Scene.quadTree
               (Scene.rebuildQuadTreeIfNeeded Scenario.far_heap Scenario.indexed_scene))
    = true /\
  Scenario.candidates Scenario.far_heap Scenario.indexed_scene P = [] /\
  option_map snd (Scene.hitTest Scenario.far_heap Scenario.trig Scenario.indexed_scene P)
    = Some None /\
  option_map snd (Scene.hitTest Scenario.far_heap Scenario.trig Scenario.plain_scene P)
    = Some (Some 0%nat).
Proof.
  vm_compute. repeat split; reflexivity.
Qed.

(** C3 fails on the code: [add] and a successful [remove] set the dirty
    flag, [addMany] and [removeMany] do not.  On a scene whose index is clean,
    a shape added by [addMany] is missing from the next point query and a
    shape removed by [removeMany] is still returned by it, where [add] and
    [remove] give the up-to-date answer. *)
Theorem C3_batch_updates_leave_index_stale :
  let P := Vector.mk 0 0 in
  Scene.quadTreeDirty Scenario.queried_scene = false /\
  (let s := Scene.addMany Scenario.origin_heap Scenario.queried_scene [1%nat] in
   Scene.quadTreeDirty s = false /\
   Scene.shapes s = [0%nat; 1%nat] /\ Scenario.candidates Scenario.origin_heap s P = [0%nat]) /\
  (let s := Scene.removeMany Scenario.queried_scene [0%nat] in
   Scene.quadTreeDirty s = false /\
   Scene.shapes s = [] /\ Scenario.candidates Scenario.origin_heap s P = [0%nat]) /\
  (let s := Scene.add Scenario.origin_heap Scenario.queried_scene 1%nat in
   Scene.quadTreeDirty s = true /\ Scenario.candidates Scenario.origin_heap s P = [0%nat; 1%nat]) /\
  (let s := (Scene.remove Scenario.queried_scene 0%nat).1 in
   Scene.quadTreeDirty s = true /\ Scenario.candidates Scenario.origin_heap s P = []).
Proof. vm_compute. repeat split; reflexivity. Qed.

(** ** Synchronisation between clients *)

(** A shape rebuilt from its own JSON form keeps its id and position. *)
Lemma fromJSON_toJSON_id_position (uuid : string) (s : Shape.t) :
  Shape.id s <> ""%string ->
  exists s', createShapeFromJSON uuid (Shape.toJSON s) = Some s' /\
             Shape.id s' = Shape.id s /\ Shape.x s' = Shape.x s /\ Shape.y s' = Shape.y s.
Proof.
  intros Hid. destruct s as [id name x y rot sx sy vis lock z g]. simpl in Hid.
  destruct g; simpl; eexists; (split; [reflexivity|]); simpl;
    (destruct (String.eqb_spec id ""); [contradiction|]); auto.
Qed.

(** C2 fails on the code for move and remove.  The hook reads
    [command.shape], [command.shapes] and [command.delta], none of which a
    move or a remove command has: the move payload goes out without shape id
    and delta, the remove payload carries the class name as its type, and the
    receiving client applies neither.  Only the add payload is applied. *)
Theorem C2_move_and_remove_not_replicated :
  (* move: A's shape is at (10, 5), B's still at (0, 0) *)
  option_map (fun ab => (Scenario.position_of ab.1 "s1", Scenario.position_of ab.2 "s1"))
             (Scenario.propagate (Command.newMoveShapeCommand Scenario.shared_heap [0%nat] 10 5))
    = Some (Some (10, 5), Some (0, 0)) /\
  (* remove: the shape is gone at A and still there at B *)
  option_map (fun ab => (Scenario.position_of ab.1 "s1", Scenario.position_of ab.2 "s1"))
             (Scenario.propagate (RemoveShapeCommand [0%nat]))
    = Some (None, Some (0, 0)) /\
  (* add: B ends with the shape where A has it *)
  option_map (fun ab => (Scenario.position_of ab.1 "s2", Scenario.position_of ab.2 "s2"))
             (Scenario.propagate (AddShapeCommand 1%nat))
    = Some (Some (100, 100), Some (100, 100)).
Proof. vm_compute. repeat split; reflexivity. Qed.

(** ** Move commands *)

Lemma placed_at_position (s : Shape.t) : placed_at (position s) s = s.
Proof. now destruct s. Qed.

Lemma placed_at_twice (p q : Vector.t) (s : Shape.t) :
  placed_at p (placed_at q s) = placed_at p s.
Proof. now destruct s. Qed.

Lemma position_placed_at (p : Vector.t) (s : Shape.t) : position (placed_at p s) = p.
Proof. now destruct s, p. Qed.

Lemma upd_same (h : heap) (r : ref) (s : Shape.t) : upd h r s r = s.
Proof. unfold upd. now rewrite Nat.eqb_refl. Qed.

Lemma upd_other (h : heap) (r r' : ref) (s : Shape.t) : r' <> r -> upd h r s r' = h r'.
Proof. unfold upd. intros H. now destruct (Nat.eqb_spec r' r). Qed.

Lemma move_by_placed (dx dy : Q) (h : heap) (r : ref) :
  Command.move_by dx dy h r =
  upd h r (placed_at (Vector.mk (Shape.x (h r) + dx) (Shape.y (h r) + dy)) (h r)).
Proof. reflexivity. Qed.

Lemma moved_only_refl (shapes : list ref) (h : heap) : moved_only shapes h h.
Proof. intros r. split; [now rewrite placed_at_position|reflexivity]. Qed.

Lemma moved_only_trans (shapes : list ref) (h1 h2 h3 : heap) :
  moved_only shapes h1 h2 -> moved_only shapes h2 h3 -> moved_only shapes h1 h3.
Proof.
  intros H12 H23 r. destruct (H12 r) as [Ha Hb], (H23 r) as [Hc Hd]. split.
  - etransitivity; [exact Hc|]. rewrite Ha. apply placed_at_twice.
  - intros Hr. now rewrite Hd, Hb.
Qed.

Lemma moved_only_upd (shapes : list ref) (h : heap) (r : ref) (p : Vector.t) :
  r ∈ shapes -> moved_only shapes h (upd h r (placed_at p (h r))).
Proof.
  intros Hin r'. destruct (Nat.eq_dec r' r) as [->|Hne].
  - rewrite upd_same. split; [now rewrite position_placed_at|contradiction].
  - rewrite (upd_other _ _ _ _ Hne). split; [now rewrite placed_at_position|reflexivity].
Qed.

Lemma moved_only_move (shapes l : list ref) (dx dy : Q) (h : heap) :
  (forall r, r ∈ l -> r ∈ shapes) ->
  moved_only shapes h (fold_left (Command.move_by dx dy) l h).
Proof.
  revert h. induction l as [|a l IH]; intros h Hsub; simpl.
  - apply moved_only_refl.
  - apply (moved_only_trans shapes h (Command.move_by dx dy h a)).
    + rewrite move_by_placed. apply moved_only_upd, Hsub. left.
    + apply IH. intros r Hr. apply Hsub. now right.
Qed.

(** The positions a move command records at construction. *)
Lemma recorded_positions (h : heap) (l : list ref) (m : gmap ref Vector.t) (r : ref) :
  fold_left (fun m shape => <[shape := Vector.mk (Shape.x (h shape)) (Shape.y (h shape))]> m) l m
    !! r
  = if decide (r ∈ l) then Some (position (h r)) else m !! r.
Proof.
  revert m. induction l as [|a l IH]; intros m; simpl.
  - destruct (decide (r ∈ [])) as [H|_]; [inversion H|reflexivity].
  - rewrite IH. destruct (decide (r ∈ l)) as [Hl|Hl].
    + rewrite decide_True; [reflexivity|now right].
    + destruct (decide (r = a)) as [->|Hne].
      * rewrite lookup_insert_eq, decide_True; [reflexivity|left].
      * rewrite lookup_insert_ne by congruence.
        rewrite decide_False; [reflexivity|].
        intros H. apply elem_of_cons in H. tauto.
Qed.

(** Undoing a move puts every listed shape back where the command was
    built, whatever happened to the positions in between. *)
Lemma move_back_restores (shapes : list ref) (h0 h : heap) (dx dy : Q)
    (oldPositions : gmap ref Vector.t) :
  MoveShapeCommand shapes dx dy oldPositions = Command.newMoveShapeCommand h0 shapes dx dy ->
  moved_only shapes h0 h ->
  forall r, fold_left (Command.move_back oldPositions) shapes h r = h0 r.
Proof.
  intros [= Hold] Hmoved.
  assert (Hlook : forall r, r ∈ shapes -> oldPositions !! r = Some (position (h0 r))).
  { intros r Hr. rewrite Hold, recorded_positions. now rewrite decide_True. }
  clear Hold.
  assert (Hgen : forall l h1, (forall r, r ∈ l -> r ∈ shapes) ->
            forall r, fold_left (Command.move_back oldPositions) l h1 r =
                      if decide (r ∈ l) then placed_at (position (h0 r)) (h1 r) else h1 r).
  { induction l as [|a l IH]; intros h1 Hsub r; simpl.
    - destruct (decide (r ∈ [])) as [H|_]; [inversion H|reflexivity].
    - rewrite IH by (intros r' Hr'; apply Hsub; now right).
      unfold Command.move_back. rewrite (Hlook a) by (apply Hsub; left).
      change (Shape.set_y (Vector.y (position (h0 a)))
                (Shape.set_x (Vector.x (position (h0 a))) (h1 a)))
        with (placed_at (position (h0 a)) (h1 a)).
      destruct (decide (r ∈ l)) as [Hl|Hl].
      + rewrite decide_True by now right.
        destruct (Nat.eq_dec r a) as [->|Hne].
        * now rewrite upd_same, placed_at_twice.
        * now rewrite upd_other.
      + destruct (Nat.eq_dec r a) as [->|Hne].
        * rewrite upd_same, decide_True; [reflexivity|left].
        * rewrite upd_other by exact Hne. rewrite decide_False; [reflexivity|].
          intros H. apply elem_of_cons in H. tauto. }
  intros r. rewrite Hgen by auto. destruct (Hmoved r) as [Ha Hb].
  destruct (decide (r ∈ shapes)) as [Hr|Hr].
  - rewrite Ha, placed_at_twice. apply placed_at_position.
  - now apply Hb.
Qed.







(** ** Execute followed by undo *)

Lemma sort_insert_perm (h : heap) (a : ref) (l : list ref) :
  Scene.sort_insert h a l ≡ₚ a :: l.
Proof.
  induction l as [|b l IH]; simpl; [reflexivity|].
  destruct (Shape.zIndex (h a) <=? Shape.zIndex (h b)); [reflexivity|].
  rewrite IH. apply Permutation_swap.
Qed.

Lemma sorted_list_perm (h : heap) (l : list ref) : Scene.sorted_list h l ≡ₚ l.
Proof.
  induction l as [|a l IH]; simpl; [reflexivity|].
  rewrite sort_insert_perm. now rewrite IH.
Qed.

Lemma is_sorted_tail (h : heap) (a : ref) (l : list ref) :
  is_sorted h (a :: l) = true -> is_sorted h l = true.
Proof.
  destruct l as [|b l]; [reflexivity|]. simpl. intros H.
  apply andb_true_iff in H. tauto.
Qed.

Lemma sort_insert_head (h : heap) (a : ref) (l : list ref) :
  is_sorted h (a :: l) = true -> Scene.sort_insert h a l = a :: l.
Proof.
  destruct l as [|b l]; [reflexivity|]. simpl. intros H.
  apply andb_true_iff in H. destruct H as [-> _]. reflexivity.
Qed.

(** Sorting a list in paint order with one more shape at its end puts that
    shape somewhere inside and moves nothing else. *)
Lemma sorted_list_snoc (h : heap) (l : list ref) (s : ref) :
  is_sorted h l = true ->
  exists l1 l2, l = l1 ++ l2 /\ Scene.sorted_list h (l ++ [s]) = l1 ++ s :: l2.
Proof.
  induction l as [|a l IH]; intros Hs.
  - exists [], []. split; reflexivity.
  - destruct (IH (is_sorted_tail _ _ _ Hs)) as (l1 & l2 & Hl & Hsort).
    simpl. rewrite Hsort. destruct l1 as [|b l1].
    + simpl in *. subst l2.
      destruct (Shape.zIndex (h a) <=? Shape.zIndex (h s)).
      * exists [a], l. split; reflexivity.
      * exists [], (a :: l). split; [reflexivity|].
        simpl. now rewrite (sort_insert_head _ _ _ Hs).
    + exists (a :: b :: l1), l2. split; [now rewrite Hl|].
      subst l. simpl in Hs. apply andb_true_iff in Hs. destruct Hs as [Hab _].
      simpl. now rewrite Hab.
Qed.

Lemma remove_first_middle (s : ref) (l1 l2 : list ref) :
  s ∉ l1 -> Scene.remove_first s (l1 ++ s :: l2) = Some (l1 ++ l2).
Proof.
  induction l1 as [|a l1 IH]; intros Hnot; simpl.
  - now rewrite Nat.eqb_refl.
  - destruct (Nat.eqb_spec a s) as [->|Hne].
    + exfalso. apply Hnot. left.
    + rewrite IH; [reflexivity|]. intros H. apply Hnot. now right.
Qed.

Lemma remove_first_perm (r : ref) (l l' : list ref) :
  Scene.remove_first r l = Some l' -> l ≡ₚ r :: l'.
Proof.
  revert l'. induction l as [|a l IH]; intros l'; simpl; [discriminate|].
  destruct (Nat.eqb_spec a r) as [->|Hne].
  - now intros [= ->].
  - destruct (Scene.remove_first r l) as [l0|]; simpl; [|discriminate].
    intros [= <-]. rewrite (IH l0 eq_refl). apply Permutation_swap.
Qed.

Lemma remove_first_member (r : ref) (l : list ref) :
  r ∈ l -> exists l', Scene.remove_first r l = Some l'.
Proof.
  induction l as [|a l IH]; intros Hin; [inversion Hin|]. simpl.
  destruct (Nat.eqb_spec a r) as [->|Hne]; [eauto|].
  apply elem_of_cons in Hin. destruct Hin as [->|Hin]; [congruence|].
  destruct (IH Hin) as [l' ->]. simpl. eauto.
Qed.

(** [removeMany] takes one occurrence of each listed shape out of the list. *)
Lemma removeMany_perm (l : list ref) :
  forall s : Scene.t,
    NoDup l -> (forall r, r ∈ l -> r ∈ Scene.shapes s) ->
    Scene.shapes s ≡ₚ l ++ Scene.shapes (Scene.removeMany s l).
Proof.
  induction l as [|a l IH]; intros s Hnd Hin; [reflexivity|].
  apply NoDup_cons in Hnd. destruct Hnd as [Ha Hnd].
  destruct (remove_first_member a (Scene.shapes s)) as [l' Hl']; [apply Hin; left|].
  unfold Scene.removeMany. simpl. rewrite Hl'.
  fold (Scene.removeMany (Scene.with_shapes l' s) l).
  pose proof (remove_first_perm _ _ _ Hl') as Hperm.
  rewrite Hperm. constructor. apply (IH (Scene.with_shapes l' s) Hnd).
  intros r Hr. simpl.
  assert (Hr' : r ∈ a :: l') by (rewrite <- Hperm; apply Hin; now right).
  apply elem_of_cons in Hr'. destruct Hr' as [->|Hr']; [contradiction|exact Hr'].
Qed.

Lemma last_push_bounded (maxHistory : Q) (l : list Command) (c : Command) :
  1 <= maxHistory ->
  last (CommandManager.push_bounded maxHistory l c) = Some c.
Proof.
  intros Hcap. unfold CommandManager.push_bounded.
  destruct (CommandManager.stack_length (l ++ [c]) <=? maxHistory) eqn:Hle; simpl.
  - apply last_snoc.
  - destruct l as [|a l]; simpl.
    + exfalso. apply Qle_bool_false in Hle. revert Hle.
      change (CommandManager.stack_length ([] ++ [c])) with 1. lra.
    + apply last_snoc.
Qed.

(** A command that is pushed is the one the next [undo] reverts. *)
Lemma execute_then_undo_pushed (M : MathLib)
    (m : CommandManager.t) (command : Command) (w : World) :
  1 <= CommandManager.maxHistory m ->
  (forall lastCommand, last (CommandManager.undoStack m) = Some lastCommand ->
                       Command.canMerge command lastCommand = false) ->
  exists m', execute_then_undo M m command w =
             Some (m', Command.undo command (Command.execute M command w)).
Proof.
  intros Hcap Hno. unfold execute_then_undo.
  rewrite (execute_push M _ _ _ Hno). simpl.
  unfold CommandManager.undo. simpl. rewrite (last_push_bounded _ _ _ Hcap). eauto.
Qed.

Lemma undo_execute_add (M : MathLib) (shape : ref) (w : World) :
  well_built (AddShapeCommand shape) w ->
  Scene.shapes (wscene (Command.undo (AddShapeCommand shape)
                          (Command.execute M (AddShapeCommand shape) w)))
  = Scene.shapes (wscene w).
Proof.
  intros [Hfresh Hsorted]. simpl. unfold Scene.remove, Scene.add. simpl.
  destruct (Scene.autoSort (wscene w)) eqn:Hauto; simpl.
  - destruct (sorted_list_snoc (wheap w) _ shape (Hsorted eq_refl)) as (l1 & l2 & Hl & Hsort).
    rewrite Hsort, remove_first_middle; [simpl; now rewrite Hl|].
    intros H. apply Hfresh. rewrite Hl. apply elem_of_app. now left.
  - rewrite remove_first_middle; [simpl; apply app_nil_r|exact Hfresh].
Qed.

Lemma undo_execute_remove (M : MathLib) (shapesToRemove : list ref) (w : World) :
  well_built (RemoveShapeCommand shapesToRemove) w ->
  Scene.shapes (wscene (Command.undo (RemoveShapeCommand shapesToRemove)
                          (Command.execute M (RemoveShapeCommand shapesToRemove) w)))
  ≡ₚ Scene.shapes (wscene w).
Proof.
  intros [Hnd Hin]. simpl. unfold Scene.addMany. simpl.
  destruct (removeMany_keeps_flag (wscene w) shapesToRemove) as (_ & _ & _ & ->).
  pose proof (removeMany_perm shapesToRemove (wscene w) Hnd Hin) as Hperm.
  destruct (Scene.autoSort (wscene w)); simpl.
  - rewrite sorted_list_perm, Hperm. apply Permutation_app_comm.
  - rewrite Hperm. apply Permutation_app_comm.
Qed.

Lemma fold_snapshot {St : Type} (key : St -> ref) (app : St -> Shape.t -> Shape.t)
    (snap : ref -> St) (l : list ref) :
  (forall r, key (snap r) = r) ->
  (forall st s, app st (app st s) = app st s) ->
  forall (h : heap) (r : ref),
    fold_left (fun h st => upd h (key st) (app st (h (key st)))) (map snap l) h r =
    if decide (r ∈ l) then app (snap r) (h r) else h r.
Proof.
  intros Hkey Hidem. induction l as [|a l IH]; intros h r; simpl.
  - destruct (decide (r ∈ [])) as [H|_]; [inversion H|reflexivity].
  - rewrite IH, Hkey. destruct (decide (r = a)) as [->|Hne].
    + rewrite upd_same. destruct (decide (a ∈ a :: l)) as [_|H]; [|exfalso; apply H; left].
      destruct (decide (a ∈ l)); [apply Hidem|reflexivity].
    + rewrite upd_other by exact Hne.
      destruct (decide (r ∈ l)) as [H|H], (decide (r ∈ a :: l)) as [H'|H'];
        try reflexivity.
      * exfalso. apply H'. now right.
      * exfalso. apply elem_of_cons in H'. tauto.
Qed.

(** The same for a fold that looks each shape up in a map of snapshots. *)
Lemma fold_lookup {St : Type} (states : gmap ref St) (app : St -> Shape.t -> Shape.t)
    (l : list ref) :
  (forall st s, app st (app st s) = app st s) ->
  forall (h : heap) (r : ref),
    fold_left (fun h shape =>
                 match states !! shape with
                 | Some st => upd h shape (app st (h shape))
                 | None => h
                 end) l h r
    = if decide (r ∈ l)
      then match states !! r with Some st => app st (h r) | None => h r end
      else h r.
Proof.
  intros Hidem. induction l as [|a l IH]; intros h r; simpl.
  - destruct (decide (r ∈ [])) as [H|_]; [inversion H|reflexivity].
  - rewrite IH. destruct (decide (r = a)) as [->|Hne].
    + destruct (decide (a ∈ a :: l)) as [_|H]; [|exfalso; apply H; left].
      destruct (states !! a) as [st|] eqn:Hst.
      * rewrite upd_same. destruct (decide (a ∈ l)); [apply Hidem|reflexivity].
      * destruct (decide (a ∈ l)); reflexivity.
    + assert (Hr : (match states !! a with
                    | Some st => upd h a (app st (h a))
                    | None => h
                    end) r = h r)
        by (destruct (states !! a); [now apply upd_other|reflexivity]).
      rewrite Hr.
      destruct (decide (r ∈ l)) as [H|H], (decide (r ∈ a :: l)) as [H'|H'];
        try reflexivity.
      * exfalso. apply H'. now right.
      * exfalso. apply elem_of_cons in H'. tauto.
Qed.

(** What a command records of each shape at construction. *)
Lemma recorded_values {A : Type} (f : ref -> A) (l : list ref) (m : gmap ref A) (r : ref) :
  fold_left (fun m shape => <[shape := f shape]> m) l m !! r
  = if decide (r ∈ l) then Some (f r) else m !! r.
Proof.
  revert m. induction l as [|a l IH]; intros m; simpl.
  - destruct (decide (r ∈ [])) as [H|_]; [inversion H|reflexivity].
  - rewrite IH. destruct (decide (r ∈ l)) as [Hl|Hl].
    + rewrite decide_True; [reflexivity|now right].
    + destruct (decide (r = a)) as [->|Hne].
      * rewrite lookup_insert_eq, decide_True; [reflexivity|left].
      * rewrite lookup_insert_ne by congruence.
        rewrite decide_False; [reflexivity|].
        intros H. apply elem_of_cons in H. tauto.
Qed.

Lemma setProperty_twice (property : string) (value : option JSON) (s : Shape.t) :
  Shape.setProperty property value (Shape.setProperty property value s)
  = Shape.setProperty property value s.
Proof.
  unfold Shape.setProperty.
  destruct (Shape.property_of property) as [[]|]; destruct value as [[]|];
    destruct s as [id name x y rot sx sy vis lock z []]; reflexivity.
Qed.

(** Writing back what a property held before a write undoes the write. *)
Lemma setProperty_back (property : string) (value : option JSON) (s : Shape.t) :
  Shape.setProperty property (Shape.getProperty property s)
    (Shape.setProperty property value s) = s.
Proof.
  unfold Shape.setProperty, Shape.getProperty.
  destruct (Shape.property_of property) as [[]|]; destruct value as [[]|];
    destruct s as [id name x y rot sx sy vis lock z []]; reflexivity.
Qed.

Lemma modify_execute_at (property : string) (value : option JSON) (l : list ref)
    (h : heap) (r : ref) :
  fold_left (Command.modify property value) l h r
  = if decide (r ∈ l) then Shape.setProperty property value (h r) else h r.
Proof.
  pose proof (fold_snapshot (fun shape : ref => shape)
                (fun _ : ref => Shape.setProperty property value)
                (fun shape : ref => shape) l (fun _ => eq_refl)
                (fun _ => setProperty_twice property value) h r) as H.
  rewrite map_id in H. exact H.
Qed.

Lemma modify_undo_at (property : string) (oldValues : gmap ref (option JSON))
    (l : list ref) (h : heap) (r : ref) :
  fold_left (Command.modify_back property oldValues) l h r
  = if decide (r ∈ l)
    then match oldValues !! r with
         | Some oldValue => Shape.setProperty property oldValue (h r)
         | None => h r
         end
    else h r.
Proof.
  apply (fold_lookup oldValues (Shape.setProperty property) l).
  intros value s. apply setProperty_twice.
Qed.

(** What [applyState] leaves: the position of the state, and for each
    other field the state's value where it has one. *)
Lemma applyState_fields (state : TransformCommand.ShapeState) (s : Shape.t) :
  TransformCommand.applyState state s
  = Shape.mk (Shape.id s) (Shape.name s)
      (TransformCommand.x state) (TransformCommand.y state)
      (default (Shape.rotation s) (TransformCommand.rotation state))
      (default (Shape.scaleX s) (TransformCommand.scaleX state))
      (default (Shape.scaleY s) (TransformCommand.scaleY state))
      (Shape.visible s) (Shape.locked s) (Shape.zIndex s)
      match Shape.geom s with
      | RectGeom width height cornerRadius =>
          RectGeom (default width (TransformCommand.width state))
                   (default height (TransformCommand.height state)) cornerRadius
      | CircleGeom radius => CircleGeom radius
      end.
Proof.
  destruct state as [x y [w|] [h|] [rot|] [sx|] [sy|]];
    destruct s as [id name x0 y0 rot0 sx0 sy0 vis lock z []]; reflexivity.
Qed.

Lemma default_covered (a : Q) (before after : option Q) :
  (is_Some after -> is_Some before) ->
  default (default a after) before = default a before.
Proof.
  destruct before as [b|]; [reflexivity|].
  destruct after as [c|]; [|reflexivity].
  intros H. destruct H as [b Hb]; [now exists c|discriminate].
Qed.

Lemma applyState_twice (state : TransformCommand.ShapeState) (s : Shape.t) :
  TransformCommand.applyState state (TransformCommand.applyState state s)
  = TransformCommand.applyState state s.
Proof.
  rewrite !applyState_fields. cbn [Shape.id Shape.name Shape.rotation Shape.scaleX
    Shape.scaleY Shape.visible Shape.locked Shape.zIndex Shape.geom].
  rewrite !default_covered by tauto.
  destruct (Shape.geom s); [|reflexivity].
  now rewrite !default_covered by tauto.
Qed.

(** A state that covers another one overwrites all it has set. *)
Lemma applyState_covered (before after : TransformCommand.ShapeState) (s : Shape.t) :
  state_covers before after ->
  TransformCommand.applyState before (TransformCommand.applyState after s)
  = TransformCommand.applyState before s.
Proof.
  intros (Hw & Hh & Hrot & Hsx & Hsy).
  rewrite !applyState_fields. cbn [Shape.id Shape.name Shape.rotation Shape.scaleX
    Shape.scaleY Shape.visible Shape.locked Shape.zIndex Shape.geom].
  rewrite (default_covered _ _ _ Hrot), (default_covered _ _ _ Hsx),
    (default_covered _ _ _ Hsy).
  destruct (Shape.geom s); [|reflexivity].
  now rewrite (default_covered _ _ _ Hw), (default_covered _ _ _ Hh).
Qed.

Lemma applyStates_at (shapes : list ref) (states : gmap ref TransformCommand.ShapeState)
    (h : heap) (r : ref) :
  TransformCommand.applyStates shapes states h r
  = if decide (r ∈ shapes)
    then match states !! r with
         | Some state => TransformCommand.applyState state (h r)
         | None => h r
         end
    else h r.
Proof.
  apply (fold_lookup states TransformCommand.applyState shapes). apply applyState_twice.
Qed.

Lemma rotate_execute_at (M : MathLib) (h0 h : heap) (shapes : list ref) (angle : Q)
    (pivot : Vector.t) (r : ref) :
  RotateCommand.execute M (RotateCommand.new h0 shapes angle pivot) h r =
  if decide (r ∈ shapes) then rotated M angle pivot (rotate_snapshot h0 r) (h r) else h r.
Proof.
  unfold RotateCommand.execute, RotateCommand.rotate, RotateCommand.new.
  cbn [RotateCommand.originalStates RotateCommand.angle RotateCommand.pivot].
  apply (fold_snapshot RotateCommand.shape (rotated M angle pivot) (rotate_snapshot h0));
    [reflexivity|]. intros st s. reflexivity.
Qed.

Lemma rotate_undo_at (h0 h : heap) (shapes : list ref) (angle : Q)
    (pivot : Vector.t) (r : ref) :
  RotateCommand.undo (RotateCommand.new h0 shapes angle pivot) h r =
  if decide (r ∈ shapes) then unrotated (rotate_snapshot h0 r) (h r) else h r.
Proof.
  unfold RotateCommand.undo, RotateCommand.new. cbn [RotateCommand.originalStates].
  apply (fold_snapshot RotateCommand.shape unrotated (rotate_snapshot h0));
    [reflexivity|]. intros st s. reflexivity.
Qed.

Lemma scale_execute_at (h0 h : heap) (shapes : list ref) (sx sy : Q)
    (pivot : Vector.t) (r : ref) :
  ScaleCommand.execute (ScaleCommand.new h0 shapes sx sy pivot) h r =
  if decide (r ∈ shapes) then scaled sx sy pivot (scale_snapshot h0 r) (h r) else h r.
Proof.
  unfold ScaleCommand.execute, ScaleCommand.scale, ScaleCommand.new.
  cbn [ScaleCommand.originalStates ScaleCommand.scaleX ScaleCommand.scaleY
       ScaleCommand.pivot].
  apply (fold_snapshot ScaleCommand.shape (scaled sx sy pivot) (scale_snapshot h0));
    [reflexivity|].
  intros st [id name x y rot scx scy vis lock z g]. now destruct g.
Qed.

Lemma scale_undo_at (h0 h : heap) (shapes : list ref) (sx sy : Q)
    (pivot : Vector.t) (r : ref) :
  ScaleCommand.undo (ScaleCommand.new h0 shapes sx sy pivot) h r =
  if decide (r ∈ shapes) then unscaled (scale_snapshot h0 r) (h r) else h r.
Proof.
  unfold ScaleCommand.undo, ScaleCommand.new. cbn [ScaleCommand.originalStates].
  apply (fold_snapshot ScaleCommand.shape unscaled (scale_snapshot h0));
    [reflexivity|].
  intros st [id name x y rot scx scy vis lock z g]. now destruct g.
Qed.

Lemma unrotated_rotated (M : MathLib) (angle : Q) (pivot : Vector.t) (s : Shape.t)
    (shape : ref) :
  let st := RotateCommand.mkState shape (Shape.x s) (Shape.y s) (Shape.rotation s) in
  unrotated st (rotated M angle pivot st s) = s.
Proof. unfold unrotated, rotated. now destruct s. Qed.

Lemma unscaled_scaled (sx sy : Q) (pivot : Vector.t) (s : Shape.t) (shape : ref) :
  let st := ScaleCommand.mkState shape (Shape.x s) (Shape.y s)
              (ScaleCommand.width_or_0 s) (ScaleCommand.height_or_0 s) in
  unscaled st (scaled sx sy pivot st s) = s.
Proof.
  unfold unscaled, scaled. destruct s as [id name x y rot scx scy vis lock z g].
  now destruct g.
Qed.

(** Whatever the command, [undo] after [execute] gives every shape its
    fields back. *)
Lemma undo_execute_heap (M : MathLib) (command : Command) (w : World) :
  well_built command w ->
  forall r, wheap (Command.undo command (Command.execute M command w)) r = wheap w r.
Proof.
  intros Hbuilt r.
  destruct command as [shape|shapesToRemove|shapes dx dy old|shapes property value old
                       |shapes before after|this|this].
  - reflexivity.
  - reflexivity.
  - simpl. apply (move_back_restores shapes (wheap w) _ dx dy old Hbuilt).
    now apply moved_only_move.
  - simpl in Hbuilt. unfold Command.newModifyShapeCommand in Hbuilt.
    injection Hbuilt as Hold. simpl.
    rewrite modify_undo_at, modify_execute_at.
    destruct (decide (r ∈ shapes)) as [Hin|Hin]; [|reflexivity].
    rewrite Hold, recorded_values, decide_True by exact Hin.
    apply setProperty_back.
  - simpl. rewrite !applyStates_at.
    destruct (decide (r ∈ shapes)) as [Hin|Hin]; [|reflexivity].
    destruct (Hbuilt r Hin) as [Hcurrent Hcovered].
    destruct (after !! r) as [a|] eqn:Ha.
    + destruct (Hcovered a eq_refl) as (b & Hb & Hcov). rewrite Hb.
      rewrite (applyState_covered b a _ Hcov). now apply Hcurrent.
    + destruct (before !! r) as [b|] eqn:Hb; [now apply Hcurrent|reflexivity].
  - destruct this as [shapes angle pivot states]. simpl in Hbuilt. simpl.
    rewrite Hbuilt, rotate_undo_at, rotate_execute_at.
    destruct (decide (r ∈ shapes)) as [Hin|Hin]; [|reflexivity].
    apply unrotated_rotated.
  - destruct this as [shapes sx sy pivot states]. simpl in Hbuilt. simpl.
    rewrite Hbuilt, scale_undo_at, scale_execute_at.
    destruct (decide (r ∈ shapes)) as [Hin|Hin]; [|reflexivity].
    apply unscaled_scaled.
Qed.

(** C4, as stated, fails: two shapes with the default z-index, the first
    one removed and the removal undone, come back in the other order. *)
Lemma C4_remove_undo_reorders :
  Scene.shapes (wscene Scenario.two_shapes) = [0%nat; 1%nat] /\
  option_map (fun r => Scene.shapes (wscene r.2))
             (execute_then_undo Scenario.trig (CommandManager.new None) (RemoveShapeCommand [0%nat])
                                Scenario.two_shapes)
  = Some [1%nat; 0%nat].
Proof. vm_compute. split; reflexivity. Qed.

(** Why the amended reading asks for a history entry of its own: a move
    that merges into the entry of an earlier move is undone together with it,
    and with a capacity of 0 the pushed command is evicted at once, so [undo]
    finds nothing to revert. *)
Lemma merged_move_is_undone_with_its_drag :
  (r1 ← CommandManager.execute Scenario.trig (CommandManager.new None)
          (Command.newMoveShapeCommand Scenario.shared_heap [0%nat] 10 5)
          Scenario.shared_world;
   r2 ← execute_then_undo Scenario.trig r1.1
          (Command.newMoveShapeCommand (wheap r1.2) [0%nat] 10 5) r1.2;
   Some (position (wheap r1.2 0%nat), position (wheap r2.2 0%nat)))
  = Some (Vector.mk 10 5, Vector.mk 0 0).
Proof. vm_compute. reflexivity. Qed.

Lemma capacity_zero_keeps_nothing_to_undo :
  option_map (fun r => Scene.shapes (wscene r.2))
             (execute_then_undo Scenario.trig (CommandManager.new (Some 0)) (AddShapeCommand 1%nat)
                                Scenario.shared_world)
  = Some [0%nat; 1%nat].
Proof. vm_compute. reflexivity. Qed.

(** C4 (amended): for a command of any of the seven classes (add, remove,
    move, modify, transform, rotate, scale) that is built for the current
    state and pushed as a history entry of its own, [execute] followed by
    [undo] gives every shape its fields back and leaves the scene with the
    same shapes; the order of the shape list is the original one unless the
    command is a remove, after which it is a permutation of it. *)
Theorem C4_execute_undo_restores (M : MathLib)
    (m : CommandManager.t) (command : Command) (w : World)
    (Hcap : 1 <= CommandManager.maxHistory m)
    (Hnomerge : forall lastCommand,
        last (CommandManager.undoStack m) = Some lastCommand ->
        Command.canMerge command lastCommand = false)
    (Hbuilt : well_built command w) :
  exists m' w',
    execute_then_undo M m command w = Some (m', w') /\
    (forall r, wheap w' r = wheap w r) /\
    Scene.shapes (wscene w') ≡ₚ Scene.shapes (wscene w) /\
    (is_remove command = false -> Scene.shapes (wscene w') = Scene.shapes (wscene w)).
Proof.
  destruct (execute_then_undo_pushed M m command w Hcap Hnomerge) as [m' Hrun].
  exists m', (Command.undo command (Command.execute M command w)).
  split; [exact Hrun|]. split; [apply undo_execute_heap, Hbuilt|].
  destruct command as [shape|shapesToRemove|shapes dx dy old|shapes property value old
                       |shapes before after|this|this].
  - pose proof (undo_execute_add M shape w Hbuilt) as Hshapes.
    split; [now rewrite Hshapes|]. intros _. exact Hshapes.
  - split; [exact (undo_execute_remove M _ w Hbuilt)|]. discriminate.
  - split; reflexivity.
  - split; reflexivity.
  - split; reflexivity.
  - split; reflexivity.
  - split; reflexivity.
Qed.

(** The removal of the counterexample, under the amended reading. *)
Lemma C4_remove_witness :
  exists m' w',
    execute_then_undo Scenario.trig (CommandManager.new None) (RemoveShapeCommand [0%nat])
                      Scenario.two_shapes = Some (m', w') /\
    (forall r, wheap w' r = wheap Scenario.two_shapes r) /\
    Scene.shapes (wscene w') ≡ₚ Scene.shapes (wscene Scenario.two_shapes) /\
    (is_remove (RemoveShapeCommand [0%nat]) = false ->
     Scene.shapes (wscene w') = Scene.shapes (wscene Scenario.two_shapes)).
Proof.
  apply (C4_execute_undo_restores Scenario.trig (CommandManager.new None)
           (RemoveShapeCommand [0%nat])
           Scenario.two_shapes).
  - vm_compute. discriminate.
  - intros lastCommand H. discriminate H.
  - split.
    + apply NoDup_singleton.
    + intros shape Hin. apply list_elem_of_singleton in Hin. subst shape.
      vm_compute. left.
Defined.

(** The classes that rewrite shapes, on the 20 by 20 rectangle "r1" at the
    origin: a modify command makes it 40 wide; a transform command puts it
    at (7, 8), 30 wide and turned by 90; a scale command by 2 and 3 about
    (5, 5) puts it at (-5, -10) with the size 40 by 60.  In each case [undo]
    gives the rectangle back as it was. *)
Lemma shape_commands_change_and_restore :
  let w := Scenario.two_shapes in
  let r1 := Scenario.rect "r1" 0 0 20 20 in
  let modify := Command.newModifyShapeCommand (wheap w) [0%nat] "width" (Some (JNum 40)) in
  let transform :=
    TransformCommand [0%nat]
      {[0%nat := TransformCommand.mkState 0 0 (Some 20) (Some 20) (Some 0) None None]}
      {[0%nat := TransformCommand.mkState 7 8 (Some 30) None (Some 90) None None]} in
  let scale := ScaleCommand (ScaleCommand.new (wheap w) [0%nat] 2 3 (Vector.mk 5 5)) in
  let after command := wheap (Command.execute Scenario.trig command w) 0%nat in
  let back command :=
    wheap (Command.undo command (Command.execute Scenario.trig command w)) 0%nat in
  wheap w 0%nat = r1 /\
  after modify = Shape.set_geom (RectGeom 40 20 0) r1 /\ back modify = r1 /\
  after transform
  = Shape.set_rotation 90 (Shape.set_geom (RectGeom 30 20 0)
                             (Shape.set_y 8 (Shape.set_x 7 r1))) /\
  back transform = r1 /\
  after scale
  = Shape.set_geom (RectGeom 40 60 0) (Shape.set_y (- (10)) (Shape.set_x (- (5)) r1)) /\
  back scale = r1.
Proof. vm_compute. repeat split; reflexivity. Qed.

(** ** Relay server *)

Lemma filter_set_add (P : conn -> Prop) `{forall c, Decision (P c)} (ws : conn) (l : list conn) :
  ~ P ws -> filter P (WebSocketService.set_add ws l) = filter P l.
Proof.
  intros Hnot. unfold WebSocketService.set_add.
  destruct (existsb (Nat.eqb ws) l); [reflexivity|].
  rewrite filter_app, filter_cons_False by exact Hnot.
  rewrite filter_nil. apply app_nil_r.
Qed.

Lemma members_after_join (st : WebSocketService.t) (roomId : string) (ws : conn)
    (clients' : gmap conn WebSocketService.ClientInfo) (db' : DB) (log' : list string) :
  WebSocketService.members
    (WebSocketService.mk clients'
       (<[roomId := WebSocketService.set_add ws (WebSocketService.members st roomId)]>
          (WebSocketService.rooms st)) db' log') roomId
  = WebSocketService.set_add ws (WebSocketService.members st roomId).
Proof. unfold WebSocketService.members at 1. simpl. now rewrite lookup_insert_eq. Qed.

(** Sent with no socket excluded, a message reaches every open member. *)
Lemma broadcast_all (readyState : conn -> nat) (st : WebSocketService.t)
    (roomId : string) (message : JSON) :
  WebSocketService.broadcast readyState st roomId message None
  = map (fun client => (client, message))
        (filter (fun client => readyState client = 1%nat) (WebSocketService.members st roomId)).
Proof.
  unfold WebSocketService.broadcast, WebSocketService.members.
  destruct (WebSocketService.rooms st !! roomId) as [room|]; [|reflexivity].
  simpl. f_equal. apply list_filter_iff. intros c. split; [tauto|]. intros Hc. now split.
Qed.

(** Sent with the joining socket excluded, it reaches every other open
    member. *)
Lemma broadcast_others (readyState : conn -> nat) (st : WebSocketService.t)
    (roomId : string) (message : JSON) (ws : conn) :
  WebSocketService.broadcast readyState st roomId message (Some ws)
  = map (fun client => (client, message))
        (filter (fun client => client <> ws /\ readyState client = 1%nat)
                (WebSocketService.members st roomId)).
Proof.
  unfold WebSocketService.broadcast, WebSocketService.members.
  destruct (WebSocketService.rooms st !! roomId) as [room|]; [|reflexivity].
  simpl. f_equal. apply list_filter_iff. intros c.
  split; intros [H1 H2]; (split; [congruence|exact H2]).
Qed.

Lemma omap_agree {A B : Type} (f g : A -> option B) (l : list A) :
  (forall x, x ∈ l -> f x = g x) -> omap f l = omap g l.
Proof.
  induction l as [|x l IH]; intros Hfg; [reflexivity|].
  cbn. rewrite (Hfg x) by left. rewrite IH; [reflexivity|].
  intros y Hy. apply Hfg. now right.
Qed.

Lemma other_users_after_join (st : WebSocketService.t) (roomId : string) (ws : conn)
    (info : WebSocketService.ClientInfo) (db' : DB) (log' : list string) :
  WebSocketService.other_users
    (WebSocketService.mk (<[ws := info]> (WebSocketService.clients st))
       (<[roomId := WebSocketService.set_add ws (WebSocketService.members st roomId)]>
          (WebSocketService.rooms st)) db' log') roomId ws
  = WebSocketService.other_users st roomId ws.
Proof.
  unfold WebSocketService.other_users.
  rewrite members_after_join, filter_set_add by tauto.
  apply omap_agree. intros c Hc. apply list_elem_of_filter in Hc. destruct Hc as [Hc _].
  cbn [WebSocketService.clients]. now rewrite lookup_insert_ne by congruence.
Qed.

Lemma getRoom_after_addUser (now : Q) (db : DB) (roomId : string) (user : JSON) :
  exists room,
    RoomService.getRoom (RoomService.addUser now db roomId user) roomId
    = (RoomService.addUser now db roomId user, room) /\
    Room.shapes room = Room.shapes (RoomService.room_or_new db roomId) /\
    Room.version room = Room.version (RoomService.room_or_new db roomId).
Proof.
  unfold RoomService.getRoom, RoomService.addUser, RoomService.put. simpl.
  rewrite lookup_insert_eq. eexists. split; [reflexivity|]. split; reflexivity.
Qed.

(** What a join sends when the store answers. *)
Lemma handleJoin_sends (readyState : conn -> nat) (now : Q) (st : WebSocketService.t)
    (ws : conn) (roomId userId : string) (userData : option JSON) :
  readyState ws = 1%nat ->
  exists st' room',
    WebSocketService.handleJoin readyState no_faults now st ws roomId userId userData
    = (st',
       Some ((ws, WebSocketService.init_sync now
                    (WebSocketService.other_users st roomId ws) room') ::
             map (fun client => (client, WebSocketService.join_message now userId userData))
                 (filter (fun client => client <> ws /\ readyState client = 1%nat)
                         (WebSocketService.members st roomId)))) /\
    Room.shapes room' = Room.shapes (RoomService.room_or_new (WebSocketService.db st) roomId).
Proof.
  intros Hopen. unfold WebSocketService.handleJoin. simpl.
  destruct (getRoom_after_addUser now (WebSocketService.db st) roomId
              (WebSocketService.user_entry userId userData)) as (room & -> & Hshapes & _).
  eexists _, room. split; [|exact Hshapes].
  rewrite other_users_after_join, broadcast_others, members_after_join.
  rewrite filter_set_add by tauto.
  unfold WebSocketService.send. rewrite Hopen. reflexivity.
Qed.

(** The user data of the sockets of [sockets] other than [ws], for those
    that registered some. *)
Lemma other_users_spec (st : WebSocketService.t) (roomId : string) (ws : conn) (u : JSON) :
  u ∈ WebSocketService.other_users st roomId ws <->
  exists client info,
    client ∈ default [] (WebSocketService.rooms st !! roomId) /\ client <> ws /\
    WebSocketService.clients st !! client = Some info /\
    WebSocketService.user info = Some u /\ Json.truthy (Some u) = true.
Proof.
  unfold WebSocketService.other_users, WebSocketService.members.
  rewrite list_elem_of_omap. split.
  - intros (client & Hin & Hu). apply list_elem_of_filter in Hin. destruct Hin as [Hne Hin].
    destruct (WebSocketService.clients st !! client) as [info|] eqn:Hinfo; [|discriminate].
    cbn [mbind option_bind] in Hu.
    destruct (WebSocketService.user info) as [v|] eqn:Huser; [|discriminate].
    cbn [mbind option_bind] in Hu.
    destruct (Json.truthy (Some v)) eqn:Htruthy; [|discriminate].
    injection Hu as <-. now exists client, info.
  - intros (client & info & Hin & Hne & Hinfo & Huser & Htruthy).
    exists client. split; [apply list_elem_of_filter; now split|].
    rewrite Hinfo. cbn [mbind option_bind]. rewrite Huser. cbn [mbind option_bind].
    now rewrite Htruthy.
Qed.

Lemma get_join_data (now : Q) (userId : string) (userData : option JSON) :
  Json.get (WebSocketService.join_message now userId userData) "data" = userData.
Proof. destruct userData; reflexivity. Qed.

(** C7: a socket that joins a room whose stored record holds K shapes is
    sent one message, an [init_sync] whose data carries those K shape entries
    and, in the order of the room's sockets, the user data of every other
    socket of the room that registered some; every other open socket of the
    room is sent one notice of type [join] that carries the joiner's user id
    and user data, and nothing else is sent. *)
Theorem C7_join_sends_snapshot
    (readyState : conn -> nat) (now : Q) (st : WebSocketService.t)
    (ws : conn) (roomId userId : string) (userData : option JSON)
    (room : Room.t) (K : nat)
    (Hopen : readyState ws = 1%nat)
    (Hroom : db_rooms (WebSocketService.db st) !! roomId = Some room)
    (HK : length (Room.shapes room) = K) :
  let sockets := default [] (WebSocketService.rooms st !! roomId) in
  exists st' message notice shapes users,
    WebSocketService.handleJoin readyState no_faults now st ws roomId userId userData
    = (st',
       Some ((ws, message) ::
             map (fun client => (client, notice))
                 (filter (fun client => client <> ws /\ readyState client = 1%nat) sockets))) /\
    Json.get message "type" = Some (JStr "init_sync") /\
    Json.path message ["data"; "canvas"; "shapes"]%string = Some (JArr shapes) /\
    shapes = Room.shapes room /\ length shapes = K /\
    Json.path message ["data"; "users"]%string = Some (JArr users) /\
    users = omap (fun client =>
                    info ← WebSocketService.clients st !! client;
                    u ← WebSocketService.user info;
                    if Json.truthy (Some u) then Some u else None)
                 (filter (fun client => client <> ws) sockets) /\
    (forall u, u ∈ users <->
       exists client info,
         client ∈ sockets /\ client <> ws /\
         WebSocketService.clients st !! client = Some info /\
         WebSocketService.user info = Some u /\ Json.truthy (Some u) = true) /\
    Json.get notice "type" = Some (JStr "join") /\
    Json.get notice "userId" = Some (JStr userId) /\
    Json.get notice "timestamp" = Some (JNum now) /\
    Json.get notice "data" = userData.
Proof.
  intros sockets.
  destruct (handleJoin_sends readyState now st ws roomId userId userData Hopen)
    as (st' & room' & Hrun & Hshapes).
  exists st', (WebSocketService.init_sync now (WebSocketService.other_users st roomId ws) room'),
    (WebSocketService.join_message now userId userData), (Room.shapes room),
    (WebSocketService.other_users st roomId ws).
  split; [exact Hrun|]. split; [reflexivity|]. split.
  { cbn. rewrite Hshapes. unfold RoomService.room_or_new. now rewrite Hroom. }
  split; [reflexivity|]. split; [exact HK|]. split; [reflexivity|].
  split; [reflexivity|]. split; [intros u; apply other_users_spec|].
  split; [reflexivity|]. split; [reflexivity|]. split; [reflexivity|].
  apply get_join_data.
Qed.

(** Socket 3 joins "room" with its user data while the sockets 1 and 2
    are connected and the stored record holds one shape: it is sent the
    snapshot with that shape and the user data of A and B, and the sockets 1
    and 2 are sent the notice. *)
Lemma C7_join_witness :
  exists st' message notice,
    WebSocketService.handleJoin Scenario.all_open no_faults 0 Scenario.relay_with_users
                                3%nat "room" "C" (Some (Scenario.user_data "User-C" "#0000cc"))
    = (st', Some [(3%nat, message); (1%nat, notice); (2%nat, notice)]) /\
    Json.get message "type" = Some (JStr "init_sync") /\
    Json.path message ["data"; "canvas"; "shapes"]%string
    = Some (JArr (Room.shapes Scenario.stored_room)) /\
    length (Room.shapes Scenario.stored_room) = 1%nat /\
    Json.path message ["data"; "users"]%string
    = Some (JArr [Scenario.user_data "User-A" "#aa0000"; Scenario.user_data "User-B" "#00bb00"]) /\
    Json.get notice "type" = Some (JStr "join") /\
    Json.get notice "userId" = Some (JStr "C") /\
    Json.get notice "data" = Some (Scenario.user_data "User-C" "#0000cc").
Proof.
  destruct (C7_join_sends_snapshot Scenario.all_open 0 Scenario.relay_with_users
              3%nat "room" "C" (Some (Scenario.user_data "User-C" "#0000cc"))
              Scenario.stored_room 1%nat eq_refl eq_refl eq_refl)
    as (st' & message & notice & shapes & users & Hrun & Htype & Hshapes & -> & Hlen
        & Husers & -> & _ & Hntype & Hnuser & _ & Hndata).
  exists st', message, notice.
  split; [exact Hrun|]. split; [exact Htype|]. split; [exact Hshapes|].
  split; [exact Hlen|]. split; [exact Husers|].
  split; [exact Hntype|]. split; [exact Hnuser|exact Hndata].
Defined.

Lemma persist_mutation_throws (f : DbFaults) (db : DB) (roomId userId : string) (cmd : JSON) :
  is_Some_b (WebSocketService.mutation roomId cmd) = true ->
  mutation_throws f = true ->
  WebSocketService.persist f db roomId userId cmd = (db, true).
Proof.
  intros Hcall Hthrows. unfold WebSocketService.persist.
  now rewrite Hcall, Hthrows.
Qed.

Lemma createShape_toJSON (uuid : string) (s : Shape.t) :
  Shape.name s <> ""%string ->
  createShapeFromJSON uuid (Shape.toJSON s) = Some (rebuilt uuid s).
Proof.
  intros Hn. destruct s as [id name x y rot sx sy vis lock z g]. simpl in *.
  destruct g; simpl; unfold Shape.Rect_fromJSON, Shape.Circle_fromJSON, Shape.fromJSON,
    rebuilt; simpl; (destruct (String.eqb_spec name ""); [contradiction|]); reflexivity.
Qed.

Lemma toJSON_is_object (s : Shape.t) : exists fields, Shape.toJSON s = JObj fields.
Proof. unfold Shape.toJSON. destruct (Shape.geom s); eexists; reflexivity. Qed.

Lemma applyRemote_add (uuid : string) (w : World) (s : Shape.t) :
  Shape.name s <> ""%string ->
  Collab.applyRemote uuid w
    (JObj [("type", JStr "add-shape"); ("shape", Shape.toJSON s)]%string)
  = with_new_shape w (rebuilt uuid s).
Proof.
  intros Hn. unfold Collab.applyRemote.
  change (Json.get (JObj [("type", JStr "add-shape"); ("shape", Shape.toJSON s)]%string) "type")
    with (Some (JStr "add-shape")).
  change (Json.get (JObj [("type", JStr "add-shape"); ("shape", Shape.toJSON s)]%string) "shape")
    with (Some (Shape.toJSON s)).
  cbv iota. cbv beta.
  rewrite (createShape_toJSON uuid s Hn).
  destruct (toJSON_is_object s) as [fields Hf]. rewrite Hf. reflexivity.
Qed.

(** A client that is not in the middle of a remote change and is handed
    the envelope of a command applies that command. *)
Lemma onMessage_envelope (uuid : ref -> string) (c : Collab.Client) (now : Q)
    (userId : string) (commandData operation cmd : JSON) :
  Json.get commandData "operation" = Some operation ->
  Json.get operation "command" = Some cmd ->
  Json.truthy (Some cmd) = true ->
  Collab.isReceivingRemoteChange c = false ->
  Collab.onMessage uuid c (WebSocketService.command_envelope now userId commandData)
  = Collab.with_world
      (Collab.applyRemote (uuid (nextRef (Collab.world c))) (Collab.world c) cmd) c.
Proof.
  intros Hoperation Hcommand Htruthy Hidle.
  unfold Collab.onMessage, WebSocketService.command_envelope.
  change (Json.get (JObj [("type", JStr "command"); ("userId", JStr userId);
                          ("timestamp", JNum now); ("data", commandData)]%string) "type")
    with (Some (JStr "command")).
  cbv iota. cbv beta. unfold Collab.onCommandMessage.
  change (Json.get (JObj [("type", JStr "command"); ("userId", JStr userId);
                          ("timestamp", JNum now); ("data", commandData)]%string) "data")
    with (Some commandData).
  cbv iota. cbv beta. unfold Collab.handleRemoteCommand.
  now rewrite Hidle, Hoperation, Hcommand, Htruthy.
Qed.

(** C9: when the attempt to persist a relayed command throws, at the
    mutation or at the operation record, the error is logged and every open
    socket of the room is still sent one envelope of type [command] that
    carries the sender's user id and the command data as they came; a client
    that handles this envelope applies the command, so for an add command it
    ends with the new shape in its scene; and when it is the mutation that
    threw, the stored room is as before, and so is the shape snapshot of any
    later [init_sync]. *)
Theorem C9_failed_persistence_still_broadcasts
    (readyState : conn -> nat) (f : DbFaults) (now : Q) (st : WebSocketService.t)
    (ws : conn) (roomId userId : string) (commandData operation cmd : JSON)
    (Hoperation : Json.get commandData "operation" = Some operation)
    (Hcommand : Json.get operation "command" = Some cmd)
    (Htruthy : Json.truthy (Some cmd) = true)
    (Hthrew : (WebSocketService.persist f (WebSocketService.db st) roomId userId cmd).2 = true) :
  let result := WebSocketService.handleCommand readyState f now st ws roomId userId commandData in
  let sockets := default [] (WebSocketService.rooms st !! roomId) in
  exists envelope,
    result.2 = map (fun client => (client, envelope))
                   (filter (fun client => readyState client = 1%nat) sockets) /\
    Json.get envelope "type" = Some (JStr "command") /\
    Json.get envelope "userId" = Some (JStr userId) /\
    Json.get envelope "timestamp" = Some (JNum now) /\
    Json.get envelope "data" = Some commandData /\
    (forall (uuid : ref -> string) (c : Collab.Client),
       Collab.isReceivingRemoteChange c = false ->
       Collab.onMessage uuid c envelope
       = Collab.with_world
           (Collab.applyRemote (uuid (nextRef (Collab.world c))) (Collab.world c) cmd) c /\
       forall s : Shape.t,
         cmd = JObj [("type", JStr "add-shape"); ("shape", Shape.toJSON s)]%string ->
         Shape.name s <> ""%string ->
         let w := Collab.world c in
         let shape := Shape.mk (if String.eqb (Shape.id s) "" then uuid (nextRef w)
                                else Shape.id s)
                               (Shape.name s) (Shape.x s) (Shape.y s) (Shape.rotation s)
                               (Shape.scaleX s) (Shape.scaleY s) true false 0 (Shape.geom s) in
         let h := upd (wheap w) (nextRef w) shape in
         Collab.world (Collab.onMessage uuid c envelope)
         = mkWorld h (Scene.add h (wscene w) (nextRef w)) (S (nextRef w))) /\
    WebSocketService.log result.1 = WebSocketService.log st ++ ["[WS] Command error"]%string /\
    (is_Some_b (WebSocketService.mutation roomId cmd) = true ->
     mutation_throws f = true ->
     WebSocketService.db result.1 = WebSocketService.db st /\
     forall (ws2 : conn) (now2 : Q) (userId2 : string) (userData2 : option JSON),
       readyState ws2 = 1%nat ->
       exists st2 message others,
         WebSocketService.handleJoin readyState no_faults now2 result.1 ws2 roomId userId2 userData2
         = (st2, Some ((ws2, message) :: others)) /\
         Json.path message ["data"; "canvas"; "shapes"]%string
         = Some (JArr (Room.shapes (RoomService.room_or_new (WebSocketService.db st) roomId)))).
Proof.
  intros result sockets. subst result sockets.
  exists (WebSocketService.command_envelope now userId commandData).
  unfold WebSocketService.handleCommand. rewrite Hoperation, Hcommand, Htruthy.
  destruct (WebSocketService.persist f (WebSocketService.db st) roomId userId cmd)
    as [db' threw] eqn:Hpersist.
  simpl in Hthrew. subst threw. cbn zeta. cbn [fst snd WebSocketService.log WebSocketService.db].
  split; [apply broadcast_all|].
  split; [reflexivity|]. split; [reflexivity|]. split; [reflexivity|]. split; [reflexivity|].
  split.
  { intros uuid c Hidle.
    pose proof (onMessage_envelope uuid c now userId commandData operation cmd
                  Hoperation Hcommand Htruthy Hidle) as Happlied.
    split; [exact Happlied|].
    intros s -> Hname. cbv zeta. rewrite Happlied. unfold Collab.with_world.
    cbn [Collab.world]. now rewrite applyRemote_add. }
  split; [reflexivity|].
  intros Hcall Hthrows.
  rewrite (persist_mutation_throws f _ roomId userId cmd Hcall Hthrows) in Hpersist.
  injection Hpersist as <-. split; [reflexivity|].
  intros ws2 now2 userId2 userData2 Hopen.
  destruct (handleJoin_sends readyState now2
              (WebSocketService.mk (WebSocketService.clients st) (WebSocketService.rooms st)
                 (WebSocketService.db st)
                 (WebSocketService.log st ++ ["[WS] Command error"]%string))
              ws2 roomId userId2 userData2 Hopen) as (st2 & room' & Hrun & Hshapes).
  eexists st2, _, _. split; [exact Hrun|]. cbn. now rewrite Hshapes.
Qed.

(** A rectangle "s2" is added while the store refuses the mutation: the
    sockets 1 and 2 are sent the envelope and the error is logged; client B,
    which handles the envelope, ends with "s2" in its scene at (0, 0); the
    store keeps no trace of the shape, and a socket that joins afterwards is
    sent an empty snapshot. *)
Lemma C9_store_down_witness :
  let result := WebSocketService.handleCommand Scenario.all_open Scenario.store_down 0
                  Scenario.relay 1%nat "room" "A" Scenario.add_s2 in
  exists envelope,
    result.2 = [(1%nat, envelope); (2%nat, envelope)] /\
    Json.get envelope "type" = Some (JStr "command") /\
    Json.get envelope "data" = Some Scenario.add_s2 /\
    Scenario.position_of Scenario.clientB "s2" = None /\
    Scenario.position_of (Collab.onMessage (fun _ => "fresh"%string) Scenario.clientB envelope) "s2"
    = Some (0, 0) /\
    WebSocketService.log result.1 = ["[WS] Command error"]%string /\
    WebSocketService.db result.1 = WebSocketService.db Scenario.relay /\
    exists st2 message others,
      WebSocketService.handleJoin Scenario.all_open no_faults 1 result.1 3%nat "room" "C" None
      = (st2, Some ((3%nat, message) :: others)) /\
      Json.path message ["data"; "canvas"; "shapes"]%string = Some (JArr []).
Proof.
  destruct (C9_failed_persistence_still_broadcasts Scenario.all_open Scenario.store_down 0
              Scenario.relay 1%nat "room" "A" Scenario.add_s2
              (JObj [("command",
                      JObj [("type", JStr "add-shape");
                            ("shape", Shape.toJSON (Scenario.rect "s2" 0 0 20 20))])]%string)
              (JObj [("type", JStr "add-shape");
                     ("shape", Shape.toJSON (Scenario.rect "s2" 0 0 20 20))]%string)
              eq_refl eq_refl eq_refl eq_refl)
    as (envelope & Hsends & Htype & _ & _ & Hdata & Hclient & Hlog & Hstore).
  exists envelope.
  split; [exact Hsends|]. split; [exact Htype|]. split; [exact Hdata|].
  split; [reflexivity|]. split.
  { destruct (Hclient (fun _ => "fresh"%string) Scenario.clientB eq_refl) as [Happlied _].
    rewrite Happlied. vm_compute. reflexivity. }
  split; [exact Hlog|].
  destruct (Hstore eq_refl eq_refl) as [Hdb Hlater].
  split; [exact Hdb|].
  exact (Hlater 3%nat 1 "C"%string None eq_refl).
Defined.

(** The failure needs no fault at the store: the operation schema lists
    [delete-shape] but not [remove-shape], so the record of a relayed
    [remove-shape] is rejected after the shape has been pulled from the room,
    and the command is broadcast all the same. *)
Lemma remove_shape_record_is_rejected :
  let commandData :=
    JObj [("operation",
           JObj [("command",
                  JObj [("type", JStr "remove-shape"); ("shapeId", JStr "s1")])])]%string in
  let result := WebSocketService.handleCommand Scenario.all_open no_faults 0
                  Scenario.relay_with_room 1%nat "room" "A" commandData in
  WebSocketService.log result.1 = ["[WS] Command error"]%string /\
  option_map Room.shapes (db_rooms (WebSocketService.db result.1) !! "room"%string) = Some [] /\
  db_operations (WebSocketService.db result.1) = [] /\
  map fst result.2 = [1%nat; 2%nat].
Proof. vm_compute. repeat split; reflexivity. Qed.

(** * Further properties *)

(** ** Boxes *)

Lemma contains_spec (a b : AABB.t) :
  AABB.contains a b = true <->
  AABB.minX a <= AABB.minX b /\ AABB.maxX b <= AABB.maxX a /\
  AABB.minY a <= AABB.minY b /\ AABB.maxY b <= AABB.maxY a.
Proof.
  unfold AABB.contains. rewrite !andb_true_iff, !Qle_bool_true. tauto.
Qed.

Lemma fromPoints_fold (rest : list Vector.t) :
  forall b0 : AABB.t,
    let b := fold_left AABB.expandToInclude rest b0 in
    AABB.contains b b0 = true /\
    (forall q, q ∈ rest -> AABB.containsPoint b q = true) /\
    (forall b', AABB.contains b' b0 = true ->
                (forall q, q ∈ rest -> AABB.containsPoint b' q = true) ->
                AABB.contains b' b = true).
Proof.
  induction rest as [|p rest IH]; intros b0; simpl.
  - split; [apply contains_spec; repeat split; apply Qle_refl|].
    split; [intros q Hq; inversion Hq|]. intros b' Hb' _. exact Hb'.
  - destruct (IH (AABB.expandToInclude b0 p)) as (Hc & Hin & Htight).
    set (b := fold_left AABB.expandToInclude rest (AABB.expandToInclude b0 p)) in *.
    apply contains_spec in Hc. simpl in Hc. destruct Hc as (H1 & H2 & H3 & H4).
    pose proof (Q.le_min_l (AABB.minX b0) (Vector.x p)).
    pose proof (Q.le_min_r (AABB.minX b0) (Vector.x p)).
    pose proof (Q.le_min_l (AABB.minY b0) (Vector.y p)).
    pose proof (Q.le_min_r (AABB.minY b0) (Vector.y p)).
    pose proof (Q.le_max_l (AABB.maxX b0) (Vector.x p)).
    pose proof (Q.le_max_r (AABB.maxX b0) (Vector.x p)).
    pose proof (Q.le_max_l (AABB.maxY b0) (Vector.y p)).
    pose proof (Q.le_max_r (AABB.maxY b0) (Vector.y p)).
    split; [apply contains_spec; repeat split; lra|]. split.
    + intros q Hq. apply elem_of_cons in Hq. destruct Hq as [->|Hq]; [|now apply Hin].
      apply containsPoint_spec. repeat split; lra.
    + intros b' Hb' Hall. apply Htight.
      * apply contains_spec in Hb'. destruct Hb' as (K1 & K2 & K3 & K4).
        assert (Hp : AABB.containsPoint b' p = true) by (apply Hall; left).
        apply containsPoint_spec in Hp. destruct Hp as (P1 & P2 & P3 & P4).
        apply contains_spec. simpl.
        repeat split; first [apply Q.min_glb|apply Q.max_lub]; assumption.
      * intros q Hq. apply Hall. now right.
Qed.

(** X1: [fromPoints] of a non-empty list is the smallest box holding every
    point of the list; of the empty list it is the zero box. *)
Theorem fromPoints_is_tight_box (first : Vector.t) (rest : list Vector.t) :
  let b := AABB.fromPoints (first :: rest) in
  (forall q, q ∈ first :: rest -> AABB.containsPoint b q = true) /\
  (forall b', (forall q, q ∈ first :: rest -> AABB.containsPoint b' q = true) ->
              AABB.contains b' b = true) /\
  AABB.ordered b /\
  AABB.fromPoints [] = AABB.mk 0 0 0 0.
Proof.
  cbv zeta. unfold AABB.fromPoints.
  change (fold_left _ rest ?b0) with (fold_left AABB.expandToInclude rest b0).
  destruct (fromPoints_fold rest
              (AABB.mk (Vector.x first) (Vector.y first) (Vector.x first) (Vector.y first)))
    as (Hc & Hin & Htight).
  set (b := fold_left AABB.expandToInclude rest _) in *.
  apply contains_spec in Hc. simpl in Hc. destruct Hc as (H1 & H2 & H3 & H4).
  split; [|split; [|split; [|reflexivity]]].
  - intros q Hq. apply elem_of_cons in Hq. destruct Hq as [->|Hq]; [|now apply Hin].
    apply containsPoint_spec. tauto.
  - intros b' Hall. apply Htight.
    + assert (Hp : AABB.containsPoint b' first = true) by (apply Hall; left).
      apply containsPoint_spec in Hp. apply contains_spec. simpl. tauto.
    + intros q Hq. apply Hall. now right.
  - split; lra.
Qed.

(** X2: [merge] is the least box that contains both operands. *)
Theorem merge_is_least_upper_bound (a b : AABB.t) :
  AABB.contains (AABB.merge a b) a = true /\
  AABB.contains (AABB.merge a b) b = true /\
  (forall c, AABB.contains c a = true -> AABB.contains c b = true ->
             AABB.contains c (AABB.merge a b) = true) /\
  AABB.equiv (AABB.merge a b) (AABB.merge b a) /\
  AABB.equiv (AABB.merge a a) a.
Proof.
  pose proof (Q.le_min_l (AABB.minX a) (AABB.minX b)).
  pose proof (Q.le_min_r (AABB.minX a) (AABB.minX b)).
  pose proof (Q.le_min_l (AABB.minY a) (AABB.minY b)).
  pose proof (Q.le_min_r (AABB.minY a) (AABB.minY b)).
  pose proof (Q.le_max_l (AABB.maxX a) (AABB.maxX b)).
  pose proof (Q.le_max_r (AABB.maxX a) (AABB.maxX b)).
  pose proof (Q.le_max_l (AABB.maxY a) (AABB.maxY b)).
  pose proof (Q.le_max_r (AABB.maxY a) (AABB.maxY b)).
  split; [apply contains_spec; simpl; tauto|].
  split; [apply contains_spec; simpl; tauto|].
  split.
  - intros c Ha Hb. apply contains_spec in Ha, Hb. apply contains_spec. simpl.
    destruct Ha as (?&?&?&?), Hb as (?&?&?&?).
    repeat split; first [apply Q.min_glb|apply Q.max_lub]; assumption.
  - split.
    + unfold AABB.equiv. simpl.
      repeat split; first [apply Q.min_comm|apply Q.max_comm].
    + unfold AABB.equiv. simpl.
      repeat split; first [apply Q.min_id|apply Q.max_id].
Qed.

(** [contains] orders the boxes: it is reflexive and transitive, a box
    holds every point of a box it contains, and it intersects every
    non-inverted box it contains. *)
Theorem contains_is_an_order (a b c : AABB.t) (p : Vector.t) :
  AABB.contains a a = true /\
  (AABB.contains a b = true -> AABB.contains b c = true -> AABB.contains a c = true) /\
  (AABB.contains a b = true -> AABB.containsPoint b p = true ->
   AABB.containsPoint a p = true) /\
  (AABB.contains a b = true -> AABB.ordered b -> AABB.intersects a b = true).
Proof.
  rewrite !contains_spec, !containsPoint_spec, intersects_spec. unfold AABB.ordered.
  repeat split; try apply Qle_refl; intuition lra.
Qed.

(** X3: a non-inverted box is recovered from its four corners. *)
Theorem box_of_corners (b : AABB.t) :
  AABB.ordered b -> AABB.equiv (AABB.fromPoints (AABB.getCorners b)) b.
Proof.
  intros [Hx Hy]. unfold AABB.equiv. simpl.
  repeat split.
  - rewrite (Q.min_l _ _ Hx), (Q.min_l _ _ Hx). apply Q.min_id.
  - rewrite Q.min_id. rewrite (Q.min_l _ _ Hy). apply Q.min_l, Hy.
  - rewrite (Q.max_r _ _ Hx), Q.max_id. apply Q.max_l, Hx.
  - rewrite Q.max_id, (Q.max_r _ _ Hy). apply Q.max_id.
Qed.

Lemma box_of_corners_witness :
  AABB.ordered (AABB.mk 0 0 2 1) /\
  AABB.equiv (AABB.fromPoints (AABB.getCorners (AABB.mk 0 0 2 1))) (AABB.mk 0 0 2 1).
Proof.
  assert (H : AABB.ordered (AABB.mk 0 0 2 1)) by (split; simpl; lra).
  split; [exact H|apply (box_of_corners _ H)].
Defined.

(** ** Shapes of zero scale *)

Lemma invert_None (m : Matrix.t) :
  Matrix.determinant m == 0 -> Matrix.invert m = None.
Proof.
  unfold Matrix.invert, Matrix.determinant. intros H.
  apply Qeq_bool_iff in H. now rewrite H.
Qed.

Lemma local_determinant (M : MathLib) (s : Shape.t) :
  Matrix.determinant (Shape.getWorldMatrix M s) ==
  Shape.scaleX s * Shape.scaleY s *
  (Math_cos M (Shape.rotation s) * Math_cos M (Shape.rotation s) +
   Math_sin M (Shape.rotation s) * Math_sin M (Shape.rotation s)).
Proof.
  unfold Matrix.determinant, Shape.getWorldMatrix, Shape.getLocalMatrix. simpl. ring.
Qed.

Lemma zero_scale_no_hit_test (M : MathLib) (s : Shape.t) (p : Vector.t) :
  Shape.scaleX s == 0 \/ Shape.scaleY s == 0 ->
  Shape.hitTest M s p = None.
Proof.
  intros H.
  assert (Hd : Matrix.determinant (Shape.getWorldMatrix M s) == 0).
  { rewrite local_determinant. destruct H as [H|H]; rewrite H; ring. }
  apply invert_None in Hd.
  unfold Shape.hitTest, Shape.worldToLocal, Shape.getInverseWorldMatrix.
  rewrite Hd. reflexivity.
Qed.

(** A shape whose [scaleX] or [scaleY] is zero has no inverse world
    matrix: its hit test and [worldToLocal] throw for every point. *)
Theorem zero_scale_hit_test_throws (M : MathLib) (s : Shape.t) (p : Vector.t) :
  Shape.scaleX s == 0 \/ Shape.scaleY s == 0 ->
  Shape.hitTest M s p = None /\ Shape.worldToLocal M s p = None.
Proof.
  intros H. split; [now apply zero_scale_no_hit_test|].
  assert (Hd : Matrix.determinant (Shape.getWorldMatrix M s) == 0).
  { rewrite local_determinant. destruct H as [H|H]; rewrite H; ring. }
  apply invert_None in Hd.
  unfold Shape.worldToLocal, Shape.getInverseWorldMatrix. rewrite Hd. reflexivity.
Qed.

Lemma zero_scale_witness :
  Shape.hitTest Scenario.trig
    (Shape.mk "r1" "Rectangle" 0 0 0 0 1 true false 0 (RectGeom 20 20 0))
    (Vector.mk 1 1) = None /\
  Shape.worldToLocal Scenario.trig
    (Shape.mk "r1" "Rectangle" 0 0 0 0 1 true false 0 (RectGeom 20 20 0))
    (Vector.mk 1 1) = None.
Proof. apply zero_scale_hit_test_throws. left. reflexivity. Defined.

Lemma firstHit_app (h : heap) (M : MathLib) (p : Vector.t) (l1 l2 : list ref) :
  Scene.firstHit h M p (l1 ++ l2) =
  match Scene.firstHit h M p l1 with
  | Some None => Scene.firstHit h M p l2
  | r => r
  end.
Proof.
  induction l1 as [|a l1 IH]; simpl; [now destruct (Scene.firstHit h M p l2) as [[|]|]|].
  destruct (Shape.visible (h a) && negb (Shape.locked (h a))); [|exact IH].
  destruct (Shape.hitTest M (h a) p) as [[|]|]; simpl; auto.
Qed.

(** X8: without the index, a visible, unlocked shape of zero scale that is
    reached by the scan before any hit (every shape above it is hidden,
    locked or missed) makes the scene's hit test throw. *)
Theorem degenerate_shape_breaks_scene_hit_test
    (h : heap) (M : MathLib) (s : Scene.t) (p : Vector.t)
    (below above : list ref) (shape : ref) :
  Scene.useQuadTree s = false ->
  Scene.shapes s = below ++ shape :: above ->
  Scene.firstHit h M p (rev above) = Some None ->
  Shape.visible (h shape) = true ->
  Shape.locked (h shape) = false ->
  Shape.scaleX (h shape) == 0 \/ Shape.scaleY (h shape) == 0 ->
  Scene.hitTest h M s p = None.
Proof.
  intros Hq Hl Habove Hv Hk Hz. unfold Scene.hitTest. rewrite Hq, Hl.
  rewrite rev_app_distr. simpl. rewrite <- app_assoc, firstHit_app, Habove.
  simpl. rewrite Hv, Hk. simpl.
  rewrite (zero_scale_no_hit_test M (h shape) p Hz). reflexivity.
Qed.

Lemma degenerate_shape_witness :
  Scene.hitTest
    (fun r => match r with
              | O => Shape.mk "flat" "Rectangle" 0 0 0 0 1 true false 0 (RectGeom 20 20 0)
              | _ => Scenario.rect "r2" 100 100 20 20
              end)
    Scenario.trig
    (Scene.mk [0%nat; 1%nat] true None false true) (Vector.mk 0 0) = None.
Proof.
  apply (degenerate_shape_breaks_scene_hit_test _ _ _ _ [] [1%nat] 0%nat);
    try reflexivity.
  left. reflexivity.
Defined.

(** ** Serialised shapes *)

(** X9: a rectangle or circle with a non-empty id and name that goes through
    [toJSON] and the shape factory keeps its id, name, position, rotation,
    scale and geometry, and comes back visible, unlocked and at z-index 0
    whatever these were; with an empty id it gets a fresh one. *)
Theorem shape_json_round_trip (uuid : string) (s : Shape.t) :
  Shape.name s <> ""%string ->
  createShapeFromJSON uuid (Shape.toJSON s) =
  Some (Shape.mk (if String.eqb (Shape.id s) "" then uuid else Shape.id s)
                 (Shape.name s) (Shape.x s) (Shape.y s)
                 (Shape.rotation s) (Shape.scaleX s) (Shape.scaleY s)
                 true false 0 (Shape.geom s)).
Proof.
  intros Hn. destruct s as [id name x y rot sx sy vis lock z g]. simpl in *.
  destruct g; simpl; unfold Shape.Rect_fromJSON, Shape.Circle_fromJSON, Shape.fromJSON;
    simpl; (destruct (String.eqb_spec name ""); [contradiction|]); reflexivity.
Qed.

Lemma shape_json_round_trip_witness :
  createShapeFromJSON "fresh"
    (Shape.toJSON (Shape.mk "c1" "Circle" 3 4 1 2 2 false true 7 (CircleGeom 5))) =
  Some (Shape.mk "c1" "Circle" 3 4 1 2 2 true false 0 (CircleGeom 5)).
Proof. apply (shape_json_round_trip "fresh"). discriminate. Defined.

(** ** What the index returns *)

Section IndexQueries.
Variable h : heap.
Local Abbreviation bbox := (QuadTreeNode.bbox h).
Local Abbreviation found p n r := (r ∈ QuadTreeNode.queryPoint h p n []).
Local Abbreviation in_range range n r := (r ∈ QuadTreeNode.query h range n []).

Lemma found_stored p n r :
  found p n r -> r ∈ stored n /\ AABB.containsPoint (bbox r) p = true.
Proof.
  revert r. induction n as [b l|b l c0 IH0 c1 IH1 c2 IH2 c3 IH3]; intros r.
  - rewrite found_unsplit. simpl. tauto.
  - rewrite found_split. simpl. rewrite !elem_of_app.
    intros [_ [[Hl Hb]|[Hc|[Hc|[Hc|Hc]]]]]; [tauto| | | |].
    + destruct (IH0 _ Hc); tauto.
    + destruct (IH1 _ Hc); tauto.
    + destruct (IH2 _ Hc); tauto.
    + destruct (IH3 _ Hc); tauto.
Qed.

Lemma stored_push n s r : r ∈ stored (QuadTreeNode.push n s) -> r ∈ stored n \/ r = s.
Proof.
  destruct n; simpl; rewrite ?elem_of_app, ?list_elem_of_singleton; tauto.
Qed.

Lemma insertIntoChildren_sound ins n s r :
  insert_sound ins ->
  r ∈ stored (QuadTreeNode.insertIntoChildren ins n s) -> r ∈ stored n \/ r = s.
Proof.
  intros Hins. destruct n as [b l|b l c0 c1 c2 c3]; [simpl; tauto|].
  pose proof (Hins c0 s r) as K0. pose proof (Hins c1 s r) as K1.
  pose proof (Hins c2 s r) as K2. pose proof (Hins c3 s r) as K3.
  unfold QuadTreeNode.insertIntoChildren.
  destruct (ins c0 s) as [c0' i0], (ins c1 s) as [c1' i1],
    (ins c2 s) as [c2' i2], (ins c3 s) as [c3' i3].
  cbn [fst snd] in *. cbv zeta. simpl.
  destruct (i0 || i1 || i2 || i3);
    rewrite ?elem_of_app, ?list_elem_of_singleton; tauto.
Qed.

Lemma reinsert_sound ins n s r :
  insert_sound ins ->
  r ∈ stored (QuadTreeNode.reinsert h ins n s) -> r ∈ stored n \/ r = s.
Proof.
  intros Hins. unfold QuadTreeNode.reinsert.
  destruct (negb _); [tauto|]. now apply insertIntoChildren_sound.
Qed.

Lemma subdivide_sound ins n r :
  insert_sound ins -> r ∈ stored (QuadTreeNode.subdivide h ins n) -> r ∈ stored n.
Proof.
  intros Hins. unfold QuadTreeNode.subdivide.
  destruct n as [b l|b l c0 c1 c2 c3]; simpl QuadTreeNode.isSubdivided; cbv iota;
    [|tauto].
  simpl QuadTreeNode.shapes. simpl QuadTreeNode.bounds.
  assert (Hgen : forall l0 n0,
             r ∈ stored (fold_left (QuadTreeNode.reinsert h ins) l0 n0) ->
             r ∈ stored n0 \/ r ∈ l0).
  { induction l0 as [|a l0 IH]; intros n0; simpl; [tauto|].
    intros Hr. destruct (IH _ Hr) as [H1|H1].
    - destruct (reinsert_sound _ _ _ _ Hins H1) as [H2| ->]; [now left|].
      right. left.
    - right. now right. }
  intros Hr. destruct (Hgen _ _ Hr) as [H1|H1]; [|exact H1].
  simpl in H1. inversion H1.
Qed.

Lemma insert_insert_sound (capacity levels : nat) :
  insert_sound (QuadTreeNode.insert h capacity levels).
Proof.
  induction levels as [|levels IH]; intros n s r.
  - simpl. destruct (negb _); [simpl; tauto|].
    destruct (_ && _); simpl; apply stored_push.
  - simpl. destruct (negb _); [simpl; tauto|].
    destruct (_ && _); simpl; [apply stored_push|].
    intros Hr. apply (insertIntoChildren_sound _ _ _ _ IH) in Hr.
    destruct Hr as [Hr|Hr]; [|now right]. left.
    now apply (subdivide_sound _ _ _ IH).
Qed.

Lemma rebuild_sound (q : QuadTree.t) (shapes : list ref) (r : ref) :
  r ∈ stored (QuadTree.root (QuadTree.rebuild h q shapes)) -> r ∈ shapes.
Proof.
  unfold QuadTree.rebuild, QuadTree.insertAll.
  assert (Hgen : forall l q0,
             r ∈ stored (QuadTree.root (fold_left (QuadTree.insert h) l q0)) ->
             r ∈ stored (QuadTree.root q0) \/ r ∈ l).
  { induction l as [|a l IH]; intros q0; simpl; [tauto|].
    intros Hr. destruct (IH _ Hr) as [H1|H1]; [|right; now right].
    simpl in H1. apply insert_insert_sound in H1.
    destruct H1 as [H1| ->]; [now left|right; left]. }
  intros Hr. destruct (Hgen _ _ Hr) as [H1|H1]; [|exact H1].
  simpl in H1. inversion H1.
Qed.

Lemma rebuild_bounds (q : QuadTree.t) (shapes : list ref) :
  QuadTreeNode.bounds (QuadTree.root (QuadTree.rebuild h q shapes)) =
  QuadTreeNode.bounds (QuadTree.root q) /\
  covered (QuadTree.root (QuadTree.rebuild h q shapes)).
Proof.
  unfold QuadTree.rebuild, QuadTree.insertAll.
  assert (Hgen : forall l q0,
             covered (QuadTree.root q0) ->
             QuadTreeNode.bounds (QuadTree.root (fold_left (QuadTree.insert h) l q0)) =
             QuadTreeNode.bounds (QuadTree.root q0) /\
             covered (QuadTree.root (fold_left (QuadTree.insert h) l q0))).
  { induction l as [|a l IH]; intros q0 Hc; simpl; [tauto|].
    destruct (insert_insert_ok h (QuadTree.capacity q0) (QuadTree.maxDepth q0)
                (QuadTree.root q0) a Hc) as (C1 & B1 & _).
    destruct (IH (QuadTree.insert h q0 a) C1) as (B2 & C2).
    split; [|exact C2]. rewrite B2. simpl. exact B1. }
  destruct (Hgen shapes (QuadTree.clear q) I) as (B & C). split; [|exact C].
  rewrite B. reflexivity.
Qed.

(** X10: after a rebuild, a point query returns exactly the shapes of the
    list whose local box contains the point, provided the point is inside
    the indexed region; outside it the query returns nothing. *)
Theorem point_query_is_exact (q : QuadTree.t) (shapes : list ref)
    (p : Vector.t) (r : ref) :
  r ∈ QuadTree.queryPoint h (QuadTree.rebuild h q shapes) p <->
  r ∈ shapes /\
  AABB.containsPoint (QuadTreeNode.bounds (QuadTree.root q)) p = true /\
  AABB.containsPoint (Shape.getBoundingBox (h r)) p = true.
Proof.
  split.
  - intros Hr. unfold QuadTree.queryPoint in Hr.
    pose proof (found_in_bounds h _ _ _ Hr) as Hb.
    rewrite (proj1 (rebuild_bounds q shapes)) in Hb.
    destruct (found_stored _ _ _ Hr) as [Hs Hbox].
    split; [now apply (rebuild_sound q)|]. split; [exact Hb|exact Hbox].
  - intros (Hr & Hb & Hbox). now apply rebuilt_index_has_every_local_box.
Qed.

Lemma query_acc (range : AABB.t) (n : QuadTreeNode) :
  forall acc, QuadTreeNode.query h range n acc = acc ++ QuadTreeNode.query h range n [].
Proof.
  induction n as [b l|b l c0 IH0 c1 IH1 c2 IH2 c3 IH3]; intros acc; simpl.
  - destruct (negb _); [now rewrite app_nil_r|reflexivity].
  - destruct (negb _); [now rewrite app_nil_r|].
    rewrite IH3, IH2, IH1, IH0.
    rewrite (IH3 (QuadTreeNode.query h range c2 _)),
            (IH2 (QuadTreeNode.query h range c1 _)),
            (IH1 (QuadTreeNode.query h range c0 _)),
            (IH0 (filter _ l)).
    now rewrite <- !app_assoc.
Qed.

Lemma in_range_unsplit range b l r :
  in_range range (Unsplit b l) r <->
  AABB.intersects b range = true /\ r ∈ l /\ AABB.intersects range (bbox r) = true.
Proof.
  simpl. destruct (AABB.intersects b range); simpl.
  - rewrite list_elem_of_filter. tauto.
  - split; [intros H; inversion H|intros [H _]; discriminate].
Qed.

Lemma in_range_split range b l c0 c1 c2 c3 r :
  in_range range (Split b l c0 c1 c2 c3) r <->
  AABB.intersects b range = true /\
  ((r ∈ l /\ AABB.intersects range (bbox r) = true) \/
   in_range range c0 r \/ in_range range c1 r \/
   in_range range c2 r \/ in_range range c3 r).
Proof.
  simpl. destruct (AABB.intersects b range); simpl.
  - rewrite (query_acc range c3), (query_acc range c2), (query_acc range c1),
            (query_acc range c0).
    rewrite !elem_of_app, list_elem_of_filter. tauto.
  - split; [intros H; inversion H|intros [H _]; discriminate].
Qed.

Lemma in_range_stored range n r :
  in_range range n r -> r ∈ stored n /\ AABB.intersects range (bbox r) = true.
Proof.
  revert r. induction n as [b l|b l c0 IH0 c1 IH1 c2 IH2 c3 IH3]; intros r.
  - rewrite in_range_unsplit. simpl. tauto.
  - rewrite in_range_split. simpl. rewrite !elem_of_app.
    intros [_ [[Hl Hb]|[Hc|[Hc|[Hc|Hc]]]]]; [tauto| | | |].
    + destruct (IH0 _ Hc); tauto.
    + destruct (IH1 _ Hc); tauto.
    + destruct (IH2 _ Hc); tauto.
    + destruct (IH3 _ Hc); tauto.
Qed.

Lemma share_point_intersect (a b : AABB.t) (p : Vector.t) :
  AABB.containsPoint a p = true -> AABB.containsPoint b p = true ->
  AABB.intersects a b = true.
Proof.
  rewrite !containsPoint_spec, intersects_spec. intros (?&?&?&?) (?&?&?&?).
  repeat split; lra.
Qed.

Lemma found_in_range range p n r :
  AABB.containsPoint range p = true -> found p n r -> in_range range n r.
Proof.
  intros Hp. revert r.
  induction n as [b l|b l c0 IH0 c1 IH1 c2 IH2 c3 IH3]; intros r.
  - rewrite found_unsplit, in_range_unsplit. intros (Hb & Hl & Hbox).
    split; [now apply (share_point_intersect _ _ p)|].
    split; [exact Hl|now apply (share_point_intersect _ _ p)].
  - rewrite found_split, in_range_split.
    intros [Hb [[Hl Hbox]|[Hc|[Hc|[Hc|Hc]]]]];
      (split; [now apply (share_point_intersect _ _ p)|]).
    + left. split; [exact Hl|now apply (share_point_intersect _ _ p)].
    + right; left; auto.
    + right; right; left; auto.
    + right; right; right; left; auto.
    + right; right; right; right; auto.
Qed.

Lemma common_point (a b : AABB.t) :
  AABB.ordered a -> AABB.ordered b -> AABB.intersects a b = true ->
  let p := Vector.mk (Qmax (AABB.minX a) (AABB.minX b)) (Qmax (AABB.minY a) (AABB.minY b)) in
  AABB.containsPoint a p = true /\ AABB.containsPoint b p = true.
Proof.
  intros [Ha1 Ha2] [Hb1 Hb2] Hi. apply intersects_spec in Hi.
  destruct Hi as (I1 & I2 & I3 & I4). cbv zeta.
  rewrite !containsPoint_spec. simpl.
  pose proof (Q.le_max_l (AABB.minX a) (AABB.minX b)).
  pose proof (Q.le_max_r (AABB.minX a) (AABB.minX b)).
  pose proof (Q.le_max_l (AABB.minY a) (AABB.minY b)).
  pose proof (Q.le_max_r (AABB.minY a) (AABB.minY b)).
  repeat split; try assumption; apply Q.max_lub; assumption.
Qed.

Lemma range_query_sound (q : QuadTree.t) (shapes : list ref) (range : AABB.t) (r : ref) :
  r ∈ QuadTree.query h (QuadTree.rebuild h q shapes) range ->
  r ∈ shapes /\ AABB.intersects range (Shape.getBoundingBox (h r)) = true.
Proof.
  intros Hr. destruct (in_range_stored _ _ _ Hr) as [Hs Hi].
  split; [now apply (rebuild_sound q)|exact Hi].
Qed.

Lemma range_query_complete (q : QuadTree.t) (shapes : list ref) (range : AABB.t) (r : ref) :
  AABB.ordered range ->
  AABB.ordered (Shape.getBoundingBox (h r)) ->
  AABB.contains (QuadTreeNode.bounds (QuadTree.root q)) (Shape.getBoundingBox (h r)) = true ->
  r ∈ shapes -> AABB.intersects range (Shape.getBoundingBox (h r)) = true ->
  r ∈ QuadTree.query h (QuadTree.rebuild h q shapes) range.
Proof.
  intros Ho Hob Hin Hr Hi.
  destruct (common_point _ _ Ho Hob Hi) as [Hp Hbox].
  set (p := Vector.mk _ _) in *.
  apply (found_in_range range p); [exact Hp|].
  apply rebuilt_index_has_every_local_box; [exact Hr| |exact Hbox].
  apply contains_spec in Hin. apply containsPoint_spec in Hbox.
  apply containsPoint_spec. destruct Hin as (?&?&?&?), Hbox as (?&?&?&?).
  repeat split; lra.
Qed.

(** A range query on the rebuilt index returns only shapes of the list
    whose local box meets the range, and returns every such shape whose
    local box is not inverted and lies inside the indexed region, when the
    range is not inverted either. *)
Theorem range_query_matches_scan (q : QuadTree.t) (shapes : list ref)
    (range : AABB.t) (r : ref) :
  AABB.ordered range ->
  AABB.ordered (Shape.getBoundingBox (h r)) ->
  AABB.contains (QuadTreeNode.bounds (QuadTree.root q)) (Shape.getBoundingBox (h r)) = true ->
  (r ∈ QuadTree.query h (QuadTree.rebuild h q shapes) range <->
   r ∈ shapes /\ AABB.intersects range (Shape.getBoundingBox (h r)) = true).
Proof.
  intros Ho Hob Hin. split.
  - apply range_query_sound.
  - intros [Hr Hi]. now apply range_query_complete.
Qed.
End IndexQueries.

(** X11: with the index on and due for a rebuild, [findInBounds] returns the
    same shapes as the linear scan of the same scene, for a range and
    shapes whose boxes are not inverted and lie inside the indexed region. *)
Theorem indexed_search_agrees_with_scan (h : heap) (s : Scene.t) (q : QuadTree.t)
    (range : AABB.t) (r : ref) :
  Scene.useQuadTree s = true -> Scene.quadTree s = Some q ->
  Scene.quadTreeDirty s = true ->
  AABB.ordered range ->
  AABB.ordered (Shape.getBoundingBox (h r)) ->
  AABB.contains (QuadTreeNode.bounds (QuadTree.root q)) (Shape.getBoundingBox (h r)) = true ->
  (r ∈ (Scene.findInBounds h s range).2 <->
   r ∈ (Scene.findInBounds h
          (Scene.mk (Scene.shapes s) (Scene.autoSort s) (Scene.quadTree s) false
                    (Scene.quadTreeDirty s)) range).2).
Proof.
  intros Hu Hq Hd Ho Hob Hin. unfold Scene.findInBounds.
  rewrite Hu. cbn [Scene.useQuadTree]. rewrite Hq.
  unfold Scene.rebuildQuadTreeIfNeeded. rewrite Hq, Hd. cbn [Scene.quadTree snd Scene.shapes].
  rewrite !list_elem_of_filter.
  split.
  - intros [Hv Hr]. apply range_query_sound in Hr. tauto.
  - intros [[Hv Hi] Hr]. split; [exact Hv|]. now apply range_query_complete.
Qed.

Lemma indexed_search_witness :
  0%nat ∈ (Scene.findInBounds Scenario.origin_heap
             (Scene.add Scenario.origin_heap (Scene.new None (Some true) None) 0%nat)
             (AABB.mk 5 5 30 30)).2 <->
  0%nat ∈ (Scene.findInBounds Scenario.origin_heap
             (Scene.mk [0%nat] true (Some (QuadTree.new Scene.defaultBounds)) false true)
             (AABB.mk 5 5 30 30)).2.
Proof.
  apply (indexed_search_agrees_with_scan Scenario.origin_heap
           (Scene.add Scenario.origin_heap (Scene.new None (Some true) None) 0%nat)
           (QuadTree.new Scene.defaultBounds));
    try reflexivity; try (split; vm_compute; discriminate).
Defined.

(** ** Paint order *)

Lemma is_sorted_cons (h : heap) (a : ref) (l : list ref) :
  is_sorted h (a :: l) = true <->
  (forall b, b ∈ l -> Shape.zIndex (h a) <= Shape.zIndex (h b)) /\ is_sorted h l = true.
Proof.
  revert a. induction l as [|b l IH]; intros a.
  - simpl. split; [intros _; split; [intros b Hb; inversion Hb|reflexivity]|reflexivity].
  - change (is_sorted h (a :: b :: l))
      with ((Shape.zIndex (h a) <=? Shape.zIndex (h b)) && is_sorted h (b :: l)).
    rewrite andb_true_iff, Qle_bool_true. split.
    + intros [Hab Hs]. split; [|exact Hs].
      intros c Hc. apply elem_of_cons in Hc. destruct Hc as [->|Hc]; [exact Hab|].
      apply IH in Hs. destruct Hs as [Hs _]. specialize (Hs c Hc). lra.
    + intros [Hall Hs]. split; [apply Hall; left|exact Hs].
Qed.

Lemma sort_insert_sorted (h : heap) (a : ref) (l : list ref) :
  is_sorted h l = true -> is_sorted h (Scene.sort_insert h a l) = true.
Proof.
  induction l as [|b l IH]; intros Hs; [reflexivity|].
  simpl Scene.sort_insert.
  destruct (Shape.zIndex (h a) <=? Shape.zIndex (h b)) eqn:E.
  - change (is_sorted h (a :: b :: l))
      with ((Shape.zIndex (h a) <=? Shape.zIndex (h b)) && is_sorted h (b :: l)).
    now rewrite E, Hs.
  - apply Qle_bool_false in E. apply is_sorted_cons in Hs. destruct Hs as [Hall Hs].
    apply is_sorted_cons. split; [|now apply IH].
    intros c Hc. rewrite sort_insert_perm in Hc.
    apply elem_of_cons in Hc. destruct Hc as [->|Hc]; [lra|now apply Hall].
Qed.

Lemma sorted_list_sorted (h : heap) (l : list ref) :
  is_sorted h (Scene.sorted_list h l) = true.
Proof.
  induction l as [|a l IH]; [reflexivity|]. simpl. now apply sort_insert_sorted.
Qed.

Lemma sorted_list_fixed (h : heap) (l : list ref) :
  is_sorted h l = true -> Scene.sorted_list h l = l.
Proof.
  induction l as [|a l IH]; intros Hs; [reflexivity|].
  simpl. rewrite IH by (now apply is_sorted_tail in Hs).
  now apply sort_insert_head.
Qed.

(** X12: [sort] puts the shape list in ascending z-index order, keeps the
    same shapes, changes nothing else in the scene, and leaves a list that
    is already in order as it is. *)
Theorem sort_orders_the_scene (h : heap) (s : Scene.t) :
  is_sorted h (Scene.shapes (Scene.sort h s)) = true /\
  Scene.shapes (Scene.sort h s) ≡ₚ Scene.shapes s /\
  Scene.sort h (Scene.sort h s) = Scene.sort h s /\
  (is_sorted h (Scene.shapes s) = true -> Scene.shapes (Scene.sort h s) = Scene.shapes s).
Proof.
  unfold Scene.sort, Scene.with_shapes. simpl.
  split; [apply sorted_list_sorted|]. split; [apply sorted_list_perm|].
  split; [|apply sorted_list_fixed].
  now rewrite (sorted_list_fixed h _ (sorted_list_sorted h _)).
Qed.

Lemma remove_first_sorted (h : heap) (r : ref) (l l' : list ref) :
  is_sorted h l = true -> Scene.remove_first r l = Some l' -> is_sorted h l' = true.
Proof.
  revert l'. induction l as [|a l IH]; intros l' Hs; [discriminate|].
  simpl. destruct (Nat.eqb a r).
  - intros [= <-]. now apply is_sorted_tail in Hs.
  - destruct (Scene.remove_first r l) as [l0|] eqn:E; [|discriminate].
    simpl. intros [= <-]. apply is_sorted_cons in Hs. destruct Hs as [Hall Hs].
    apply is_sorted_cons. split; [|now apply IH].
    intros b Hb. apply Hall. apply remove_first_perm in E. rewrite E. now right.
Qed.

Lemma removeMany_sorted (h : heap) (l : list ref) :
  forall s : Scene.t,
    is_sorted h (Scene.shapes s) = true ->
    is_sorted h (Scene.shapes (Scene.removeMany s l)) = true.
Proof.
  unfold Scene.removeMany.
  induction l as [|a l IH]; intros s Hs; [exact Hs|].
  simpl. apply IH.
  destruct (Scene.remove_first a (Scene.shapes s)) as [l'|] eqn:E; [|exact Hs].
  simpl. now apply (remove_first_sorted h a (Scene.shapes s)).
Qed.

(** X13: in a scene that sorts itself, [add] and [addMany] leave the shape
    list in ascending z-index order, and [remove] and [removeMany] keep a
    list that is in order in order. *)
Theorem paint_order_is_invariant (h : heap) (s : Scene.t) (shape : ref) (l : list ref) :
  Scene.autoSort s = true ->
  is_sorted h (Scene.shapes (Scene.add h s shape)) = true /\
  is_sorted h (Scene.shapes (Scene.addMany h s l)) = true /\
  (is_sorted h (Scene.shapes s) = true ->
   is_sorted h (Scene.shapes (Scene.remove s shape).1) = true /\
   is_sorted h (Scene.shapes (Scene.removeMany s l)) = true).
Proof.
  intros Ha. unfold Scene.add, Scene.addMany, Scene.remove. simpl. rewrite Ha. simpl.
  split; [apply sorted_list_sorted|]. split; [apply sorted_list_sorted|].
  intros Hs. split; [|now apply removeMany_sorted].
  destruct (Scene.remove_first shape (Scene.shapes s)) as [l'|] eqn:E; [|exact Hs].
  simpl. now apply (remove_first_sorted h shape (Scene.shapes s)).
Qed.

(** In the self-sorting scene that holds the shapes 1 and 3, in this order
    of z-index: the shape 2 is added in between; the shapes 4, 0 and 2 are
    added in one call and end in order; the shape 1, and then the shapes 3
    and 1, are removed. *)
Lemma paint_order_witness :
  let h := Scenario.layered_heap in
  let s := Scenario.layered_scene in
  is_sorted h (Scene.shapes s) = true /\
  Scene.shapes (Scene.add h s 2%nat) = [1%nat; 2%nat; 3%nat] /\
  is_sorted h (Scene.shapes (Scene.add h s 2%nat)) = true /\
  Scene.shapes (Scene.addMany h s [4%nat; 0%nat; 2%nat])
  = [0%nat; 1%nat; 2%nat; 3%nat; 4%nat] /\
  is_sorted h (Scene.shapes (Scene.addMany h s [4%nat; 0%nat; 2%nat])) = true /\
  Scene.shapes (Scene.remove s 1%nat).1 = [3%nat] /\
  is_sorted h (Scene.shapes (Scene.remove s 1%nat).1) = true /\
  Scene.shapes (Scene.removeMany (Scene.addMany h s [4%nat; 0%nat; 2%nat]) [3%nat; 1%nat])
  = [0%nat; 2%nat; 4%nat] /\
  is_sorted h (Scene.shapes (Scene.removeMany
                               (Scene.addMany h s [4%nat; 0%nat; 2%nat])
                               [3%nat; 1%nat])) = true.
Proof.
  cbv zeta.
  destruct (paint_order_is_invariant Scenario.layered_heap Scenario.layered_scene
              2%nat [4%nat; 0%nat; 2%nat] eq_refl) as (Hadd & HaddMany & Hremove).
  destruct (Hremove eq_refl) as [Hrem _].
  destruct (paint_order_is_invariant Scenario.layered_heap
              (Scene.addMany Scenario.layered_heap Scenario.layered_scene
                 [4%nat; 0%nat; 2%nat])
              1%nat [3%nat; 1%nat] eq_refl) as (_ & _ & Hremove2).
  destruct (Hremove2 HaddMany) as [_ HremMany].
  split; [reflexivity|]. split; [reflexivity|]. split; [exact Hadd|].
  split; [reflexivity|]. split; [exact HaddMany|].
  split; [reflexivity|]. split; [exact Hrem|].
  split; [reflexivity|exact HremMany].
Defined.

Lemma sort_insert_nonempty (h : heap) (a : ref) (l : list ref) :
  Scene.sort_insert h a l <> [].
Proof. destruct l; simpl; [discriminate|]. now destruct (_ <=? _). Qed.

Lemma last_cons_nonempty {A} (a : A) (l : list A) : l <> [] -> last (a :: l) = last l.
Proof. destruct l; [contradiction|reflexivity]. Qed.

Lemma sort_insert_last_kept (h : heap) (a t : ref) (l : list ref) :
  last l = Some t -> Shape.zIndex (h a) <= Shape.zIndex (h t) ->
  last (Scene.sort_insert h a l) = Some t.
Proof.
  induction l as [|b l IH]; intros Hl Hz; [discriminate|].
  simpl Scene.sort_insert.
  destruct (Shape.zIndex (h a) <=? Shape.zIndex (h b)) eqn:E.
  - rewrite last_cons_nonempty by discriminate. exact Hl.
  - apply Qle_bool_false in E.
    rewrite last_cons_nonempty by apply sort_insert_nonempty.
    destruct l as [|c l].
    + simpl in Hl. injection Hl as ->. lra.
    + apply IH; [|exact Hz]. exact Hl.
Qed.

Lemma sort_insert_top (h : heap) (a : ref) (l : list ref) :
  (forall b, b ∈ l -> Shape.zIndex (h b) < Shape.zIndex (h a)) ->
  Scene.sort_insert h a l = l ++ [a].
Proof.
  induction l as [|b l IH]; intros Hall; [reflexivity|].
  simpl. destruct (Shape.zIndex (h a) <=? Shape.zIndex (h b)) eqn:E.
  - apply Qle_bool_true in E. specialize (Hall b (list_elem_of_here _ _)). lra.
  - rewrite IH; [reflexivity|]. intros c Hc. apply Hall. now right.
Qed.

Lemma sorted_list_top (h : heap) (shape : ref) (l : list ref) :
  (forall r, r ∈ l -> r <> shape -> Shape.zIndex (h r) < Shape.zIndex (h shape)) ->
  shape ∈ l -> last (Scene.sorted_list h l) = Some shape.
Proof.
  induction l as [|a l IH]; intros Hall Hin; [inversion Hin|].
  simpl. destruct (decide (shape ∈ l)) as [Hl|Hl].
  - apply sort_insert_last_kept.
    + apply IH; [|exact Hl]. intros r Hr. apply Hall. now right.
    + destruct (decide (a = shape)) as [->|Hne]; [apply Qle_refl|].
      apply Qlt_le_weak, Hall; [left|exact Hne].
  - apply elem_of_cons in Hin. destruct Hin as [<-|Hin]; [|contradiction].
    rewrite sort_insert_top; [apply last_snoc|].
    intros b Hb. rewrite sorted_list_perm in Hb.
    apply Hall; [now right|]. intros ->. contradiction.
Qed.

Lemma sort_insert_head_kept (h : heap) (a t : ref) (l : list ref) :
  head l = Some t -> Shape.zIndex (h t) < Shape.zIndex (h a) ->
  head (Scene.sort_insert h a l) = Some t.
Proof.
  destruct l as [|b l]; intros Hl Hz; [discriminate|].
  simpl in Hl. injection Hl as ->. simpl.
  destruct (Shape.zIndex (h a) <=? Shape.zIndex (h t)) eqn:E; [|reflexivity].
  apply Qle_bool_true in E. lra.
Qed.

Lemma sort_insert_bottom (h : heap) (a : ref) (l : list ref) :
  (forall b, b ∈ l -> Shape.zIndex (h a) <= Shape.zIndex (h b)) ->
  head (Scene.sort_insert h a l) = Some a.
Proof.
  destruct l as [|b l]; intros Hall; [reflexivity|].
  simpl. destruct (Shape.zIndex (h a) <=? Shape.zIndex (h b)) eqn:E; [reflexivity|].
  apply Qle_bool_false in E. specialize (Hall b (list_elem_of_here _ _)). lra.
Qed.

Lemma sorted_list_bottom (h : heap) (shape : ref) (l : list ref) :
  (forall r, r ∈ l -> r <> shape -> Shape.zIndex (h shape) < Shape.zIndex (h r)) ->
  shape ∈ l -> head (Scene.sorted_list h l) = Some shape.
Proof.
  induction l as [|a l IH]; intros Hall Hin; [inversion Hin|].
  simpl. destruct (decide (a = shape)) as [->|Hne].
  - apply sort_insert_bottom. intros b Hb. rewrite sorted_list_perm in Hb.
    destruct (decide (b = shape)) as [->|Hb']; [apply Qle_refl|].
    apply Qlt_le_weak, Hall; [now right|exact Hb'].
  - apply elem_of_cons in Hin. destruct Hin as [->|Hin]; [contradiction|].
    apply sort_insert_head_kept.
    + apply IH; [|exact Hin]. intros r Hr. apply Hall. now right.
    + apply Hall; [left|exact Hne].
Qed.

(** X14: in a scene that sorts itself, [bringToFront] makes a shape of the
    scene the last one of the list (painted last, hit first) provided the
    z-index it is given, the largest one plus 1, is above that of every shape
    of the scene, and [sendToBack] makes it the first one provided the
    smallest z-index minus 1 is below that of every shape; both keep the same
    shapes, leave the list in z-index order and touch no other shape. *)
Theorem z_order_extremes (h : heap) (s : Scene.t) (shape : ref) :
  Scene.autoSort s = true -> shape ∈ Scene.shapes s ->
  (let '(h', s') := Scene.bringToFront h s shape in
   ((forall r, r ∈ Scene.shapes s -> Shape.zIndex (h r) < Scene.maxZIndex h s + 1) ->
    last (Scene.shapes s') = Some shape) /\
   Scene.shapes s' ≡ₚ Scene.shapes s /\
   is_sorted h' (Scene.shapes s') = true /\
   Shape.zIndex (h' shape) = Scene.maxZIndex h s + 1 /\
   forall r, r <> shape -> h' r = h r) /\
  (let '(h', s') := Scene.sendToBack h s shape in
   ((forall r, r ∈ Scene.shapes s -> Scene.minZIndex h s - 1 < Shape.zIndex (h r)) ->
    head (Scene.shapes s') = Some shape) /\
   Scene.shapes s' ≡ₚ Scene.shapes s /\
   is_sorted h' (Scene.shapes s') = true /\
   Shape.zIndex (h' shape) = Scene.minZIndex h s - 1 /\
   forall r, r <> shape -> h' r = h r).
Proof.
  intros Ha Hin. unfold Scene.bringToFront, Scene.sendToBack. rewrite Ha.
  unfold Scene.sort, Scene.with_shapes. cbn [Scene.shapes].
  split.
  - split; [|split; [apply sorted_list_perm|split; [apply sorted_list_sorted|split]]].
    + intros Habove. apply sorted_list_top; [|exact Hin].
      intros r Hr Hne. rewrite upd_same, upd_other by exact Hne. simpl.
      now apply Habove.
    + now rewrite upd_same.
    + intros r Hne. now apply upd_other.
  - split; [|split; [apply sorted_list_perm|split; [apply sorted_list_sorted|split]]].
    + intros Hbelow. apply sorted_list_bottom; [|exact Hin].
      intros r Hr Hne. rewrite upd_same, upd_other by exact Hne. simpl.
      now apply Hbelow.
    + now rewrite upd_same.
    + intros r Hne. now apply upd_other.
Qed.

(** Of two shapes with the z-index 0, the first is brought to the front:
    it gets the z-index 1 and ends last. *)
Lemma z_order_witness :
  let s := Scene.mk [0%nat; 1%nat] true None false true in
  Scene.shapes (Scene.bringToFront Scenario.origin_heap s 0%nat).2 = [1%nat; 0%nat] /\
  last (Scene.shapes (Scene.bringToFront Scenario.origin_heap s 0%nat).2) = Some 0%nat /\
  Scene.shapes (Scene.sendToBack Scenario.origin_heap s 1%nat).2 = [1%nat; 0%nat] /\
  head (Scene.shapes (Scene.sendToBack Scenario.origin_heap s 1%nat).2) = Some 1%nat.
Proof.
  cbv zeta.
  destruct (z_order_extremes Scenario.origin_heap
              (Scene.mk [0%nat; 1%nat] true None false true) 0%nat eq_refl
              (list_elem_of_here _ _)) as [Hfront _].
  destruct (z_order_extremes Scenario.origin_heap
              (Scene.mk [0%nat; 1%nat] true None false true) 1%nat eq_refl
              (list_elem_of_further _ _ _ (list_elem_of_here _ _))) as [_ Hback].
  destruct (Scene.bringToFront _ _ 0%nat) as [h1 s1] eqn:E1.
  destruct (Scene.sendToBack _ _ 1%nat) as [h2 s2] eqn:E2.
  destruct Hfront as (Hlast & _). destruct Hback as (Hhead & _).
  assert (F : s1 = (Scene.bringToFront Scenario.origin_heap
                      (Scene.mk [0%nat; 1%nat] true None false true) 0%nat).2)
    by now rewrite E1.
  assert (B : s2 = (Scene.sendToBack Scenario.origin_heap
                      (Scene.mk [0%nat; 1%nat] true None false true) 1%nat).2)
    by now rewrite E2.
  split; [rewrite F; reflexivity|]. split.
  - apply Hlast. intros r Hr.
    assert (Hz : Shape.zIndex (Scenario.origin_heap r) = 0) by (now destruct r).
    rewrite Hz. reflexivity.
  - split; [rewrite B; reflexivity|].
    apply Hhead. intros r Hr.
    assert (Hz : Shape.zIndex (Scenario.origin_heap r) = 0) by (now destruct r).
    rewrite Hz. reflexivity.
Defined.

(** ** Rotate and scale commands *)

(** X15: a rotate command built for the current shapes is undone exactly:
    after [execute] and [undo] every shape has its fields back; running
    [execute] twice is the same as running it once; shapes outside the
    command are never touched. *)
Theorem rotate_command_round_trip (M : MathLib) (h : heap) (shapes : list ref)
    (angle : Q) (pivot : Vector.t) (r : ref) :
  let c := RotateCommand.new h shapes angle pivot in
  RotateCommand.undo c (RotateCommand.execute M c h) r = h r /\
  RotateCommand.execute M c (RotateCommand.execute M c h) r = RotateCommand.execute M c h r /\
  (r ∉ shapes -> RotateCommand.execute M c h r = h r).
Proof.
  cbv zeta. rewrite rotate_undo_at, !rotate_execute_at.
  destruct (decide (r ∈ shapes)) as [Hin|Hin].
  - split; [unfold unrotated, rotated, rotate_snapshot; now destruct (h r)|].
    split; [reflexivity|contradiction].
  - split; [reflexivity|]. split; reflexivity.
Qed.



(** X17: a scale command built for the current shapes is undone exactly:
    after [execute] and [undo] every shape has its fields back; running
    [execute] twice is the same as running it once; shapes outside the
    command are never touched. *)
Theorem scale_command_round_trip (h : heap) (shapes : list ref)
    (sx sy : Q) (pivot : Vector.t) (r : ref) :
  let c := ScaleCommand.new h shapes sx sy pivot in
  ScaleCommand.undo c (ScaleCommand.execute c h) r = h r /\
  ScaleCommand.execute c (ScaleCommand.execute c h) r = ScaleCommand.execute c h r /\
  (r ∉ shapes -> ScaleCommand.execute c h r = h r).
Proof.
  cbv zeta. rewrite scale_undo_at, !scale_execute_at.
  destruct (decide (r ∈ shapes)) as [Hin|Hin].
  - split; [|split; [|contradiction]].
    + unfold unscaled, scaled, scale_snapshot.
      destruct (h r) as [id name x y rot scx scy vis lock z g]. now destruct g.
    + unfold scaled, scale_snapshot.
      destruct (h r) as [id name x y rot scx scy vis lock z g]. now destruct g.
  - split; [reflexivity|]. split; reflexivity.
Qed.

(** X18: [execute] of a scale command built for the current shapes computes
    from the snapshot, however often a shape is listed: every shape of the
    command ends at the pivot plus its recorded offset from the pivot times
    the factors; a rectangle's width and height are multiplied by the
    factors, a circle keeps its radius; the other fields stay. *)
Theorem scale_command_scales_about_pivot (h : heap) (shapes : list ref)
    (sx sy : Q) (pivot : Vector.t) (r : ref) :
  r ∈ shapes ->
  let s := h r in
  let s' := ScaleCommand.execute (ScaleCommand.new h shapes sx sy pivot) h r in
  s' = Shape.mk (Shape.id s) (Shape.name s)
                (Vector.x pivot + (Shape.x s - Vector.x pivot) * sx)
                (Vector.y pivot + (Shape.y s - Vector.y pivot) * sy)
                (Shape.rotation s) (Shape.scaleX s) (Shape.scaleY s)
                (Shape.visible s) (Shape.locked s) (Shape.zIndex s)
                match Shape.geom s with
                | RectGeom width height cornerRadius =>
                    RectGeom (width * sx) (height * sy) cornerRadius
                | CircleGeom radius => CircleGeom radius
                end.
Proof.
  intros Hin. cbv zeta. rewrite scale_execute_at.
  destruct (decide (r ∈ shapes)) as [_|Hn]; [|contradiction].
  unfold scaled, scale_snapshot.
  destruct (h r) as [id name x y rot scx scy vis lock z g]. now destruct g.
Qed.

(** A 20 by 20 rectangle at the origin, listed twice, scaled by 2 and 3
    about (5, 5). *)
Lemma scale_command_witness :
  ScaleCommand.execute
    (ScaleCommand.new Scenario.origin_heap [0%nat; 0%nat] 2 3 (Vector.mk 5 5))
    Scenario.origin_heap 0%nat
  = Shape.mk "r1" "Rectangle" (5 + (0 - 5) * 2) (5 + (0 - 5) * 3) 0 1 1 true false 0
             (RectGeom (20 * 2) (20 * 3) 0).
Proof.
  apply (scale_command_scales_about_pivot Scenario.origin_heap [0%nat; 0%nat] 2 3
           (Vector.mk 5 5) 0%nat).
  left.
Defined.

(** ** Undo followed by redo *)

Lemma canUndo_last (m : CommandManager.t) :
  CommandManager.canUndo m = true ->
  exists c, last (CommandManager.undoStack m) = Some c.
Proof.
  unfold CommandManager.canUndo. destruct (CommandManager.undoStack m) as [|a l] using rev_ind.
  - discriminate.
  - intros _. exists a. apply last_snoc.
Qed.

Lemma canRedo_last (m : CommandManager.t) :
  CommandManager.canRedo m = true ->
  exists c, last (CommandManager.redoStack m) = Some c.
Proof.
  unfold CommandManager.canRedo. destruct (CommandManager.redoStack m) as [|a l] using rev_ind.
  - discriminate.
  - intros _. exists a. apply last_snoc.
Qed.

(** X19: [undo] followed by [redo] leaves both history stacks as they were
    when there was something to undo, and so does [redo] followed by [undo]
    when there was something to redo; with nothing to undo, or to redo, the
    call changes neither the stacks nor the world. *)
Theorem undo_and_redo_are_inverse_on_history (M : MathLib) (m : CommandManager.t) (w w' : World) :
  (CommandManager.canUndo m = true ->
   (CommandManager.redo M (CommandManager.undo m w).1 w').1 = m) /\
  (CommandManager.canRedo m = true ->
   (CommandManager.undo (CommandManager.redo M m w).1 w').1 = m) /\
  (CommandManager.canUndo m = false -> CommandManager.undo m w = (m, w)) /\
  (CommandManager.canRedo m = false -> CommandManager.redo M m w = (m, w)).
Proof.
  destruct m as [u r mx]. split; [|split; [|split]].
  - intros H. destruct (canUndo_last _ H) as [c Hc]. simpl in Hc.
    unfold CommandManager.undo. simpl. rewrite Hc. simpl.
    unfold CommandManager.redo. simpl. rewrite last_snoc. simpl.
    rewrite removelast_last. rewrite <- (last_Some_snoc u c Hc). reflexivity.
  - intros H. destruct (canRedo_last _ H) as [c Hc]. simpl in Hc.
    unfold CommandManager.redo. simpl. rewrite Hc. simpl.
    unfold CommandManager.undo. simpl. rewrite last_snoc. simpl.
    rewrite removelast_last. rewrite <- (last_Some_snoc r c Hc). reflexivity.
  - unfold CommandManager.canUndo, CommandManager.undo. simpl.
    destruct u; [reflexivity|discriminate].
  - unfold CommandManager.canRedo, CommandManager.redo. simpl.
    destruct r; [reflexivity|discriminate].
Qed.

Lemma move_by_ext (dx dy : Q) (l : list ref) :
  forall h h' : heap,
    (forall r, h r = h' r) ->
    forall r, fold_left (Command.move_by dx dy) l h r =
              fold_left (Command.move_by dx dy) l h' r.
Proof.
  induction l as [|a l IH]; intros h h' Heq r; simpl; [apply Heq|].
  apply IH. intros r'. unfold Command.move_by.
  destruct (decide (r' = a)) as [->|Hne].
  - rewrite !upd_same, Heq. reflexivity.
  - rewrite !upd_other by exact Hne. apply Heq.
Qed.

Lemma add_autoSort (h : heap) (s : Scene.t) (shape : ref) :
  Scene.autoSort (Scene.add h s shape) = Scene.autoSort s.
Proof. unfold Scene.add. simpl. destruct (Scene.autoSort s) eqn:E; simpl; exact E. Qed.

Lemma remove_autoSort (s : Scene.t) (shape : ref) :
  Scene.autoSort (Scene.remove s shape).1 = Scene.autoSort s.
Proof. unfold Scene.remove. destruct (Scene.remove_first _ _); reflexivity. Qed.

Lemma add_shapes_only (h : heap) (s s' : Scene.t) (shape : ref) :
  Scene.shapes s = Scene.shapes s' -> Scene.autoSort s = Scene.autoSort s' ->
  Scene.shapes (Scene.add h s shape) = Scene.shapes (Scene.add h s' shape).
Proof.
  intros Hs Ha. unfold Scene.add. simpl. rewrite Hs, Ha.
  now destruct (Scene.autoSort s').
Qed.

(** A command built for a state does to every shape what it does in that
    state, in any state with the same shapes. *)
Lemma execute_heap_ext (M : MathLib) (command : Command) (w w' : World) :
  well_built command w ->
  (forall r, wheap w' r = wheap w r) ->
  forall r, wheap (Command.execute M command w') r = wheap (Command.execute M command w) r.
Proof.
  intros Hbuilt Hsame r.
  destruct command as [shape|shapesToRemove|shapes dx dy old|shapes property value old
                       |shapes before after|this|this].
  - apply Hsame.
  - apply Hsame.
  - simpl. now apply move_by_ext.
  - simpl. rewrite !modify_execute_at, Hsame. reflexivity.
  - simpl. rewrite !applyStates_at, Hsame. reflexivity.
  - destruct this as [shapes angle pivot states]. simpl in Hbuilt. simpl.
    rewrite Hbuilt, !rotate_execute_at, Hsame. reflexivity.
  - destruct this as [shapes sx sy pivot states]. simpl in Hbuilt. simpl.
    rewrite Hbuilt, !scale_execute_at, Hsame. reflexivity.
Qed.

(** X20: for a command of any class built for the current state and pushed
    as a history entry of its own, [execute], [undo], [redo] ends with the
    history [execute] left and with the world [execute] left: every shape has
    the same fields, and the scene holds the same shapes, in the same order
    unless the command is a remove. *)
Theorem redo_restores_the_executed_state (M : MathLib)
    (m : CommandManager.t) (command : Command) (w : World)
    (Hcap : 1 <= CommandManager.maxHistory m)
    (Hnomerge : forall lastCommand,
        last (CommandManager.undoStack m) = Some lastCommand ->
        Command.canMerge command lastCommand = false)
    (Hbuilt : well_built command w) :
  exists m1 w1,
    CommandManager.execute M m command w = Some (m1, w1) /\
    let '(m2, w2) := CommandManager.undo m1 w1 in
    let '(m3, w3) := CommandManager.redo M m2 w2 in
    m3 = m1 /\
    (forall r, wheap w3 r = wheap w1 r) /\
    Scene.shapes (wscene w3) ≡ₚ Scene.shapes (wscene w1) /\
    (is_remove command = false -> Scene.shapes (wscene w3) = Scene.shapes (wscene w1)).
Proof.
  rewrite (execute_push M m command w Hnomerge).
  eexists _, _. split; [reflexivity|].
  set (u := CommandManager.push_bounded _ _ _).
  assert (Hu : last u = Some command) by (now apply last_push_bounded).
  unfold CommandManager.undo. cbn [CommandManager.undoStack CommandManager.redoStack
                                   CommandManager.maxHistory].
  rewrite Hu. unfold CommandManager.redo.
  cbn [CommandManager.undoStack CommandManager.redoStack CommandManager.maxHistory].
  simpl last. cbv iota. simpl removelast.
  rewrite <- (last_Some_snoc u command Hu).
  split; [reflexivity|].
  split; [intros r; apply execute_heap_ext; [exact Hbuilt|apply undo_execute_heap, Hbuilt]|].
  destruct command as [shape|shapesToRemove|shapes dx dy old|shapes property value old
                       |shapes before after|this|this].
  - pose proof (undo_execute_add M shape w Hbuilt) as Hshapes.
    assert (Heq : Scene.shapes (wscene (Command.execute M (AddShapeCommand shape)
                     (Command.undo (AddShapeCommand shape)
                        (Command.execute M (AddShapeCommand shape) w)))) =
                  Scene.shapes (wscene (Command.execute M (AddShapeCommand shape) w))).
    { simpl. apply add_shapes_only; [exact Hshapes|].
      simpl. rewrite remove_autoSort. apply add_autoSort. }
    split; [now rewrite Heq|]. intros _. exact Heq.
  - split; [|discriminate].
    pose proof (undo_execute_remove M _ w Hbuilt) as Hperm.
    destruct Hbuilt as [Hnd Hmem].
    pose proof (removeMany_perm shapesToRemove (wscene w) Hnd Hmem) as P1.
    assert (Hmem' : forall r, r ∈ shapesToRemove ->
              r ∈ Scene.shapes (wscene (Command.undo (RemoveShapeCommand shapesToRemove)
                     (Command.execute M (RemoveShapeCommand shapesToRemove) w)))).
    { intros r Hr. rewrite Hperm. now apply Hmem. }
    pose proof (removeMany_perm shapesToRemove _ Hnd Hmem') as P2.
    rewrite Hperm, P1 in P2 at 1.
    apply Permutation_app_inv_l in P2. symmetry. exact P2.
  - split; reflexivity.
  - split; reflexivity.
  - split; reflexivity.
  - split; reflexivity.
  - split; reflexivity.
Qed.

Lemma redo_witness :
  exists m1 w1,
    CommandManager.execute Scenario.trig (CommandManager.new None)
      (Command.newMoveShapeCommand Scenario.origin_heap [0%nat] 10 5)
      Scenario.two_shapes = Some (m1, w1) /\
    let '(m2, w2) := CommandManager.undo m1 w1 in
    let '(m3, w3) := CommandManager.redo Scenario.trig m2 w2 in
    m3 = m1 /\
    (forall r, wheap w3 r = wheap w1 r) /\
    Scene.shapes (wscene w3) ≡ₚ Scene.shapes (wscene w1) /\
    (is_remove (Command.newMoveShapeCommand Scenario.origin_heap [0%nat] 10 5) = false ->
     Scene.shapes (wscene w3) = Scene.shapes (wscene w1)).
Proof.
  apply (redo_restores_the_executed_state Scenario.trig (CommandManager.new None)
           (Command.newMoveShapeCommand Scenario.origin_heap [0%nat] 10 5)
           Scenario.two_shapes).
  - vm_compute. discriminate.
  - intros lastCommand H. discriminate H.
  - reflexivity.
Defined.

(** ** Replication of an added shape *)

Lemma localExecute_add (M : MathLib) (timestamp : Q) (c : Collab.Client) (shape : ref) :
  Collab.isReceivingRemoteChange c = false -> Collab.wsOpen c = true ->
  Collab.localExecute M timestamp c (AddShapeCommand shape) =
  Some (Collab.mk
          (CommandManager.mk
             (CommandManager.push_bounded (CommandManager.maxHistory (Collab.manager c))
                (CommandManager.undoStack (Collab.manager c)) (AddShapeCommand shape))
             [] (CommandManager.maxHistory (Collab.manager c)))
          (Command.execute M (AddShapeCommand shape) (Collab.world c))
          false true (Collab.roomId c) (Collab.userId c),
        [Collab.commandMessage c timestamp
           (JObj [("type", JStr "add-shape");
                  ("shape", Shape.toJSON (wheap (Collab.world c) shape))]%string)]).
Proof.
  intros Hr Ho. unfold Collab.localExecute.
  rewrite (execute_push M (Collab.manager c) (AddShapeCommand shape) (Collab.world c))
    by (intros; reflexivity).
  simpl. rewrite Hr, Ho. reflexivity.
Qed.

Lemma handleCommand_relays (readyState : conn -> nat) (f : DbFaults) (now : Q)
    (st : WebSocketService.t) (ws : conn) (roomId userId : string) (payload : JSON) :
  Json.truthy (Some payload) = true ->
  (WebSocketService.handleCommand readyState f now st ws roomId userId
     (JObj [("operation", JObj [("command", payload)])]%string)).2
  = map (fun client =>
           (client, WebSocketService.command_envelope now userId
                      (JObj [("operation", JObj [("command", payload)])]%string)))
        (filter (fun client => readyState client = 1%nat)
                (WebSocketService.members st roomId)).
Proof.
  intros Ht. unfold WebSocketService.handleCommand.
  change (Json.get (JObj [("operation", JObj [("command", payload)])]%string) "operation")
    with (Some (JObj [("command", payload)]%string)).
  cbv iota. cbv beta.
  change (Json.get (JObj [("command", payload)]%string) "command") with (Some payload).
  cbv iota. cbv beta. rewrite Ht.
  destruct (WebSocketService.persist _ _ _ _ _) as [db' threw]. simpl.
  apply broadcast_all.
Qed.

Lemma onCommandMessage_add (uuid : string) (c : Collab.Client) (now : Q)
    (userId : string) (s : Shape.t) :
  Collab.isReceivingRemoteChange c = false ->
  Shape.name s <> ""%string ->
  Collab.world
    (Collab.onCommandMessage uuid c
       (WebSocketService.command_envelope now userId
          (JObj [("operation",
                  JObj [("command",
                         JObj [("type", JStr "add-shape");
                               ("shape", Shape.toJSON s)])])]%string)))
  = with_new_shape (Collab.world c) (rebuilt uuid s).
Proof.
  intros Hr Hn. unfold Collab.onCommandMessage, WebSocketService.command_envelope.
  cbn [Json.get Json.assoc String.eqb Ascii.eqb Bool.eqb].
  unfold Collab.handleRemoteCommand. rewrite Hr.
  cbn [Json.get Json.assoc String.eqb Ascii.eqb Bool.eqb Json.truthy].
  unfold Collab.with_world. cbn [Collab.world].
  now apply applyRemote_add.
Qed.

(** X21: when a client with an open socket executes an add command for a
    shape with a name, one [command] message goes out; the relay delivers its
    envelope to every open socket of the room, whatever happens to the store;
    and every client that handles the envelope ends with one new shape, which
    has the original's id, name, position, rotation, scale and geometry. *)
Theorem relayed_add_is_applied_by_every_member (M : MathLib)
    (readyState : conn -> nat) (f : DbFaults) (timestamp now : Q)
    (st : WebSocketService.t) (ws : conn) (a : Collab.Client) (shape : ref)
    (Hidle : Collab.isReceivingRemoteChange a = false)
    (Hopen : Collab.wsOpen a = true)
    (Hname : Shape.name (wheap (Collab.world a) shape) <> ""%string) :
  exists a' data,
    Collab.localExecute M timestamp a (AddShapeCommand shape)
    = Some (a', [JObj [("type", JStr "command"); ("roomId", JStr (Collab.roomId a));
                       ("userId", JStr (Collab.userId a)); ("timestamp", JNum timestamp);
                       ("data", data)]%string]) /\
    let envelope := WebSocketService.command_envelope now (Collab.userId a) data in
    (WebSocketService.handleCommand readyState f now st ws
       (Collab.roomId a) (Collab.userId a) data).2
    = map (fun client => (client, envelope))
          (filter (fun client => readyState client = 1%nat)
                  (WebSocketService.members st (Collab.roomId a))) /\
    forall (uuid : string) (c : Collab.Client),
      Collab.isReceivingRemoteChange c = false ->
      Collab.world (Collab.onCommandMessage uuid c envelope)
      = with_new_shape (Collab.world c) (rebuilt uuid (wheap (Collab.world a) shape)).
Proof.
  eexists _, _. split; [apply (localExecute_add M timestamp a shape Hidle Hopen)|].
  cbv zeta. split.
  - apply handleCommand_relays. reflexivity.
  - intros uuid c Hc. now apply onCommandMessage_add.
Qed.

Lemma add_perm (h : heap) (s : Scene.t) (shape : ref) :
  Scene.shapes (Scene.add h s shape) ≡ₚ Scene.shapes s ++ [shape].
Proof.
  unfold Scene.add. simpl. destruct (Scene.autoSort s); simpl; [|reflexivity].
  apply sorted_list_perm.
Qed.

(** X22: the relay sends a command back to the socket it came from, and the
    hook applies it without looking at the sender: after a local add of a
    shape with an id and a name, the sender that handles its own envelope
    holds two shapes with that id, the original and a copy. *)
Theorem sender_applies_its_own_echo (M : MathLib)
    (readyState : conn -> nat) (f : DbFaults) (timestamp now : Q)
    (st : WebSocketService.t) (ws : conn) (a : Collab.Client) (shape : ref)
    (uuid : string)
    (Hidle : Collab.isReceivingRemoteChange a = false)
    (Hopen : Collab.wsOpen a = true)
    (Hname : Shape.name (wheap (Collab.world a) shape) <> ""%string)
    (Hid : Shape.id (wheap (Collab.world a) shape) <> ""%string)
    (Hfresh : shape <> nextRef (Collab.world a))
    (Hmember : ws ∈ WebSocketService.members st (Collab.roomId a))
    (Hready : readyState ws = 1%nat) :
  exists a' data,
    Collab.localExecute M timestamp a (AddShapeCommand shape)
    = Some (a', [JObj [("type", JStr "command"); ("roomId", JStr (Collab.roomId a));
                       ("userId", JStr (Collab.userId a)); ("timestamp", JNum timestamp);
                       ("data", data)]%string]) /\
    let envelope := WebSocketService.command_envelope now (Collab.userId a) data in
    (ws, envelope) ∈ (WebSocketService.handleCommand readyState f now st ws
                        (Collab.roomId a) (Collab.userId a) data).2 /\
    let w := Collab.world (Collab.onCommandMessage uuid a' envelope) in
    let copy := nextRef (Collab.world a) in
    shape ∈ Scene.shapes (wscene w) /\ copy ∈ Scene.shapes (wscene w) /\
    copy <> shape /\
    Shape.id (wheap w copy) = Shape.id (wheap w shape).
Proof.
  eexists _, _. split; [apply (localExecute_add M timestamp a shape Hidle Hopen)|].
  cbv zeta. split.
  - rewrite handleCommand_relays by reflexivity.
    apply (list_elem_of_fmap_2 (fun client => (client, _))).
    apply list_elem_of_filter. split; [exact Hready|exact Hmember].
  - rewrite onCommandMessage_add by (try reflexivity; exact Hname).
    unfold with_new_shape. cbn [wscene wheap nextRef Collab.world Command.execute].
    split; [|split; [|split]].
    + rewrite add_perm, add_perm. rewrite !elem_of_app, !list_elem_of_singleton. tauto.
    + rewrite add_perm. rewrite !elem_of_app, !list_elem_of_singleton. tauto.
    + intros E. apply Hfresh. now symmetry.
    + rewrite upd_same, upd_other by exact Hfresh. unfold rebuilt. simpl.
      destruct (String.eqb_spec (Shape.id (wheap (Collab.world a) shape)) "");
        [contradiction|reflexivity].
Qed.

Lemma relayed_add_witness :
  exists a' data,
    Collab.localExecute Scenario.trig 0 Scenario.clientA (AddShapeCommand 1%nat)
    = Some (a', [JObj [("type", JStr "command"); ("roomId", JStr "room");
                       ("userId", JStr "A"); ("timestamp", JNum 0);
                       ("data", data)]%string]).
Proof.
  assert (Hname : Shape.name (wheap (Collab.world Scenario.clientA) 1%nat) <> ""%string)
    by discriminate.
  destruct (relayed_add_is_applied_by_every_member Scenario.trig Scenario.all_open no_faults 0 0
              Scenario.relay 1%nat Scenario.clientA 1%nat eq_refl eq_refl Hname)
    as (a' & data & H & _).
  exists a', data. exact H.
Defined.

Lemma echo_witness :
  exists a' data,
    Collab.localExecute Scenario.trig 0 Scenario.clientA (AddShapeCommand 1%nat)
    = Some (a', [JObj [("type", JStr "command"); ("roomId", JStr "room");
                       ("userId", JStr "A"); ("timestamp", JNum 0);
                       ("data", data)]%string]) /\
    let w := Collab.world
               (Collab.onCommandMessage "fresh" a'
                  (WebSocketService.command_envelope 0 "A" data)) in
    Shape.id (wheap w 2%nat) = Shape.id (wheap w 1%nat).
Proof.
  assert (Hname : Shape.name (wheap (Collab.world Scenario.clientA) 1%nat) <> ""%string)
    by discriminate.
  assert (Hid : Shape.id (wheap (Collab.world Scenario.clientA) 1%nat) <> ""%string)
    by discriminate.
  assert (Hfresh : 1%nat <> nextRef (Collab.world Scenario.clientA)) by discriminate.
  assert (Hmember : 1%nat ∈ WebSocketService.members Scenario.relay
                               (Collab.roomId Scenario.clientA)) by (vm_compute; left).
  destruct (sender_applies_its_own_echo Scenario.trig Scenario.all_open no_faults 0 0
              Scenario.relay 1%nat Scenario.clientA 1%nat "fresh"
              eq_refl eq_refl Hname Hid Hfresh Hmember eq_refl)
    as (a' & data & H & _ & _ & _ & _ & Hsame).
  exists a', data. split; [exact H|exact Hsame].
Defined.

(** ** Persisted shapes and late joiners *)

Lemma stored_entry_data (s : Shape.t) :
  Json.get (stored_entry s) "data" = Some (Shape.toJSON s).
Proof. unfold stored_entry, Shape.toJSON. destruct (Shape.geom s); reflexivity. Qed.

Lemma mutation_add (roomId : string) (s : Shape.t) :
  WebSocketService.mutation roomId (add_payload s) =
  Some (fun db => RoomService.addShape db roomId (stored_entry s)).
Proof.
  unfold WebSocketService.mutation, add_payload, stored_entry, Shape.toJSON.
  destruct (Shape.geom s); reflexivity.
Qed.

Lemma valid_roomId_true (roomId : string) :
  roomId <> ""%string -> Operation.valid_roomId roomId = true.
Proof.
  intros H. unfold Operation.valid_roomId. now destruct (String.eqb_spec roomId "").
Qed.

Lemma persist_add (db : DB) (roomId userId : string) (s : Shape.t) :
  roomId <> ""%string ->
  WebSocketService.persist no_faults db roomId userId (add_payload s) =
  (mkDB (db_rooms (RoomService.addShape db roomId (stored_entry s)))
        (db_operations db ++
         [Operation.mk roomId userId (Some (JStr "add-shape")) (add_payload s)]),
   false).
Proof.
  intros Hroom. unfold WebSocketService.persist. rewrite mutation_add.
  cbn [is_Some_b no_faults mutation_throws saveOperation_throws andb].
  unfold RoomService.saveOperation. rewrite (valid_roomId_true roomId Hroom). reflexivity.
Qed.

(** The room is updated before the operation is recorded, so it holds the
    new entry whether or not the record is accepted. *)
Lemma persist_add_rooms (db : DB) (roomId userId : string) (s : Shape.t) :
  db_rooms (WebSocketService.persist no_faults db roomId userId (add_payload s)).1
  = db_rooms (RoomService.addShape db roomId (stored_entry s)).
Proof.
  unfold WebSocketService.persist. rewrite mutation_add.
  cbn [is_Some_b no_faults mutation_throws saveOperation_throws andb].
  unfold RoomService.saveOperation.
  destruct (Operation.valid_roomId roomId && _); reflexivity.
Qed.

Lemma handleCommand_state (readyState : conn -> nat) (f : DbFaults) (now : Q)
    (st : WebSocketService.t) (ws : conn) (roomId userId : string) (payload : JSON) :
  Json.truthy (Some payload) = true ->
  (WebSocketService.handleCommand readyState f now st ws roomId userId
     (operation_of payload)).1
  = WebSocketService.mk (WebSocketService.clients st) (WebSocketService.rooms st)
      (WebSocketService.persist f (WebSocketService.db st) roomId userId payload).1
      (if (WebSocketService.persist f (WebSocketService.db st) roomId userId payload).2
       then WebSocketService.log st ++ ["[WS] Command error"]%string
       else WebSocketService.log st).
Proof.
  intros Ht. unfold WebSocketService.handleCommand, operation_of.
  change (Json.get (JObj [("operation", JObj [("command", payload)])]%string) "operation")
    with (Some (JObj [("command", payload)]%string)).
  cbv iota. cbv beta.
  change (Json.get (JObj [("command", payload)]%string) "command") with (Some payload).
  cbv iota. cbv beta. rewrite Ht.
  now destruct (WebSocketService.persist _ _ _ _ _) as [db' threw].
Qed.

Lemma handleCommand_add_persists (readyState : conn -> nat) (now : Q)
    (st : WebSocketService.t) (ws : conn) (roomId userId : string) (s : Shape.t) :
  roomId <> ""%string ->
  (WebSocketService.handleCommand readyState no_faults now st ws roomId userId
     (operation_of (add_payload s))).1
  = WebSocketService.mk (WebSocketService.clients st) (WebSocketService.rooms st)
      (mkDB (db_rooms (RoomService.addShape (WebSocketService.db st) roomId (stored_entry s)))
            (db_operations (WebSocketService.db st) ++
             [Operation.mk roomId userId (Some (JStr "add-shape")) (add_payload s)]))
      (WebSocketService.log st).
Proof.
  intros Hroom. rewrite handleCommand_state by reflexivity. now rewrite persist_add.
Qed.

(** X23: an add command for a room whose id is not the empty string, which
    the relay persists, appends one entry to the room's shape list, raises
    the room's version by one and records one operation, without an error in
    the log. *)
Theorem persisted_add_appends_entry (readyState : conn -> nat) (now : Q)
    (st : WebSocketService.t) (ws : conn) (roomId userId : string) (s : Shape.t)
    (Hroom : roomId <> ""%string) :
  let st' := (WebSocketService.handleCommand readyState no_faults now st ws roomId userId
                (operation_of (add_payload s))).1 in
  let before := RoomService.room_or_new (WebSocketService.db st) roomId in
  let after := RoomService.room_or_new (WebSocketService.db st') roomId in
  Room.shapes after = Room.shapes before ++ [stored_entry s] /\
  Room.version after == Room.version before + 1 /\
  Room.users after = Room.users before /\
  db_operations (WebSocketService.db st') =
    db_operations (WebSocketService.db st) ++
    [Operation.mk roomId userId (Some (JStr "add-shape")) (add_payload s)] /\
  WebSocketService.log st' = WebSocketService.log st.
Proof.
  cbv zeta.
  rewrite (handleCommand_add_persists _ _ _ _ _ _ _ Hroom).
  cbn [WebSocketService.db WebSocketService.log].
  unfold RoomService.room_or_new at 1 3 5. cbn [db_rooms db_operations].
  unfold RoomService.addShape, RoomService.put. cbn [db_rooms Room.roomId].
  rewrite lookup_insert_eq. cbn [default Room.shapes Room.version Room.users].
  repeat split; reflexivity.
Qed.

(** A adds the rectangle "s2" to "room", whose record holds one shape. *)
Lemma persisted_add_witness :
  let st' := (WebSocketService.handleCommand Scenario.all_open no_faults 0
                Scenario.relay_with_room 1%nat "room" "A"
                (operation_of (add_payload (Scenario.rect "s2" 0 0 20 20)))).1 in
  Room.shapes (RoomService.room_or_new (WebSocketService.db st') "room")
  = Room.shapes Scenario.stored_room ++ [stored_entry (Scenario.rect "s2" 0 0 20 20)] /\
  length (db_operations (WebSocketService.db st')) = 1%nat /\
  WebSocketService.log st' = [].
Proof.
  assert (Hroom : "room"%string <> ""%string) by discriminate.
  destruct (persisted_add_appends_entry Scenario.all_open 0 Scenario.relay_with_room
              1%nat "room" "A" (Scenario.rect "s2" 0 0 20 20) Hroom)
    as (Hshapes & _ & _ & Hops & Hlog).
  split; [exact Hshapes|]. split; [now rewrite Hops|exact Hlog].
Defined.

Lemma addFromData_stored (uuid : ref -> string) (w : World) (s : Shape.t) :
  Shape.name s <> ""%string ->
  Collab.addFromData uuid w (stored_entry s) =
  with_new_shape w (rebuilt (uuid (nextRef w)) s).
Proof.
  intros Hn. unfold Collab.addFromData.
  rewrite stored_entry_data, (createShape_toJSON _ s Hn). reflexivity.
Qed.

Lemma onInitSync_init_sync (uuid : ref -> string) (c : Collab.Client)
    (timestamp : Q) (users : list JSON) (room : Room.t) :
  Collab.onInitSync uuid c (WebSocketService.init_sync timestamp users room) =
  Collab.mk (Collab.manager c)
            (fold_left (Collab.addFromData uuid) (Room.shapes room) (Collab.world c))
            false (Collab.wsOpen c) (Collab.roomId c) (Collab.userId c).
Proof. reflexivity. Qed.

Lemma shapes_after_persist_add (db : DB) (roomId userId : string) (s : Shape.t) :
  Room.shapes
    (RoomService.room_or_new
       (WebSocketService.persist no_faults db roomId userId (add_payload s)).1 roomId)
  = Room.shapes (RoomService.room_or_new db roomId) ++ [stored_entry s].
Proof.
  unfold RoomService.room_or_new at 1. rewrite persist_add_rooms.
  unfold RoomService.addShape, RoomService.put. cbn [db_rooms Room.roomId].
  now rewrite lookup_insert_eq.
Qed.

(** X24: a shape with a name that was added through the relay while the store
    worked is rebuilt by a client that joins later: the [init_sync] it is
    sent makes it add a shape with the original's id, name, position,
    rotation, scale and geometry, and it ends ready for remote changes. *)
Theorem late_joiner_rebuilds_added_shape
    (readyState : conn -> nat) (now now2 : Q) (st : WebSocketService.t)
    (ws ws2 : conn) (roomId userId userId2 : string) (userData2 : option JSON)
    (s : Shape.t)
    (Hname : Shape.name s <> ""%string)
    (Hopen : readyState ws2 = 1%nat) :
  let st1 := (WebSocketService.handleCommand readyState no_faults now st ws roomId userId
                (operation_of (add_payload s))).1 in
  exists st2 message others,
    WebSocketService.handleJoin readyState no_faults now2 st1 ws2 roomId userId2 userData2
    = (st2, Some ((ws2, message) :: others)) /\
    forall (uuid : ref -> string) (c : Collab.Client),
      let c' := Collab.onInitSync uuid c message in
      Collab.isReceivingRemoteChange c' = false /\
      exists r, r ∈ Scene.shapes (wscene (Collab.world c')) /\
                wheap (Collab.world c') r = rebuilt (uuid r) s.
Proof.
  cbv zeta. rewrite handleCommand_state by reflexivity.
  set (st1 := WebSocketService.mk _ _ _ _).
  destruct (handleJoin_sends readyState now2 st1 ws2 roomId userId2 userData2 Hopen)
    as (st2 & room' & Hrun & Hshapes).
  eexists st2, _, _. split; [exact Hrun|].
  intros uuid c. rewrite onInitSync_init_sync. cbn [Collab.isReceivingRemoteChange Collab.world].
  split; [reflexivity|].
  rewrite Hshapes. subst st1. cbn [WebSocketService.db].
  rewrite shapes_after_persist_add, fold_left_app. cbn [fold_left].
  rewrite (addFromData_stored uuid _ s Hname).
  set (w1 := fold_left _ _ _). exists (nextRef w1).
  unfold with_new_shape. cbn [wscene wheap]. split.
  - rewrite add_perm. apply elem_of_app. right. left.
  - apply upd_same.
Qed.

Lemma late_joiner_witness :
  exists st2 message others,
    WebSocketService.handleJoin Scenario.all_open no_faults 1
      (WebSocketService.handleCommand Scenario.all_open no_faults 0 Scenario.relay 1%nat
         "room" "A" (operation_of (add_payload (Scenario.rect "s2" 0 0 20 20)))).1
      3%nat "room" "C" None
    = (st2, Some ((3%nat, message) :: others)).
Proof.
  assert (Hname : Shape.name (Scenario.rect "s2" 0 0 20 20) <> ""%string) by discriminate.
  destruct (late_joiner_rebuilds_added_shape Scenario.all_open 0 1 Scenario.relay
              1%nat 3%nat "room" "A" "C" None (Scenario.rect "s2" 0 0 20 20)
              Hname eq_refl) as (st2 & message & others & H & _).
  exists st2, message, others. exact H.
Defined.

Lemma flat_is_sorted (h : heap) (l : list ref) :
  (forall r, r ∈ l -> Shape.zIndex (h r) == 0) -> is_sorted h l = true.
Proof.
  induction l as [|a l IH]; intros Hall; [reflexivity|].
  apply is_sorted_cons. split.
  - intros b Hb. rewrite (Hall a) by left. rewrite (Hall b) by (now right). apply Qle_refl.
  - apply IH. intros r Hr. apply Hall. now right.
Qed.

Lemma add_on_top (h : heap) (s : Scene.t) (shape : ref) :
  (forall r, r ∈ Scene.shapes s ++ [shape] -> Shape.zIndex (h r) == 0) ->
  Scene.shapes (Scene.add h s shape) = Scene.shapes s ++ [shape].
Proof.
  intros Hall. unfold Scene.add. simpl. destruct (Scene.autoSort s); simpl; [|reflexivity].
  apply sorted_list_fixed. now apply flat_is_sorted.
Qed.

(** X25: a client with an empty scene that handles an [init_sync] whose
    entries are the stored forms of shapes with names ends with exactly one
    new shape per entry, in the order of the entries, each with its
    original's id, name, position, rotation, scale and geometry. *)
Theorem init_sync_rebuilds_every_entry
    (uuid : ref -> string) (c : Collab.Client) (timestamp : Q) (users : list JSON)
    (room : Room.t) (originals : list Shape.t)
    (Hempty : Scene.shapes (wscene (Collab.world c)) = [])
    (Hentries : Room.shapes room = map stored_entry originals)
    (Hnames : forall s, s ∈ originals -> Shape.name s <> ""%string) :
  let c' := Collab.onInitSync uuid c (WebSocketService.init_sync timestamp users room) in
  let first := nextRef (Collab.world c) in
  Scene.shapes (wscene (Collab.world c')) = seq first (length originals) /\
  forall (i : nat) (s : Shape.t),
    originals !! i = Some s ->
    wheap (Collab.world c') (first + i)%nat = rebuilt (uuid (first + i)%nat) s.
Proof.
  cbv zeta. rewrite onInitSync_init_sync. cbn [Collab.world]. rewrite Hentries.
  clear Hentries. set (w0 := Collab.world c) in *. clearbody w0.
  assert (Hgen :
    let w := fold_left (Collab.addFromData uuid) (map stored_entry originals) w0 in
    Scene.shapes (wscene w) = seq (nextRef w0) (length originals) /\
    nextRef w = (nextRef w0 + length originals)%nat /\
    forall (i : nat) (s : Shape.t),
      originals !! i = Some s ->
      wheap w (nextRef w0 + i)%nat = rebuilt (uuid (nextRef w0 + i)%nat) s).
  { induction originals as [|s l IH] using rev_ind; cbv zeta.
    - simpl. split; [exact Hempty|]. split; [lia|]. intros i s Hi. discriminate.
    - destruct IH as (Hs & Hn & Hh).
      { intros s' Hs'. apply Hnames. apply elem_of_app. now left. }
      rewrite map_app, fold_left_app. cbn [map fold_left].
      set (w := fold_left _ _ _) in *.
      rewrite (addFromData_stored uuid w s)
        by (apply Hnames; apply elem_of_app; right; left).
      unfold with_new_shape. cbn [wscene wheap nextRef].
      rewrite length_app. cbn [length].
      assert (Hflat : forall r,
                 r ∈ Scene.shapes (wscene w) ++ [nextRef w] ->
                 Shape.zIndex (upd (wheap w) (nextRef w) (rebuilt (uuid (nextRef w)) s) r) == 0).
      { intros r Hr. apply elem_of_app in Hr. destruct Hr as [Hr|Hr].
        - rewrite Hs in Hr. apply elem_of_seq in Hr.
          assert (Hne : r <> nextRef w) by lia. rewrite upd_other by exact Hne.
          destruct (lookup_lt_is_Some_2 l (r - nextRef w0)) as [s' Hs']; [lia|].
          replace r with (nextRef w0 + (r - nextRef w0))%nat by lia.
          rewrite (Hh _ _ Hs'). reflexivity.
        - apply list_elem_of_singleton in Hr. subst r. rewrite upd_same. reflexivity. }
      split; [|split; [lia|]].
      + rewrite (add_on_top _ _ _ Hflat), Hs, Hn.
        replace (length l + 1)%nat with (S (length l)) by lia.
        now rewrite seq_S.
      + intros i s' Hi. destruct (decide (i = length l)) as [->|Hne].
        * rewrite <- Hn, upd_same.
          rewrite lookup_app_r in Hi by lia. rewrite Nat.sub_diag in Hi.
          injection Hi as <-. reflexivity.
        * assert (Hlt : (i < length l)%nat).
          { apply lookup_lt_Some in Hi. rewrite length_app in Hi. simpl in Hi. lia. }
          rewrite lookup_app_l in Hi by exact Hlt.
          rewrite upd_other by lia. now apply Hh. }
  cbv zeta in Hgen. destruct Hgen as (Hs & _ & Hh). split; [exact Hs|exact Hh].
Qed.

Lemma init_sync_witness :
  let c := Collab.mk (CommandManager.new None)
             (mkWorld Scenario.origin_heap (Scene.new None None None) 0%nat)
             false true "room" "C" in
  let room := Room.mk "room" "Untitled Room"
                (map stored_entry [Scenario.rect "s1" 1 2 3 4]) [] 1 in
  Scene.shapes (wscene (Collab.world
     (Collab.onInitSync (fun _ => "fresh"%string) c
        (WebSocketService.init_sync 0 [] room)))) = [0%nat].
Proof.
  cbv zeta.
  refine (proj1 (init_sync_rebuilds_every_entry (fun _ => "fresh"%string)
                   (Collab.mk (CommandManager.new None)
                      (mkWorld Scenario.origin_heap (Scene.new None None None) 0%nat)
                      false true "room" "C")
                   0 []
                   (Room.mk "room" "Untitled Room"
                      (map stored_entry [Scenario.rect "s1" 1 2 3 4]) [] 1)
                   [Scenario.rect "s1" 1 2 3 4] eq_refl eq_refl _)).
  intros s Hs. apply list_elem_of_singleton in Hs. subst s. discriminate.
Defined.

Lemma update_type_cases (t : string) :
  t ∈ update_types ->
  t = "update-shape"%string \/ t = "move-shape"%string \/
  t = "resize-shape"%string \/ t = "rotate-shape"%string.
Proof.
  unfold update_types. rewrite !elem_of_cons, elem_of_nil. tauto.
Qed.

Lemma mutation_update (roomId : string) (cmd : JSON) (t : string) :
  Json.get cmd "type" = Some (JStr t) -> t ∈ update_types ->
  WebSocketService.mutation roomId cmd =
  Some (fun db => RoomService.updateShape db roomId (Json.get cmd "shapeId") cmd).
Proof.
  intros Ht Hin. unfold WebSocketService.mutation. rewrite Ht.
  destruct (update_type_cases t Hin) as [->|[->|[->| ->]]]; reflexivity.
Qed.

Lemma createShape_update (uuid : string) (cmd : JSON) (t : string) :
  Json.get cmd "type" = Some (JStr t) -> t ∈ update_types ->
  createShapeFromJSON uuid cmd = None.
Proof.
  intros Ht Hin. unfold createShapeFromJSON. destruct cmd; try reflexivity.
  rewrite Ht. destruct (update_type_cases t Hin) as [->|[->|[->| ->]]]; reflexivity.
Qed.

Lemma set_first_data_middle (shapeId : option JSON) (updates : JSON)
    (pre post : list JSON) (entry : JSON) :
  (forall e, e ∈ pre -> RoomService.entry_has_id shapeId e = false) ->
  RoomService.entry_has_id shapeId entry = true ->
  RoomService.set_first_data shapeId updates (pre ++ entry :: post) =
  pre ++ JObj (Json.field_opt "id" (Json.get entry "id") ++
               Json.field_opt "type" (Json.get entry "type") ++
               [("data", updates)]%string) :: post.
Proof.
  intros Hpre Hentry. induction pre as [|e pre IH]; simpl.
  - now rewrite Hentry.
  - rewrite (Hpre e) by left. f_equal. apply IH. intros e' He'. apply Hpre. now right.
Qed.

Lemma existsb_middle (shapeId : option JSON) (pre post : list JSON) (entry : JSON) :
  RoomService.entry_has_id shapeId entry = true ->
  existsb (RoomService.entry_has_id shapeId) (pre ++ entry :: post) = true.
Proof.
  intros H. rewrite existsb_app. simpl. rewrite H. simpl. apply orb_true_r.
Qed.

Lemma overwritten_entry_data (entry updates : JSON) :
  Json.get (JObj (Json.field_opt "id" (Json.get entry "id") ++
                  Json.field_opt "type" (Json.get entry "type") ++
                  [("data", updates)]%string)) "data" = Some updates.
Proof.
  destruct (Json.get entry "id"), (Json.get entry "type"); reflexivity.
Qed.

(** Recording an operation, accepted or not, leaves the rooms alone. *)
Lemma saveOperation_rooms (db : DB) (roomId userId : string) (type : option JSON)
    (data : JSON) :
  db_rooms (match RoomService.saveOperation db roomId userId type data with
            | Some db2 => (db2, false)
            | None => (db, true)
            end).1 = db_rooms db.
Proof.
  unfold RoomService.saveOperation.
  destruct (Operation.valid_roomId roomId && Operation.valid_type type); reflexivity.
Qed.

(** X26: when the relay persists an update, move, resize or rotate command
    for a stored shape, the first stored entry with that id gets the command
    itself as its [data], the other entries stay, and the [init_sync]
    handling of a later joiner skips the overwritten entry: the shape is not
    rebuilt. *)
Theorem persisted_update_loses_shape
    (readyState : conn -> nat) (now : Q) (st : WebSocketService.t) (ws : conn)
    (roomId userId : string) (cmd : JSON) (t sid : string) (room : Room.t)
    (pre post : list JSON) (entry : JSON)
    (Htype : Json.get cmd "type" = Some (JStr t))
    (Hupdate : t ∈ update_types)
    (Hid : Json.get cmd "shapeId" = Some (JStr sid))
    (Hroom : db_rooms (WebSocketService.db st) !! roomId = Some room)
    (Hshapes : Room.shapes room = pre ++ entry :: post)
    (Hpre : forall e, e ∈ pre -> RoomService.entry_has_id (Some (JStr sid)) e = false)
    (Hentry : RoomService.entry_has_id (Some (JStr sid)) entry = true) :
  let st' := (WebSocketService.handleCommand readyState no_faults now st ws roomId userId
                (operation_of cmd)).1 in
  exists entry',
    Room.shapes (RoomService.room_or_new (WebSocketService.db st') roomId)
    = pre ++ entry' :: post /\
    Json.get entry' "data" = Some cmd /\
    forall (uuid : ref -> string) (w : World), Collab.addFromData uuid w entry' = w.
Proof.
  cbv zeta.
  assert (Hobj : Json.truthy (Some cmd) = true).
  { destruct cmd; try discriminate Htype. reflexivity. }
  rewrite (handleCommand_state _ _ _ _ _ _ _ _ Hobj). cbn [WebSocketService.db].
  unfold WebSocketService.persist. rewrite (mutation_update roomId cmd t Htype Hupdate).
  cbn [is_Some_b no_faults mutation_throws saveOperation_throws andb].
  unfold RoomService.room_or_new. rewrite saveOperation_rooms.
  unfold RoomService.updateShape. rewrite Hroom, Hid, Hshapes.
  rewrite (existsb_middle _ pre post entry Hentry).
  unfold RoomService.put. cbn [db_rooms Room.roomId]. rewrite lookup_insert_eq.
  cbn [default Room.shapes].
  rewrite (set_first_data_middle _ cmd pre post entry Hpre Hentry).
  eexists. split; [reflexivity|]. split; [apply overwritten_entry_data|].
  intros uuid w. unfold Collab.addFromData.
  rewrite overwritten_entry_data, (createShape_update _ cmd t Htype Hupdate).
  reflexivity.
Qed.

Lemma persisted_update_witness :
  exists entry',
    Room.shapes
      (RoomService.room_or_new
         (WebSocketService.db
            (WebSocketService.handleCommand Scenario.all_open no_faults 0
               Scenario.relay_with_room 1%nat "room" "A"
               (operation_of
                  (JObj [("type", JStr "move-shape"); ("shapeId", JStr "s1");
                         ("delta", JObj [("x", JNum 1); ("y", JNum 1)])]%string))).1)
         "room")
    = [] ++ entry' :: [].
Proof.
  destruct (persisted_update_loses_shape Scenario.all_open 0 Scenario.relay_with_room
              1%nat "room" "A"
              (JObj [("type", JStr "move-shape"); ("shapeId", JStr "s1");
                     ("delta", JObj [("x", JNum 1); ("y", JNum 1)])]%string)
              "move-shape" "s1" Scenario.stored_room [] []
              (JObj [("id", JStr "s1"); ("type", JStr "Rect");
                     ("data", Shape.toJSON (Scenario.rect "s1" 100 100 200 150))]%string)
              eq_refl ltac:(unfold update_types; set_solver) eq_refl eq_refl eq_refl
              ltac:(intros e He; inversion He) eq_refl) as (entry' & H & _).
  exists entry'. exact H.
Defined.

(** ** Leaving a room *)

Lemma handleJoin_registries (readyState : conn -> nat) (f : DbFaults) (now : Q)
    (st : WebSocketService.t) (ws : conn) (roomId userId : string)
    (userData : option JSON) :
  let st' := (WebSocketService.handleJoin readyState f now st ws roomId userId userData).1 in
  WebSocketService.clients st' =
    <[ws := WebSocketService.mkInfo userId roomId userData]> (WebSocketService.clients st) /\
  WebSocketService.rooms st' =
    <[roomId := WebSocketService.set_add ws (WebSocketService.members st roomId)]>
      (WebSocketService.rooms st).
Proof.
  unfold WebSocketService.handleJoin. cbv zeta.
  destruct (addUser_throws f); [split; reflexivity|].
  destruct (getRoom_throws f); [split; reflexivity|].
  destruct (RoomService.getRoom _ _) as [db2 room]. split; reflexivity.
Qed.

Lemma filter_others_fresh (ws : conn) (l : list conn) :
  ws ∉ l -> filter (fun client => client ≠ ws) (l ++ [ws]) = l.
Proof.
  intros Hn. rewrite filter_app.
  rewrite (filter_cons_False (fun client => client ≠ ws)) by (intros H; now apply H).
  rewrite filter_nil, app_nil_r.
  induction l as [|a l IH]; [reflexivity|].
  rewrite filter_cons_True.
  - f_equal. apply IH. intros H. apply Hn. now right.
  - intros ->. apply Hn. left.
Qed.

Lemma set_add_fresh (ws : conn) (l : list conn) :
  ws ∉ l -> WebSocketService.set_add ws l = l ++ [ws].
Proof.
  intros Hn. unfold WebSocketService.set_add.
  destruct (existsb (Nat.eqb ws) l) eqn:E; [|reflexivity].
  apply existsb_exists in E. destruct E as (x & Hx & Hex).
  apply Nat.eqb_eq in Hex. subst x. exfalso. apply Hn. now apply list_elem_of_In.
Qed.

(** X27: for a socket the relay does not know yet, a join followed by a leave
    of the same room puts the client and room registries back as they were
    (a room created by the join is dropped again), and the leave notice goes
    to exactly the open sockets that were in the room before, never to the
    leaver. *)
Theorem join_then_leave_restores_registries
    (readyState : conn -> nat) (f : DbFaults) (now now2 : Q)
    (st : WebSocketService.t) (ws : conn) (roomId userId : string)
    (userData : option JSON)
    (Hnew : WebSocketService.clients st !! ws = None)
    (Hout : ws ∉ WebSocketService.members st roomId)
    (Hrooms : WebSocketService.rooms st !! roomId <> Some []) :
  let st1 := (WebSocketService.handleJoin readyState f now st ws roomId userId userData).1 in
  let result := WebSocketService.handleLeave readyState false now2 st1 ws roomId userId in
  WebSocketService.clients result.1 = WebSocketService.clients st /\
  WebSocketService.rooms result.1 = WebSocketService.rooms st /\
  result.2 = Some (map (fun client => (client, WebSocketService.leave_message now2 userId))
                       (filter (fun client => readyState client = 1%nat)
                               (WebSocketService.members st roomId))).
Proof.
  cbv zeta.
  destruct (handleJoin_registries readyState f now st ws roomId userId userData)
    as [Hc Hr]. cbv zeta in Hc, Hr.
  set (st1 := (WebSocketService.handleJoin _ _ _ _ _ _ _ _).1) in *.
  unfold WebSocketService.handleLeave. cbn [fst snd WebSocketService.clients
                                            WebSocketService.rooms].
  assert (Hleave : WebSocketService.leave_room st1 ws roomId = WebSocketService.rooms st).
  { unfold WebSocketService.leave_room. rewrite Hr, lookup_insert_eq.
    rewrite (set_add_fresh _ _ Hout), (filter_others_fresh _ _ Hout).
    unfold WebSocketService.members in *.
    destruct (WebSocketService.rooms st !! roomId) as [l|] eqn:E; simpl.
    - destruct l as [|a l]; [contradiction|]. simpl.
      rewrite insert_insert_eq. now apply insert_id.
    - now apply delete_insert_id. }
  split; [rewrite Hc; now apply delete_insert_id|]. split; [exact Hleave|].
  f_equal. rewrite broadcast_all. unfold WebSocketService.members. simpl.
  now rewrite Hleave.
Qed.

Lemma join_then_leave_witness :
  WebSocketService.rooms
    (WebSocketService.handleLeave Scenario.all_open false 1
       (WebSocketService.handleJoin Scenario.all_open no_faults 0 Scenario.relay
          3%nat "room" "C" None).1 3%nat "room" "C").1
  = WebSocketService.rooms Scenario.relay.
Proof.
  assert (Hout : 3%nat ∉ WebSocketService.members Scenario.relay "room").
  { assert (E : WebSocketService.members Scenario.relay "room" = [1%nat; 2%nat])
      by (vm_compute; reflexivity).
    rewrite E, !elem_of_cons, elem_of_nil. intros [H|[H|H]]; try discriminate H.
    exact H. }
  assert (Hrooms : WebSocketService.rooms Scenario.relay !! "room"%string <> Some []).
  { assert (E : WebSocketService.rooms Scenario.relay !! "room"%string
                = Some [1%nat; 2%nat]) by (vm_compute; reflexivity).
    intros H. pose proof (eq_trans (eq_sym H) E) as K. discriminate K. }
  exact (proj1 (proj2 (join_then_leave_restores_registries Scenario.all_open no_faults
                         0 1 Scenario.relay 3%nat "room" "C" None eq_refl Hout Hrooms))).
Defined.

(** X28: a leave that names a room the socket is not in drops the socket's
    client record but leaves the socket in the set of its own room; the
    disconnect that follows finds no record and cleans nothing up, so the
    socket stays a member of that room. *)
Theorem leave_of_other_room_strands_socket
    (readyState : conn -> nat) (now now2 : Q) (st : WebSocketService.t) (ws : conn)
    (own other userId : string)
    (Hmember : ws ∈ WebSocketService.members st own)
    (Hother : other <> own) :
  let st' := (WebSocketService.handleLeave readyState false now st ws other userId).1 in
  ws ∈ WebSocketService.members st' own /\
  WebSocketService.clients st' !! ws = None /\
  WebSocketService.handleDisconnect readyState false now2 st' ws = (st', Some []).
Proof.
  cbv zeta. unfold WebSocketService.handleLeave. cbn [fst].
  assert (Hown : WebSocketService.leave_room st ws other !! own
                 = WebSocketService.rooms st !! own).
  { unfold WebSocketService.leave_room.
    destruct (WebSocketService.rooms st !! other) as [room|]; [|reflexivity].
    destruct (Nat.eqb _ 0).
    - now apply lookup_delete_ne.
    - now apply lookup_insert_ne. }
  split; [|split].
  - unfold WebSocketService.members in *. simpl. now rewrite Hown.
  - simpl. apply lookup_delete_eq.
  - unfold WebSocketService.handleDisconnect. simpl. now rewrite lookup_delete_eq.
Qed.

Lemma stranded_socket_witness :
  1%nat ∈ WebSocketService.members
    (WebSocketService.handleLeave Scenario.all_open false 0 Scenario.relay
       1%nat "lobby" "A").1 "room".
Proof.
  refine (proj1 (leave_of_other_room_strands_socket Scenario.all_open 0 1 Scenario.relay
                   1%nat "room" "lobby" "A" _ _)).
  - vm_compute. left.
  - discriminate.
Defined.

(** ** Editor view *)

(** With a zoom above zero the view matrix has an inverse, so
    [updateViewMatrix] does not throw; it leaves zoom and pan alone. *)
Lemma updateViewMatrix_defined (e : Editor.t) :
  0 < Editor.zoom e ->
  exists e', Editor.updateViewMatrix e = Some e' /\
             Editor.zoom e' = Editor.zoom e /\ Editor.pan e' = Editor.pan e.
Proof.
  intros Hpos. unfold Editor.updateViewMatrix. cbv zeta.
  set (V := Matrix.scale _ _ _).
  destruct (Matrix.invert V) as [inverse|] eqn:Einv.
  - eexists. split; [reflexivity|]. split; reflexivity.
  - exfalso. unfold Matrix.invert in Einv.
    destruct (Qeq_bool _ 0) eqn:E; [|discriminate].
    apply Qeq_bool_iff in E. unfold V in E. simpl in E.
    assert (K : Editor.zoom e * Editor.zoom e == 0) by (rewrite <- E; ring).
    nra.
Qed.

(** X29: the zoom of a new editor is within [minZoom] and [maxZoom], and
    [zoomAt], [setZoom] and [setPan] keep it there without ever throwing:
    [zoomAt] ignores a step that would leave the range and otherwise
    multiplies the zoom by the factor and adds [point * (1 - scale)] to the
    pan; [setZoom] clamps the zoom and keeps the pan; [setPan] sets the pan
    and keeps the zoom. *)
Theorem view_stays_consistent (e : Editor.t) (point : Vector.t) (scale zoom x y : Q) :
  zoom_in_range e ->
  zoom_in_range Editor.new /\
  (exists e', Editor.zoomAt e point scale = Some e' /\ zoom_in_range e' /\
              if (CONFIG.minZoom <=? Editor.zoom e * scale) &&
                 (Editor.zoom e * scale <=? CONFIG.maxZoom)
              then Editor.zoom e' = Editor.zoom e * scale /\
                   Editor.pan e' =
                     Vector.mk (Vector.x (Editor.pan e) + Vector.x point * (1 - scale))
                               (Vector.y (Editor.pan e) + Vector.y point * (1 - scale))
              else e' = e) /\
  (exists e', Editor.setZoom e zoom = Some e' /\ zoom_in_range e' /\
              Editor.zoom e' = Qmax CONFIG.minZoom (Qmin CONFIG.maxZoom zoom) /\
              Editor.pan e' = Editor.pan e) /\
  (exists e', Editor.setPan e x y = Some e' /\ zoom_in_range e' /\
              Editor.zoom e' = Editor.zoom e /\ Editor.pan e' = Vector.mk x y).
Proof.
  unfold zoom_in_range. intros Hz.
  split; [unfold CONFIG.minZoom, CONFIG.maxZoom; simpl; lra|].
  split; [|split].
  - unfold Editor.zoomAt. cbv zeta.
    destruct (CONFIG.minZoom <=? Editor.zoom e * scale) eqn:Hlo;
      [|exists e; cbn [negb orb andb]; now split].
    destruct (Editor.zoom e * scale <=? CONFIG.maxZoom) eqn:Hhi;
      [|exists e; cbn [negb orb andb]; now split].
    cbn [negb orb andb]. apply Qle_bool_true in Hlo, Hhi.
    destruct (updateViewMatrix_defined
                (Editor.mk (Editor.zoom e * scale)
                   (Vector.add (Editor.pan e)
                      (Vector.mk (Vector.x point * (1 - scale))
                                 (Vector.y point * (1 - scale))))
                   (Editor.viewMatrix e) (Editor.viewMatrixInverse e)))
      as (e' & Hrun & Hzoom & Hpan).
    { cbn [Editor.zoom]. unfold CONFIG.minZoom in Hlo. lra. }
    exists e'. split; [exact Hrun|]. rewrite Hzoom, Hpan. cbn [Editor.zoom Editor.pan].
    split; [now split|]. split; reflexivity.
  - assert (Hclamp : CONFIG.minZoom <= Qmax CONFIG.minZoom (Qmin CONFIG.maxZoom zoom)
                     <= CONFIG.maxZoom).
    { split; [apply Q.le_max_l|].
      apply Q.max_lub; [unfold CONFIG.minZoom, CONFIG.maxZoom; lra|apply Q.le_min_l]. }
    destruct (updateViewMatrix_defined
                (Editor.mk (Qmax CONFIG.minZoom (Qmin CONFIG.maxZoom zoom)) (Editor.pan e)
                   (Editor.viewMatrix e) (Editor.viewMatrixInverse e)))
      as (e' & Hrun & Hzoom & Hpan).
    { cbn [Editor.zoom]. unfold CONFIG.minZoom in Hclamp at 1. lra. }
    exists e'. split; [exact Hrun|]. rewrite Hzoom, Hpan. cbn [Editor.zoom Editor.pan].
    split; [exact Hclamp|]. split; reflexivity.
  - destruct (updateViewMatrix_defined
                (Editor.mk (Editor.zoom e) (Vector.mk x y)
                   (Editor.viewMatrix e) (Editor.viewMatrixInverse e)))
      as (e' & Hrun & Hzoom & Hpan).
    { cbn [Editor.zoom]. unfold CONFIG.minZoom in Hz. lra. }
    exists e'. split; [exact Hrun|]. rewrite Hzoom, Hpan. cbn [Editor.zoom Editor.pan].
    split; [exact Hz|]. split; reflexivity.
Qed.

(** A new editor zooms in by 2 at the point (100, 50): the zoom is 2 and
    the pan (-100, -50); a further step by 8 would leave the range and is
    ignored. *)
Lemma view_witness :
  exists e',
    Editor.zoomAt Editor.new (Vector.mk 100 50) 2 = Some e' /\
    Editor.zoom e' = 2 /\ Editor.pan e' = Vector.mk (- (100)) (- (50)) /\
    Editor.zoomAt e' (Vector.mk 100 50) 8 = Some e'.
Proof.
  assert (Hnew : zoom_in_range Editor.new)
    by (unfold zoom_in_range, CONFIG.minZoom, CONFIG.maxZoom; simpl; lra).
  destruct (view_stays_consistent Editor.new (Vector.mk 100 50) 2 1 0 0 Hnew)
    as (_ & (e' & Hrun & Hrange & Hstep) & _).
  exists e'. split; [exact Hrun|].
  change ((CONFIG.minZoom <=? Editor.zoom Editor.new * 2) &&
          (Editor.zoom Editor.new * 2 <=? CONFIG.maxZoom)) with true in Hstep.
  destruct Hstep as [Hzoom Hpan].
  split; [exact Hzoom|]. split; [exact Hpan|].
  destruct (view_stays_consistent e' (Vector.mk 100 50) 8 1 0 0 Hrange)
    as (_ & (e2 & Hrun2 & _ & Hstep2) & _).
  rewrite Hzoom in Hstep2.
  change ((CONFIG.minZoom <=? 2 * 8) && (2 * 8 <=? CONFIG.maxZoom)) with false in Hstep2.
  now rewrite Hstep2 in Hrun2.
Defined.
